(** * monstereo/activity.py: social interactions and F-formations

    A shallow embedding of [social_interactions] and [check_f_formations]
    (src/monstereo/activity.py, lines 25-113).

    Numbers.  Python floats are idealised as the real numbers of the
    Standard Library: [math.sqrt], [math.cos] and [math.sin] are [sqrt],
    [cos] and [sin], comparisons are decided with [bool_decide].  There is
    no rounding and no NaN in this model, and the float32 arithmetic of
    the torch tensors of lines 50-67 is exact arithmetic as well.  The
    one float exception that [social_interactions] can raise, the
    [OverflowError] of [** 2] at line 34, is modelled, with the infinite
    distances that the same line produces silently (see [distances]).

    Data.  A center is a pair [(x, z)]; the code reads [cent[0]] and
    [cent[1]] only.  Indices are natural numbers, [n_samples] is a Python
    int ([Z]).  Indexing a list out of range raises [IndexError].

    Libraries.  [np.argsort] is an argument of the functions that call
    it: numpy fixes the order of its result only up to the order of equal
    values.  The collaborators of [show_social] that are not among the
    sources are arguments as well. *)

From stdpp Require Import base decidable option list sorting gmap strings.
From Stdlib Require Import Reals Lra Lia ZArith.

Open Scope R_scope.

(** ** Exceptions *)

Inductive exn : Set :=
  | IndexError      (* list or tensor index out of range *)
  | RuntimeError    (* torch.tensor(None), torch.cat on different lengths *)
  | OverflowError.  (* [x ** 2] beyond the range of the floats *)

Inductive result (A : Type) : Type :=
  | Ok (a : A)
  | Raise (e : exn).
Arguments Ok {A} a.
Arguments Raise {A} e.

#[global] Instance result_ret : MRet result := @Ok.
#[global] Instance result_bind : MBind result := λ A B f m,
  match m with
  | Ok a => f a
  | Raise e => Raise e
  end.

(** [l[i]] *)
Definition getitem {A} (l : list A) (i : nat) : result A :=
  match l !! i with
  | Some a => Ok a
  | None => Raise IndexError
  end.

(** ** Numbers and small vectors *)

#[global] Instance R_inhabited : Inhabited R := populate 0.
#[global] Instance Rle_decision (x y : R) : Decision (x <= y) := Rle_dec x y.
#[global] Instance Rlt_decision (x y : R) : Decision (x < y) := Rlt_dec x y.

Abbreviation point := (R * R)%type.

Definition vadd (a b : point) : point := (a.1 + b.1, a.2 + b.2).
Definition vsub (a b : point) : point := (a.1 - b.1, a.2 - b.2).
Definition vdiv (a : point) (k : R) : point := (a.1 / k, a.2 / k).

(** [np.linalg.norm] of a vector of two coordinates. *)
Definition norm (v : point) : R := sqrt (v.1 * v.1 + v.2 * v.2).

(** Python's builtin [min(a, b)]: the second argument wins only when it
    is strictly smaller. *)
Definition py_min (a b : R) : R := if decide (b < a) then b else a.

(** [np.min] of an array that is never empty where the code calls it. *)
Definition np_min (a : list R) : R :=
  match a with
  | [] => 0
  | x :: t => foldl Rmin x t
  end.

(** [enumerate(l)] *)
Definition enumerate {A} (l : list A) : list (nat * A) :=
  zip (seq 0 (length l)) l.

(** ** check_f_formations (lines 76-113) *)

(** Line 84: [[cent for l, cent in enumerate(centers) if l not in (idx, idx_t)]] *)
Definition other_centers (idx idx_t : nat) (centers : list point) : list point :=
  (filter (λ p, p.1 ∉ [idx; idx_t]) (enumerate centers)).*2.

(** Lines 104-107: the distances of the third parties to [o_c], or the
    sentinel [100 * np.ones((1, 1))] when there is nobody else. *)
Definition other_distances (others : list point) (o_c : point) : list R :=
  if bool_decide (others = [])
  then [100 * 1]
  else (λ c, norm (vsub c o_c)) <$> others.

(** Lines 90-111: the body of the loop for one radius, up to the test
    of line 111. *)
Definition radius_test (x_0 x_1 : point) (theta0 theta1 : R)
    (others : list point) (social_distance : bool) (radius : R) : bool :=
  let mu_0 := (x_0.1 + radius * cos theta0, x_0.2 - radius * sin theta0) in
  let mu_1 := (x_1.1 + radius * cos theta1, x_1.2 - radius * sin theta1) in
  let o_c := vdiv (vadd mu_0 mu_1) 2 in
  let d_new := if social_distance
               then norm (vsub mu_0 mu_1) / 2
               else norm (vsub mu_0 mu_1) in
  let d_0 := norm (vsub x_0 o_c) in
  let d_1 := norm (vsub x_1 o_c) in
  bool_decide (d_new <= py_min d_0 d_1)
  && bool_decide (radius < np_min (other_distances others o_c)).

(** Lines 89-113: [for radius in radii: ... return True] and the final
    [return False].  [centers[idx]] and [centers[idx_t]] are read inside
    the loop. *)
Fixpoint radii_loop (idx idx_t : nat) (centers : list point)
    (theta0 theta1 : R) (others : list point) (social_distance : bool)
    (radii : list R) : result bool :=
  match radii with
  | [] => Ok false
  | radius :: rest =>
      x_0 ← getitem centers idx;
      x_1 ← getitem centers idx_t;
      if radius_test x_0 x_1 theta0 theta1 others social_distance radius
      then Ok true
      else radii_loop idx idx_t centers theta0 theta1 others social_distance rest
  end.

Definition check_f_formations (idx idx_t : nat) (centers : list point)
    (angles : list R) (radii : list R) (social_distance : bool) : result bool :=
  let others := other_centers idx idx_t centers in
  theta0 ← getitem angles idx;
  theta1 ← getitem angles idx_t;
  radii_loop idx idx_t centers theta0 theta1 others social_distance radii.

(** ** social_interactions (lines 25-73) *)

(** *** Line 34: distances that leave the range of the floats

    [float_overflow] is the least magnitude that a double rounds to
    [inf], [2^1024 - 2^970].  A float subtraction or addition whose
    result reaches it gives [inf] without an exception; [x ** 2] of a
    finite [x] raises [OverflowError] instead, and [inf ** 2] is [inf]. *)
Definition float_overflow : R := 2 ^ 1024 - 2 ^ 970.

(** A distance of line 34: a number or [inf]. *)
Inductive pyfloat : Type :=
  | Finite (x : R)
  | Inf.

#[global] Instance pyfloat_inhabited : Inhabited pyfloat := populate Inf.

(** [a <= b] on such floats. *)
Definition float_le (a b : pyfloat) : Prop :=
  match a, b with
  | Finite x, Finite y => x <= y
  | _, Inf => True
  | Inf, Finite _ => False
  end.

#[global] Instance float_le_decision (a b : pyfloat)
    : Decision (float_le a b) :=
  match a, b return Decision (float_le a b) with
  | Finite x, Finite y => Rle_dec x y
  | Finite _, Inf => left I
  | Inf, Inf => left I
  | Inf, Finite _ => right (λ H, H)
  end.

(** [(a - b) ** 2] *)
Definition sq_diff (a b : R) : result pyfloat :=
  if bool_decide (float_overflow <= Rabs (a - b)) then Ok Inf
  else if bool_decide (float_overflow <= (a - b) ^ 2) then Raise OverflowError
  else Ok (Finite ((a - b) ^ 2)).

(** [math.sqrt(s + t)] *)
Definition sqrt_sum (s t : pyfloat) : pyfloat :=
  match s, t with
  | Finite s, Finite t =>
      if bool_decide (float_overflow <= s + t) then Inf
      else Finite (sqrt (s + t))
  | _, _ => Inf
  end.

(** Line 34, for the focal center [(xx, zz)]. *)
Fixpoint distances (xx zz : R) (centers : list point)
    : result (list pyfloat) :=
  match centers with
  | [] => Ok []
  | c :: rest =>
      s ← sq_diff xx c.1;
      t ← sq_diff zz c.2;
      ds ← distances xx zz rest;
      Ok (sqrt_sum s t :: ds)
  end.

(** Lines 35-36: the candidate set, [sorted_idxs[1:]] filtered by
    [threshold_dist].  [argsort] is [np.argsort]: numpy returns the
    positions [0 .. len-1] in ascending order of the values and chooses
    the order of equal values itself (its default sort is not stable),
    so the function is an argument here and the properties below hold
    for every function that [sorts]. *)
Definition indices (argsort : list pyfloat → list nat) (xx zz : R)
    (centers : list point) (threshold_dist : R) : result (list nat) :=
  distances ← distances xx zz centers;
  let sorted_idxs := argsort distances in
  Ok (filter (λ idx_t, float_le (distances !!! idx_t) (Finite threshold_dist))
             (tail sorted_idxs)).

(** One such function: the insertion sort, which keeps equal values in
    their original order. *)
Fixpoint insert_idx (a : list pyfloat) (i : nat) (sorted : list nat)
    : list nat :=
  match sorted with
  | [] => [i]
  | j :: rest =>
      if decide (float_le (a !!! i) (a !!! j))
      then i :: sorted
      else j :: insert_idx a i rest
  end.

Definition insertion_argsort (a : list pyfloat) : list nat :=
  foldr (insert_idx a) [] (seq 0 (length a)).

(** Lines 41-45: the deterministic loop over the candidates. *)
Fixpoint deterministic_loop (idx : nat) (centers : list point)
    (angles : list R) (radii : list R) (social_distance : bool)
    (indices : list nat) : result bool :=
  match indices with
  | [] => Ok false
  | idx_t :: rest =>
      b ← check_f_formations idx idx_t centers angles radii social_distance;
      if b : bool then Ok true
      else deterministic_loop idx centers angles radii social_distance rest
  end.

(** [torch.tensor(x).view(-1, 1)]: a column of the values; [None] has
    no dtype. *)
Definition torch_tensor_view (x : option (list R)) : result (list R) :=
  match x with
  | None => Raise RuntimeError
  | Some l => Ok l
  end.

(** [torch.cat((dds, stds), dim=1)] of two columns: one row
    [(location, scale)] per person. *)
Definition torch_cat (dds stds : list R) : result (list (R * R)) :=
  if decide (length dds = length stds)
  then Ok (zip dds stds)
  else Raise RuntimeError.

(** Modelled from the spec: [laplace_sampling] lives in
    monstereo/network/process.py, which is not among the sources.  The
    spec (4.1, step 4) draws, for every person [el] and every sample
    [s_d], a Laplace variate of location [dds[el]] and scale [stds[el]].
    A Laplace variate of location [m] and scale [b] is [m + b * u] for a
    unit Laplace variate [u]; the unit draws of the random generator are
    the argument [noise].  The result is [samples_d[s_d, el]]. *)
Definition laplace_sampling (laplace_d : list (R * R))
    (noise : nat → nat → R) (s_d el : nat) : result R :=
  p ← getitem laplace_d el;
  Ok (p.1 + p.2 * noise s_d el).

(** [math.atan2(y, x)] *)
Definition atan2 (y x : R) : R :=
  if decide (0 < x) then atan (y / x)
  else if decide (x < 0)
       then (if decide (0 <= y) then atan (y / x) + PI else atan (y / x) - PI)
       else if decide (0 < y) then PI / 2
            else if decide (y < 0) then - (PI / 2)
                 else 0.

(** Lines 62-67: the body of [for el in (idx, idx_t)], on the copy
    [new_centers].  In the code [dds[el]] is an entry of a float32
    tensor, so the shift and the two coordinates it is added to become
    float32 tensors; here they stay exact numbers. *)
Definition perturb (dds : list R) (samples_d : nat → nat → result R)
    (s_d : nat) (new_centers : list point) (el : nat) : result (list point) :=
  d ← getitem dds el;
  smp ← samples_d s_d el;
  let delta_d := d - smp in
  c ← getitem new_centers el;
  let theta := atan2 c.2 c.1 in
  let delta_x := delta_d * cos theta in
  let delta_z := delta_d * sin theta in
  Ok (<[el := (c.1 + delta_x, c.2 + delta_z)]> new_centers).

(** Lines 60-70: one sample.  [copy.deepcopy(centers)] is the value
    [centers] itself; [Store.sample_formation] below has the copy as an
    object of its own. *)
Definition sample_formation (idx idx_t : nat) (centers : list point)
    (angles : list R) (dds : list R) (samples_d : nat → nat → result R)
    (radii : list R) (social_distance : bool) (s_d : nat) : result bool :=
  let new_centers := centers in
  new_centers ← perturb dds samples_d s_d new_centers idx;
  new_centers ← perturb dds samples_d s_d new_centers idx_t;
  check_f_formations idx idx_t new_centers angles radii social_distance.

(** Lines 58-70: [f_forms] for [s_d in range(n_samples)]. *)
Fixpoint samples_loop (sample : nat → result bool) (range : list nat)
    : result (list bool) :=
  match range with
  | [] => Ok []
  | s_d :: rest =>
      b ← sample s_d;
      f_forms ← samples_loop sample rest;
      Ok (b :: f_forms)
  end.

(** [sum(f_forms)] of a list of booleans. *)
Definition py_sum (f_forms : list bool) : nat :=
  sum_list ((λ b : bool, if b then 1%nat else 0%nat) <$> f_forms).

(** Lines 57-72: the probabilistic loop over the candidates. *)
Fixpoint probabilistic_loop (sample : nat → nat → result bool)
    (n_samples : Z) (threshold_prob : R) (indices : list nat) : result bool :=
  match indices with
  | [] => Ok false
  | idx_t :: rest =>
      f_forms ← samples_loop (sample idx_t) (seq 0 (Z.to_nat n_samples));
      if bool_decide (threshold_prob <= INR (py_sum f_forms) / IZR n_samples)
      then Ok true
      else probabilistic_loop sample n_samples threshold_prob rest
  end.

(** [argsort] is [np.argsort] (see [indices]), [noise] stands for the
    random generator (see [laplace_sampling]); [dds] and [stds] may be
    [None]. *)
Definition social_interactions (argsort : list pyfloat → list nat)
    (noise : nat → nat → R)
    (idx : nat) (centers : list point) (angles : list R)
    (dds stds : option (list R)) (social_distance : bool) (n_samples : Z)
    (threshold_prob threshold_dist : R) (radii : list R) : result bool :=
  c ← getitem centers idx;
  let xx := c.1 in
  let zz := c.2 in
  indices ← indices argsort xx zz centers threshold_dist;
  if bool_decide (n_samples < 2)%Z
  then deterministic_loop idx centers angles radii social_distance indices
  else
    dds ← torch_tensor_view dds;
    stds ← torch_tensor_view stds;
    laplace_d ← torch_cat dds stds;
    let samples_d := laplace_sampling laplace_d noise in
    probabilistic_loop
      (λ idx_t, sample_formation idx idx_t centers angles dds samples_d
                                 radii social_distance)
      n_samples threshold_prob indices.

(** * The copies as objects

  [centers] is a Python list of lists: the outer list holds references
  to the rows [[x, z]], and a row is a mutable object.  Here the rows
  live in a heap, [centers] is the list of their addresses, and
  [copy.deepcopy] allocates new rows.  [angles], [dds] and [stds] hold
  floats, which the code only reads: they stay values. *)

Module Store.

Abbreviation loc := nat.

(** A computation on the heap that may raise. *)
Definition M (A : Type) : Type :=
  gmap loc point → result A * gmap loc point.

#[global] Instance M_ret : MRet M := λ A a h, (Ok a, h).
#[global] Instance M_bind : MBind M := λ A B f m h,
  match m h with
  | (Ok a, h') => f a h'
  | (Raise e, h') => (Raise e, h')
  end.

(** A computation that does not touch the heap. *)
Definition lift {A} (r : result A) : M A := λ h, (r, h).

(** [[row[0], row[1]]] for the row at [l]. *)
Definition read (l : loc) : M point := λ h, (Ok (h !!! l), h).

(** [row[0], row[1] = c] for the row at [l]. *)
Definition write (l : loc) (c : point) : M () := λ h, (Ok (), <[l := c]> h).

(** The nested list that [centers] denotes in the heap [h]. *)
Definition snapshot (h : gmap loc point) (centers : list loc) : list point :=
  (λ l, h !!! l) <$> centers.

Definition get_snapshot (centers : list loc) : M (list point) :=
  λ h, (Ok (snapshot h centers), h).

(** [copy.deepcopy] of the rows: a row met for the first time is
    copied to a new address, a row met again (an alias) is mapped to
    the copy already made, as the memo of [deepcopy] does. *)
Fixpoint deepcopy_rows (memo : gmap loc loc) (rows : list loc)
    (h : gmap loc point) : list loc * gmap loc point :=
  match rows with
  | [] => ([], h)
  | l :: rest =>
      match memo !! l with
      | Some l' =>
          let '(rest', h') := deepcopy_rows memo rest h in
          (l' :: rest', h')
      | None =>
          let l' := fresh (dom h) in
          let '(rest', h') :=
            deepcopy_rows (<[l := l']> memo) rest (<[l' := h !!! l]> h) in
          (l' :: rest', h')
      end
  end.

Definition deepcopy (centers : list loc) : M (list loc) := λ h,
  let '(new_centers, h') := deepcopy_rows ∅ centers h in
  (Ok new_centers, h').

(** Lines 62-67 on the rows of [new_centers]. *)
Definition perturb (dds : list R) (samples_d : nat → nat → result R)
    (s_d : nat) (new_centers : list loc) (el : nat) : M () :=
  d ← lift (getitem dds el);
  smp ← lift (samples_d s_d el);
  let delta_d := d - smp in
  l ← lift (getitem new_centers el);
  c ← read l;
  let theta := atan2 c.2 c.1 in
  let delta_x := delta_d * cos theta in
  let delta_z := delta_d * sin theta in
  write l (c.1 + delta_x, c.2 + delta_z).

(** [check_f_formations] reads the rows and writes nothing. *)
Definition check_f_formations (idx idx_t : nat) (centers : list loc)
    (angles radii : list R) (social_distance : bool) : M bool :=
  cs ← get_snapshot centers;
  lift (check_f_formations idx idx_t cs angles radii social_distance).

(** Lines 60-70. *)
Definition sample_formation (idx idx_t : nat) (centers : list loc)
    (angles : list R) (dds : list R) (samples_d : nat → nat → result R)
    (radii : list R) (social_distance : bool) (s_d : nat) : M bool :=
  new_centers ← deepcopy centers;
  _ ← perturb dds samples_d s_d new_centers idx;
  _ ← perturb dds samples_d s_d new_centers idx_t;
  check_f_formations idx idx_t new_centers angles radii social_distance.

Fixpoint samples_loop (sample : nat → M bool) (range : list nat)
    : M (list bool) :=
  match range with
  | [] => mret []
  | s_d :: rest =>
      b ← sample s_d;
      f_forms ← samples_loop sample rest;
      mret (b :: f_forms)
  end.

Fixpoint probabilistic_loop (sample : nat → nat → M bool)
    (n_samples : Z) (threshold_prob : R) (indices : list nat) : M bool :=
  match indices with
  | [] => mret false
  | idx_t :: rest =>
      f_forms ← samples_loop (sample idx_t) (seq 0 (Z.to_nat n_samples));
      if bool_decide (threshold_prob <= INR (py_sum f_forms) / IZR n_samples)
      then mret true
      else probabilistic_loop sample n_samples threshold_prob rest
  end.

Definition social_interactions (argsort : list pyfloat → list nat)
    (noise : nat → nat → R)
    (idx : nat) (centers : list loc) (angles : list R)
    (dds stds : option (list R)) (social_distance : bool) (n_samples : Z)
    (threshold_prob threshold_dist : R) (radii : list R) : M bool :=
  l ← lift (getitem centers idx);
  c ← read l;
  let xx := c.1 in
  let zz := c.2 in
  cs ← get_snapshot centers;
  indices ← lift (indices argsort xx zz cs threshold_dist);
  if bool_decide (n_samples < 2)%Z
  then lift (deterministic_loop idx cs angles radii social_distance indices)
  else
    dds ← lift (torch_tensor_view dds);
    stds ← lift (torch_tensor_view stds);
    laplace_d ← lift (torch_cat dds stds);
    let samples_d := laplace_sampling laplace_d noise in
    probabilistic_loop
      (λ idx_t, sample_formation idx idx_t centers angles dds samples_d
                                 radii social_distance)
      n_samples threshold_prob indices.

End Store.

(** * Drawing and scores (lines 211-348)

    What matplotlib receives is recorded: an axes object is the list of
    the artists added to it, in the order of the calls. *)

(** [Circle(xy, radius=, color=, fill=, alpha=, zorder=)] *)
Record Circle : Type := mkCircle {
  circle_xy : point;
  circle_radius : R;
  circle_color : string;
  circle_fill : bool;
  circle_alpha : R;
  circle_zorder : R
}.

(** [FancyArrow(x, y, dx, dy, head_width=, edgecolor=, facecolor=,
    linewidth=, zorder=)] *)
Record FancyArrow : Type := mkFancyArrow {
  arrow_x : R;
  arrow_y : R;
  arrow_dx : R;
  arrow_dy : R;
  arrow_head_width : R;
  arrow_edgecolor : string;
  arrow_facecolor : string;
  arrow_linewidth : R;
  arrow_zorder : R
}.

(** [ax.plot(x, z, fmt)] or [ax.plot(x, z, color=, linewidth=)] with two
    abscissas and two ordinates; [line_style] is the format string or
    the colour, [line_linewidth] is [None] when the call leaves it to
    matplotlib. *)
Record Line2D : Type := mkLine2D {
  line_x : R * R;
  line_z : R * R;
  line_style : string;
  line_linewidth : option R
}.

Inductive artist : Type :=
  | PatchCircle (c : Circle)
  | PatchArrow (a : FancyArrow)
  | Line (l : Line2D).

(** Python's builtin [max(a, b)]: the second argument wins only when it
    is strictly greater. *)
Definition py_max (a b : R) : R := if decide (a < b) then b else a.

(** ** draw_orientation (lines 290-337) *)

(** Lines 316-335: the circle and the arrow of person [idx]. *)
Definition orientation_patches (mode : string) (centers : list point)
    (radiuses : list R) (colors : list string) (idx : nat) (theta : R)
    : result (Circle * FancyArrow) :=
  let front := bool_decide (mode = "front") in
  let arrow_length := if front then 5 else 1.3 in
  let fill := if front then false else true in
  let alpha := if front then 0.6 else 1 in
  let zorder_circle := if front then 0.5 else 2 in
  let zorder_arrow := if front then 5 else 1 in
  let linewidth := if front then 1.5 else 2 in
  color ← getitem colors idx;
  radius ← getitem radiuses idx;
  c ← getitem centers idx;
  let x_arr := if front then c.1 + (arrow_length + radius) * cos theta
               else c.1 in
  let z_arr := if front
               then arrow_length + c.2 + (arrow_length + radius) * sin theta
               else c.2 in
  let delta_x := if front then cos theta else arrow_length * cos theta in
  let delta_z := if front then sin theta else - arrow_length * sin theta in
  let head_width := if front then py_max 10 (radius / 1.5) else 0.3 in
  let edgecolor := if front then "k" else color in
  Ok (mkCircle c radius color fill alpha zorder_circle,
      mkFancyArrow x_arr z_arr delta_x delta_z head_width edgecolor color
                   linewidth zorder_arrow).

(** Lines 315-337: [for idx, theta in enumerate(angles)], from [idx]
    on; the patches of the people before the one that raises are on the
    axes. *)
Fixpoint draw_orientation_loop (mode : string) (centers : list point)
    (radiuses : list R) (colors : list string) (idx : nat) (angles : list R)
    (ax : list artist) : result () * list artist :=
  match angles with
  | [] => (Ok (), ax)
  | theta :: rest =>
      match orientation_patches mode centers radiuses colors idx theta with
      | Ok (circle, arrow) =>
          draw_orientation_loop mode centers radiuses colors (S idx) rest
            (ax ++ [PatchCircle circle; PatchArrow arrow])
      | Raise e => (Raise e, ax)
      end
  end.

(** Every mode other than ["front"] takes the [else] branches. *)
Definition draw_orientation (ax : list artist) (centers : list point)
    (sizes : list R) (angles : list R) (colors : list string) (mode : string)
    : result () * list artist :=
  let radiuses := if bool_decide (mode = "front")
                  then (λ s, s / 1.2) <$> sizes
                  else replicate (length centers) 0.2 in
  draw_orientation_loop mode centers radiuses colors 0 angles ax.

(** ** draw_uncertainty (lines 340-348) *)

(** Lines 342-348 for person [idx]. *)
Definition uncertainty_line (centers : list point) (stds : list R) (idx : nat)
    : result Line2D :=
  std ← getitem stds idx;
  c ← getitem centers idx;
  let theta := atan2 c.2 c.1 in
  let delta_x := std * cos theta in
  let delta_z := std * sin theta in
  let x := (c.1 - delta_x, c.1 + delta_x) in
  let z := (c.2 - delta_z, c.2 + delta_z) in
  Ok (mkLine2D x z "g" (Some 2.5)).

Fixpoint draw_uncertainty_loop (centers : list point) (stds : list R)
    (idxs : list nat) (ax : list artist) : result () * list artist :=
  match idxs with
  | [] => (Ok (), ax)
  | idx :: rest =>
      match uncertainty_line centers stds idx with
      | Ok l => draw_uncertainty_loop centers stds rest (ax ++ [Line l])
      | Raise e => (Raise e, ax)
      end
  end.

Definition draw_uncertainty (ax : list artist) (centers : list point)
    (stds : list R) : result () * list artist :=
  draw_uncertainty_loop centers stds (seq 0 (length stds)) ax.

(** ** get_pifpaf_outputs (lines 259-272) *)

(** The exceptions of this part: those of [exn], numpy's [ValueError],
    a failed [assert], a local variable read before it is assigned, and
    whatever a collaborator that is not among the sources raises. *)
Inductive py_error : Set :=
  | Builtin (e : exn)
  | ValueError
  | AssertionError
  | UnboundLocalError
  | Foreign (name : string).

Inductive outcome (A : Type) : Type :=
  | Return (a : A)
  | Throw (e : py_error).
Arguments Return {A} a.
Arguments Throw {A} e.

#[global] Instance outcome_ret : MRet outcome := @Return.
#[global] Instance outcome_bind : MBind outcome := λ A B f m,
  match m with
  | Return a => f a
  | Throw e => Throw e
  end.

(** [np.array(rows)] of a list of lists of floats, as its flat data in
    row order: the rows must have one length (numpy 1.24 and later
    raise on ragged rows). *)
Definition np_array (rows : list (list R)) : outcome (list R) :=
  match rows with
  | [] => Return []
  | row :: _ =>
      if bool_decide (Forall (λ r, length r = length row) rows)
      then Return (concat rows)
      else Throw ValueError
  end.

(** The flat data cut into triples [(x, y, confidence)]. *)
Fixpoint triples (flat : list R) : list (R * R * R) :=
  match flat with
  | x :: y :: c :: rest => (x, y, c) :: triples rest
  | _ => []
  end.

(** [.reshape(-1, 17, 3)]: sets of 17 triples; the size must be a
    multiple of 51. *)
Definition reshape_17_3 (flat : list R) : outcome (list (list (R * R * R))) :=
  if decide (length flat `mod` 51 = 0)%nat
  then Return (reshape (replicate (length flat `div` 51) 17%nat) (triples flat))
  else Throw ValueError.

(** Lines 264-265: one row of [score_weights] before the division. *)
Definition score_weights_row : list R := <[3%nat := 3.0]> (replicate 17 1).

(** [np.sum] of a row. *)
Definition np_sum (row : list R) : R := foldr Rplus 0 row.

(** Lines 268-271 for one keypoint set: [row0] is [score_weights[0, :]]
    before the division, [kps_scores] the 17 confidences. *)
Definition keypoint_score (row0 : list R) (kps_scores : list R) : R :=
  let score_weights := (λ w, w / np_sum row0) <$> score_weights_row in
  let ordered_kps_scores := reverse (merge_sort Rle kps_scores) in
  np_sum (zip_with Rmult score_weights ordered_kps_scores).

(** An annotation is represented by its ['keypoints'] entry. *)
Definition get_pifpaf_outputs (annotations : list (list R))
    : outcome (list (list (R * R * R)) * list R) :=
  if bool_decide (annotations = []) then Return ([], [])
  else
    flat ← np_array annotations;
    keypoints_sets ← reshape_17_3 flat;
    row0 ← match keypoints_sets with
           | [] => Throw (Builtin IndexError)
           | _ :: _ => Return score_weights_row
           end;
    let kps_scores := (λ set, (λ kp, kp.2) <$> set) <$> keypoints_sets in
    Return (keypoints_sets, keypoint_score row0 <$> kps_scores).

(** ** bird_canvas (lines 275-287) and show_social (lines 211-256) *)

(** The figure that [fig.savefig] writes: its path, the limits set by
    [ax.set_ylim] and the artists on its axes. *)
Record figure : Type := mkFigure {
  fig_path : string;
  fig_ylim : R * R;
  fig_artists : list artist
}.

(** [with bird_canvas(args, output_path) as ax: body].  The generator has
    no [try]: when [body] raises, the exception leaves the [with] block
    and the lines after [yield] (the [savefig]) are not run. *)
Definition bird_canvas (z_max : R) (output_path : string)
    (body : list artist → outcome () * list artist)
    : outcome () * option figure :=
  let output_path := (output_path +:+ ".bird.png")%string in
  let x_max := z_max / 1.5 in
  let ax := [Line (mkLine2D (0, x_max) (0, z_max) "k--" None);
             Line (mkLine2D (0, - x_max) (0, z_max) "k--" None)] in
  let ylim := (0, z_max + 1) in
  match body ax with
  | (Return _, ax') => (Return (), Some (mkFigure output_path ylim ax'))
  | (Throw e, _) => (Throw e, None)
  end.

(** A [result] seen as an [outcome]. *)
Definition builtin {A} (r : result A) : outcome A :=
  match r with
  | Ok a => Return a
  | Raise e => Throw (Builtin e)
  end.

(** The entries of [dic_out] that [show_social] reads. *)
Record dic_out : Type := mkDicOut {
  dic_angles : list R;
  dic_dds_pred : list R;
  dic_stds_ale : list R;
  dic_xyz_pred : list (R * R * R);
  dic_uv_heads : list point;
  dic_uv_shoulders : list point
}.

(** The fields of [args] that [show_social] and [bird_canvas] read, but
    for [show], which only reaches [image_canvas]. *)
Record args : Type := mkArgs {
  args_output_types : list string;
  args_scale : R;
  args_threshold_prob : R;
  args_threshold_dist : R;
  args_radii : list R;
  args_z_max : R
}.

(** The collaborators of the front view, which are not among the
    sources.  What they do to the image is not modelled; that each of
    them may raise is. *)
Record collaborators : Type := mkCollaborators {
  (** lines 225-227 as a whole, for the image [image_t] and the scale
      [args.scale]: [image_t.shape], the divisions and [round],
      [permute], [F.interpolate] *)
  resize : R → outcome ();
  (** lines 243-250: [KeypointPainter(show_box=False)], entering
      [image_canvas(...)] and [keypoint_painter.keypoints(ax,
      keypoint_sets, colors=colors)]; the result is what is on the axes
      afterwards *)
  keypoints : list (list (R * R * R)) → list string → outcome (list artist);
  (** leaving [image_canvas] after a body that did not raise *)
  leave_canvas : list artist → outcome ()
}.

(** Line 219: [[[xx[0], xx[2]] for xx in dic_out['xyz_pred']]] *)
Definition xz_centers (xyz_pred : list (R * R * R)) : list point :=
  (λ xx, (xx.1.1, xx.2)) <$> xyz_pred.

(** Lines 230-236: the list comprehension over the indices [idxs]; the
    calls leave [social_distance] and [n_samples] at their defaults
    [False] and [100].  [noise idx] is the random source of the call
    for [idx]. *)
Fixpoint colors_loop (argsort : list pyfloat → list nat)
    (noise : nat → nat → nat → R) (xz_centers : list point)
    (angles dds stds : list R) (threshold_prob threshold_dist : R)
    (radii : list R) (idxs : list nat) : result (list string) :=
  match idxs with
  | [] => Ok []
  | idx :: rest =>
      b ← social_interactions argsort (noise idx) idx xz_centers angles
             (Some dds) (Some stds) false 100 threshold_prob threshold_dist
             radii;
      colors ← colors_loop argsort noise xz_centers angles dds stds
                 threshold_prob threshold_dist radii rest;
      Ok ((if b : bool then "r" else "deepskyblue") :: colors)
  end.

(** Lines 241-242: [sizes], from [idx] on. *)
Fixpoint sizes_loop (uv_heads : list point) (idx : nat)
    (uv_shoulders : list point) : result (list R) :=
  match uv_shoulders with
  | [] => Ok []
  | uv_s :: rest =>
      uv_h ← getitem uv_heads idx;
      sizes ← sizes_loop uv_heads (S idx) rest;
      Ok (Rabs (uv_h.2 - uv_s.2) / 1.5 :: sizes)
  end.

(** What [show_social] leaves behind: how it ends, the artists on the
    axes of the front view once [image_canvas] was entered and the
    keypoints were painted, and the bird view when it was saved. *)
Record shown : Type := mkShown {
  shown_status : outcome ();
  shown_front_axes : option (list artist);
  shown_bird_figure : option figure
}.

(** Lines 221-251.  The result is the binding of [colors] and the
    axes. *)
Definition show_social_front (ext : collaborators)
    (argsort : list pyfloat → list nat)
    (noise : nat → nat → nat → R) (a : args) (annotations : list (list R))
    (d : dic_out) : outcome (list string) * option (list artist) :=
  let xz_centers := xz_centers (dic_xyz_pred d) in
  match (if bool_decide (0.99 < args_scale a ∧ args_scale a < 1.01)
         then Return () else resize ext (args_scale a)) with
  | Throw e => (Throw e, None)
  | Return _ =>
  match colors_loop argsort noise xz_centers (dic_angles d) (dic_dds_pred d)
          (dic_stds_ale d) (args_threshold_prob a) (args_threshold_dist a)
          (args_radii a)
          (seq 0 (length (dic_xyz_pred d))) with
  | Raise e => (Throw (Builtin e), None)
  | Ok colors =>
      match get_pifpaf_outputs annotations with
      | Throw e => (Throw e, None)
      | Return (keypoint_sets, scores) =>
          let uv_centers := dic_uv_heads d in
          match sizes_loop (dic_uv_heads d) 0 (dic_uv_shoulders d) with
          | Raise e => (Throw (Builtin e), None)
          | Ok sizes =>
              match keypoints ext keypoint_sets colors with
              | Throw e => (Throw e, None)
              | Return ax =>
                  match draw_orientation ax uv_centers sizes (dic_angles d)
                          colors "front" with
                  | (Raise e, ax') => (Throw (Builtin e), Some ax')
                  | (Ok _, ax') =>
                      match leave_canvas ext ax' with
                      | Throw e => (Throw e, Some ax')
                      | Return _ => (Return colors, Some ax')
                      end
                  end
              end
          end
      end
  end
  end.

(** Lines 253-256.  [colors] is [None] when the local variable was never
    assigned. *)
Definition show_social_bird (a : args) (output_path : string) (d : dic_out)
    (colors : option (list string)) : outcome () * option figure :=
  let xz_centers := xz_centers (dic_xyz_pred d) in
  bird_canvas (args_z_max a) output_path (λ ax1,
    match colors with
    | None => (Throw UnboundLocalError, ax1)
    | Some colors =>
        match draw_orientation ax1 xz_centers [] (dic_angles d) colors
                "bird" with
        | (Raise e, ax1) => (Throw (Builtin e), ax1)
        | (Ok _, ax1) =>
            match draw_uncertainty ax1 xz_centers (dic_stds_ale d) with
            | (Raise e, ax1) => (Throw (Builtin e), ax1)
            | (Ok _, ax1) => (Return (), ax1)
            end
        end
    end).

Definition show_social (ext : collaborators)
    (argsort : list pyfloat → list nat)
    (noise : nat → nat → nat → R) (a : args) (output_path : string)
    (annotations : list (list R)) (d : dic_out) : shown :=
  if bool_decide ("front" ∈ args_output_types a ∨ "bird" ∈ args_output_types a)
  then
    let '(colors, front_axes) :=
      if bool_decide ("front" ∈ args_output_types a)
      then
        match show_social_front ext argsort noise a annotations d with
        | (Return colors, front_axes) => (Return (Some colors), front_axes)
        | (Throw e, front_axes) => (Throw e, front_axes)
        end
      else (Return None, None) in
    match colors with
    | Throw e => mkShown (Throw e) front_axes None
    | Return colors =>
        if bool_decide ("bird" ∈ args_output_types a)
        then
          let '(st, fig) := show_social_bird a output_path d colors in
          mkShown st front_axes fig
        else mkShown (Return ()) front_axes None
    end
  else mkShown (Throw AssertionError) None None.

(** * The specification's words and the invariants of the proofs *)

(** ** The F-formation test in the words of the specification (4.2) *)

(** Step 2: [mu = x + r * (cos theta, - sin theta)]. *)
Definition mu (x : point) (r theta : R) : point :=
  vadd x (r * cos theta, r * - sin theta).

(** Step 3: the O-space center [o_c = (mu_0 + mu_1) / 2]. *)
Definition o_space (x_0 x_1 : point) (theta0 theta1 r : R) : point :=
  vdiv (vadd (mu x_0 r theta0) (mu x_1 r theta1)) 2.

(** Steps 4 and 5: [d_new <= min(d_0, d_1)], with [d_new] halved when
    [social_distance] is set. *)
Definition orientation_condition (x_0 x_1 : point) (theta0 theta1 : R)
    (social_distance : bool) (r : R) : Prop :=
  let mu_0 := mu x_0 r theta0 in
  let mu_1 := mu x_1 r theta1 in
  let o_c := o_space x_0 x_1 theta0 theta1 r in
  let d_new := if social_distance
               then norm (vsub mu_0 mu_1) / 2
               else norm (vsub mu_0 mu_1) in
  d_new <= Rmin (norm (vsub x_0 o_c)) (norm (vsub x_1 o_c)).

(** Step 6: no third person's center lies within distance [r] of
    [o_c]; with no third person the condition holds. *)
Definition intrusion_condition (idx idx_t : nat) (centers : list point)
    (o_c : point) (r : R) : Prop :=
  ∀ l c, centers !! l = Some c → l ≠ idx → l ≠ idx_t → r < norm (vsub c o_c).

(** The planar Euclidean distance of 4.1. *)
Definition planar_distance (a b : point) : R :=
  sqrt ((a.1 - b.1) ^ 2 + (a.2 - b.2) ^ 2).

(** ** What the proofs speak of *)

(** What lines 104-111 test for the radius [r]: every third party is
    farther than [r] from [o_c], and when there is no third party the
    radius is below the sentinel distance 100. *)
Definition no_intrusion (idx idx_t : nat) (centers : list point)
    (o_c : point) (r : R) : Prop :=
  intrusion_condition idx idx_t centers o_c r
  ∧ ((∀ l, (l < length centers)%nat → l = idx ∨ l = idx_t) → r < 100).

(** The order that [np.argsort] produces. *)
Definition ascending (a : list pyfloat) : list nat → Prop :=
  StronglySorted (λ i j, float_le (a !!! i) (a !!! j)).

(** What numpy promises of [np.argsort]: the positions of the array,
    each once, in ascending order of the values. *)
Definition sorts (argsort : list pyfloat → list nat) : Prop :=
  ∀ a, argsort a ≡ₚ seq 0 (length a) ∧ ascending a (argsort a).

(** Scenes in which line 34 stays within the floats: differences of
    coordinates of magnitude at most [2^510] have squares whose sum is
    at most [2^1023]. *)
Definition bounded (centers : list point) : Prop :=
  Forall (λ c, Rabs c.1 <= 2 ^ 510 ∧ Rabs c.2 <= 2 ^ 510) centers.

(** The exception of a result, if any. *)
Definition raised {A} (r : result A) : option exn :=
  match r with
  | Ok _ => None
  | Raise e => Some e
  end.

(** The center of person [el] after the shift of lines 62-67. *)
Definition shifted (delta_d : R) (c : point) : point :=
  let theta := atan2 c.2 c.1 in
  (c.1 + delta_d * cos theta, c.2 + delta_d * sin theta).

(** What the memo of [deepcopy] records while the rows of the heap [h0]
    are copied: the copy of a row is a new row with the same content. *)
Definition memo_ok (h0 h : gmap nat point) (memo : gmap nat nat) : Prop :=
  ∀ l l', memo !! l = Some l' → (l' ∉ dom h0) ∧ h !! l' = Some (h0 !!! l).

(** From every heap that extends [h0], the computation [m] leaves the
    rows of [h0] as they are and, when [P] holds, returns [v]. *)
Definition simulates {A} (h0 : gmap nat point) (P : Prop) (m : Store.M A)
    (v : result A) : Prop :=
  ∀ h, h0 ⊆ h → h0 ⊆ (m h).2 ∧ (P → (m h).1 = v).

(** * Properties *)

(** ** The result monad and list indexing *)

Lemma getitem_Some {A} (l : list A) (i : nat) (a : A) :
  l !! i = Some a → getitem l i = Ok a.
Proof. intros H. unfold getitem. by rewrite H. Qed.

Lemma getitem_Ok {A} (l : list A) (i : nat) (a : A) :
  getitem l i = Ok a → l !! i = Some a.
Proof. unfold getitem. destruct (l !! i); naive_solver. Qed.

Lemma getitem_lt {A} (l : list A) (i : nat) :
  (i < length l)%nat → ∃ a, l !! i = Some a ∧ getitem l i = Ok a.
Proof.
  intros [a Ha]%lookup_lt_is_Some_2. exists a. split; [done|].
  by apply getitem_Some.
Qed.

(** ** Minima *)

Lemma py_min_Rmin (a b : R) : py_min a b = Rmin a b.
Proof.
  unfold py_min, Rmin. destruct (decide (b < a)), (Rle_dec a b); lra.
Qed.

Lemma foldl_Rmin_lt (r x : R) (t : list R) :
  r < foldl Rmin x t ↔ r < x ∧ Forall (λ d, r < d) t.
Proof.
  revert x. induction t as [|y t IH]; intros x; simpl.
  - split; [intros ?; split; [done|constructor] | by intros [? _]].
  - rewrite IH, Forall_cons. unfold Rmin.
    destruct (Rle_dec x y); intuition lra.
Qed.

Lemma np_min_lt (r : R) (a : list R) :
  a ≠ [] → r < np_min a ↔ Forall (λ d, r < d) a.
Proof.
  destruct a as [|x t]; [done|]. intros _. simpl.
  by rewrite foldl_Rmin_lt, Forall_cons.
Qed.

(** ** Third parties *)

Lemma enumerate_lookup {A} (l : list A) (k i : nat) (a : A) :
  enumerate l !! k = Some (i, a) ↔ i = k ∧ l !! k = Some a.
Proof.
  unfold enumerate. rewrite lookup_zip_with_Some. split.
  - intros (i' & a' & [= -> ->] & Hs & Ha).
    apply lookup_seq in Hs as [-> _]. done.
  - intros [-> Ha]. exists k, a. split_and!; [done| |done].
    apply lookup_seq. split; [done|]. by eapply lookup_lt_Some.
Qed.

Lemma elem_of_enumerate {A} (l : list A) (i : nat) (a : A) :
  (i, a) ∈ enumerate l ↔ l !! i = Some a.
Proof.
  rewrite list_elem_of_lookup. split.
  - intros [k Hk]. by apply enumerate_lookup in Hk as [-> ?].
  - intros Ha. exists i. by apply enumerate_lookup.
Qed.

Lemma elem_of_other_centers (idx idx_t : nat) (centers : list point) (c : point) :
  c ∈ other_centers idx idx_t centers ↔
  ∃ l, centers !! l = Some c ∧ l ≠ idx ∧ l ≠ idx_t.
Proof.
  unfold other_centers. rewrite list_elem_of_fmap. split.
  - intros ([l c'] & -> & [Hl Hin]%list_elem_of_filter). simpl in *.
    apply elem_of_enumerate in Hin. exists l.
    rewrite !not_elem_of_cons in Hl. destruct Hl as (? & ? & _). done.
  - intros (l & Hc & H1 & H2). exists (l, c). split; [done|].
    apply list_elem_of_filter. split; [|by apply elem_of_enumerate].
    simpl. rewrite !not_elem_of_cons. split_and!; [done..|].
    apply not_elem_of_nil.
Qed.

Lemma other_centers_nil (idx idx_t : nat) (centers : list point) :
  other_centers idx idx_t centers = [] ↔
  ∀ l, (l < length centers)%nat → l = idx ∨ l = idx_t.
Proof.
  split.
  - intros Hnil l [c Hc]%lookup_lt_is_Some_2.
    destruct (decide (l = idx)) as [|H1]; [by left|].
    destruct (decide (l = idx_t)) as [|H2]; [by right|].
    assert (c ∈ other_centers idx idx_t centers) as Hin
      by (apply elem_of_other_centers; eauto).
    rewrite Hnil in Hin. by apply not_elem_of_nil in Hin.
  - intros Hall. destruct (other_centers idx idx_t centers) as [|c t] eqn:E; [done|].
    assert (c ∈ other_centers idx idx_t centers) as Hin
      by (rewrite E; left).
    apply elem_of_other_centers in Hin as (l & Hc & H1 & H2).
    apply lookup_lt_Some in Hc. destruct (Hall l Hc); done.
Qed.

(** ** The test of one radius *)

Lemma mu_code (x : point) (r theta : R) :
  (x.1 + r * cos theta, x.2 - r * sin theta) = mu x r theta.
Proof. unfold mu, vadd. simpl. f_equal; lra. Qed.

Lemma intrusion_test (idx idx_t : nat) (centers : list point) (o_c : point) (r : R) :
  r < np_min (other_distances (other_centers idx idx_t centers) o_c)
  ↔ no_intrusion idx idx_t centers o_c r.
Proof.
  unfold other_distances, no_intrusion, intrusion_condition.
  case_bool_decide as Hnil.
  - simpl. pose proof (proj1 (other_centers_nil _ _ _) Hnil) as Hno. split.
    + intros Hr. split; [|intros _; lra].
      intros l c Hc H1 H2. apply lookup_lt_Some in Hc.
      destruct (Hno l Hc); done.
    + intros [_ Hr]. specialize (Hr Hno). lra.
  - rewrite np_min_lt by (intros ?%fmap_nil_inv; done).
    rewrite Forall_fmap, Forall_forall. split.
    + intros Hall. split.
      * intros l c Hc H1 H2. apply (Hall c).
        apply elem_of_other_centers. eauto.
      * intros Hno. by apply other_centers_nil in Hno.
    + intros [Hall _] c (l & Hc & H1 & H2)%elem_of_other_centers.
      simpl. eauto.
Qed.

Lemma radius_test_spec (idx idx_t : nat) (centers : list point)
    (x_0 x_1 : point) (theta0 theta1 : R) (social_distance : bool) (r : R) :
  radius_test x_0 x_1 theta0 theta1 (other_centers idx idx_t centers)
              social_distance r = true
  ↔ orientation_condition x_0 x_1 theta0 theta1 social_distance r
    ∧ no_intrusion idx idx_t centers (o_space x_0 x_1 theta0 theta1 r) r.
Proof.
  unfold radius_test, orientation_condition, o_space.
  rewrite !mu_code, py_min_Rmin, andb_true_iff, !bool_decide_eq_true.
  by rewrite intrusion_test.
Qed.

(** ** The radius loop is an existential search *)

Lemma radii_loop_Ok (idx idx_t : nat) (centers : list point) (x_0 x_1 : point)
    (theta0 theta1 : R) (others : list point) (sd : bool) (radii : list R) :
  centers !! idx = Some x_0 → centers !! idx_t = Some x_1 →
  radii_loop idx idx_t centers theta0 theta1 others sd radii
  = Ok (existsb (radius_test x_0 x_1 theta0 theta1 others sd) radii).
Proof.
  intros H0 H1. induction radii as [|r rest IH]; simpl; [done|].
  rewrite (getitem_Some _ _ _ H0), (getitem_Some _ _ _ H1). simpl.
  destruct (radius_test _ _ _ _ _ _ r); simpl; [done|]. apply IH.
Qed.

Lemma check_f_formations_Ok (idx idx_t : nat) (centers : list point)
    (angles radii : list R) (sd : bool) (x_0 x_1 : point) (theta0 theta1 : R) :
  centers !! idx = Some x_0 → centers !! idx_t = Some x_1 →
  angles !! idx = Some theta0 → angles !! idx_t = Some theta1 →
  check_f_formations idx idx_t centers angles radii sd
  = Ok (existsb (radius_test x_0 x_1 theta0 theta1
                   (other_centers idx idx_t centers) sd) radii).
Proof.
  intros H0 H1 Ha0 Ha1. unfold check_f_formations.
  rewrite (getitem_Some _ _ _ Ha0), (getitem_Some _ _ _ Ha1). simpl.
  by apply radii_loop_Ok.
Qed.

(** For valid indices [check_f_formations] returns a boolean, and it
    returns true exactly when some radius of [radii] passes the test of
    line 111. *)
Lemma check_f_formations_true_iff (idx idx_t : nat)
    (centers : list point) (angles radii : list R) (social_distance : bool)
    (x_0 x_1 : point) (theta0 theta1 : R) :
  centers !! idx = Some x_0 → centers !! idx_t = Some x_1 →
  angles !! idx = Some theta0 → angles !! idx_t = Some theta1 →
  (∃ b, check_f_formations idx idx_t centers angles radii social_distance = Ok b)
  ∧ (check_f_formations idx idx_t centers angles radii social_distance = Ok true
     ↔ ∃ r, r ∈ radii
          ∧ orientation_condition x_0 x_1 theta0 theta1 social_distance r
          ∧ no_intrusion idx idx_t centers
              (o_space x_0 x_1 theta0 theta1 r) r).
Proof.
  intros H0 H1 Ha0 Ha1.
  rewrite (check_f_formations_Ok _ _ _ _ _ _ _ _ _ _ H0 H1 Ha0 Ha1).
  split; [by eexists|]. split.
  - intros [= (r & Hin & Hr)%existsb_exists].
    exists r. split; [by apply list_elem_of_In|]. by apply radius_test_spec.
  - intros (r & Hin & Hr). f_equal. apply existsb_exists.
    exists r. split; [by apply list_elem_of_In|]. by apply radius_test_spec.
Qed.

(** ** Evaluating norms and comparisons on concrete inputs *)

Lemma norm_eq (v : point) (d : R) :
  0 <= d → v.1 * v.1 + v.2 * v.2 = d * d → norm v = d.
Proof. intros Hd Hv. unfold norm. rewrite Hv. by apply sqrt_square. Qed.

Lemma norm_nonneg (v : point) : 0 <= norm v.
Proof. apply sqrt_pos. Qed.

Lemma sqrt_sq_eq (a d : R) : 0 <= d → a = d * d → sqrt a = d.
Proof. intros Hd ->. by apply sqrt_square. Qed.

(** [norm_is d] proves a goal [norm v = d] on concrete coordinates. *)
Ltac norm_is :=
  apply norm_eq; unfold mu, o_space, vdiv, vadd, vsub; simpl;
  rewrite ?cos_0, ?sin_0, ?cos_PI, ?sin_PI; lra.

Lemma norm_axis (a b : R) : b = 0 → norm (a, b) = Rabs a.
Proof.
  intros ->. unfold norm. simpl.
  replace (a * a + 0 * 0) with (Rsqr a) by (unfold Rsqr; lra).
  apply sqrt_Rsqr_abs.
Qed.

(** Two people at [(0, 0)] and [(1, 0)], both facing along the x axis:
    the orientation condition holds for every radius of absolute value
    at least 1.5. *)
Lemma orientation_side_by_side (r : R) :
  1 <= Rabs r - 1 / 2 →
  orientation_condition (0, 0) (1, 0) 0 0 false r.
Proof.
  intros Hr. unfold orientation_condition.
  replace (norm (vsub (mu (0, 0) r 0) (mu (1, 0) r 0))) with 1
    by (symmetry; norm_is).
  unfold o_space, mu, vdiv, vadd, vsub. simpl. rewrite cos_0, sin_0.
  rewrite !norm_axis by lra.
  apply Rmin_glb.
  - replace (0 - (0 + r * 1 + (1 + r * 1)) / 2) with (- (r + 1 / 2)) by lra.
    rewrite Rabs_Ropp. revert Hr. unfold Rabs.
    repeat destruct (Rcase_abs _); lra.
  - replace (1 - (0 + r * 1 + (1 + r * 1)) / 2) with (- (r - 1 / 2)) by lra.
    rewrite Rabs_Ropp. revert Hr. unfold Rabs.
    repeat destruct (Rcase_abs _); lra.
Qed.

Lemma Rabs_side (r : R) : 3 / 2 <= r → 1 <= Rabs r - 1 / 2.
Proof. intros Hr. rewrite Rabs_pos_eq; lra. Qed.

(** ** The sentinel distance (no third party) *)

(** With nobody else in the scene the intrusion condition holds for
    every radius below the sentinel distance 100. *)
Lemma no_third_party_below_sentinel (idx idx_t : nat) (centers : list point)
    (angles radii : list R) (social_distance : bool)
    (x_0 x_1 : point) (theta0 theta1 r : R) :
  centers !! idx = Some x_0 → centers !! idx_t = Some x_1 →
  angles !! idx = Some theta0 → angles !! idx_t = Some theta1 →
  (∀ l, (l < length centers)%nat → l = idx ∨ l = idx_t) →
  r ∈ radii → r < 100 →
  orientation_condition x_0 x_1 theta0 theta1 social_distance r →
  check_f_formations idx idx_t centers angles radii social_distance = Ok true.
Proof.
  intros H0 H1 Ha0 Ha1 Hno Hin Hr Hor.
  rewrite (check_f_formations_Ok _ _ _ _ _ _ _ _ _ _ H0 H1 Ha0 Ha1).
  f_equal. apply existsb_exists. exists r. split; [by apply list_elem_of_In|].
  apply radius_test_spec. split; [done|]. split; [|done].
  intros l c Hc Hl1 Hl2. apply lookup_lt_Some in Hc.
  destruct (Hno l Hc); done.
Qed.

(** C2: two people alone, side by side, both facing along the x axis,
    and the single radius 100.  The orientation condition holds at that
    radius ([d_new = 1], [d_0 = 100.5], [d_1 = 99.5]), yet the sentinel
    distance [100] is not greater than the radius and the result is
    false. *)
Theorem sentinel_blocks_radius_100 :
  let centers := [(0, 0); (1, 0)] in
  let angles := [0; 0] in
  length centers = 2%nat
  ∧ 0 < 100
  ∧ orientation_condition (0, 0) (1, 0) 0 0 false 100
  ∧ check_f_formations 0 1 centers angles [100] false = Ok false.
Proof.
  simpl. split_and!; [done|lra| |].
  - apply orientation_side_by_side, Rabs_side. lra.
  - rewrite (check_f_formations_Ok 0 1 _ _ _ _ (0, 0) (1, 0) 0 0) by done.
    f_equal. simpl. rewrite orb_false_r.
    apply not_true_is_false. intros [_ [_ Hs]]%radius_test_spec.
    assert (100 < 100); [|lra]. apply Hs. simpl. lia.
Qed.

(** C1: two people alone, side by side, both facing along the x axis,
    and the single radius 100, with valid indices and non-empty radii.
    The right-hand side of the claim holds: the radius 100 is in [radii],
    the orientation condition holds at it and so does the intrusion
    condition of step 6, there being no third person.  Yet
    [check_f_formations] returns false, because the sentinel distance
    of line 107 is not greater than the radius. *)
Theorem exists_radius_blocked_by_sentinel :
  let centers := [(0, 0); (1, 0)] in
  let angles := [0; 0] in
  centers !! 0%nat = Some (0, 0) ∧ centers !! 1%nat = Some (1, 0)
  ∧ angles !! 0%nat = Some 0 ∧ angles !! 1%nat = Some 0
  ∧ (∃ r, r ∈ [100]
        ∧ orientation_condition (0, 0) (1, 0) 0 0 false r
        ∧ intrusion_condition 0 1 centers (o_space (0, 0) (1, 0) 0 0 r) r)
  ∧ check_f_formations 0 1 centers angles [100] false = Ok false.
Proof.
  cbv zeta. split_and!; [done..| |].
  - exists 100. split_and!.
    + left.
    + apply orientation_side_by_side, Rabs_side. lra.
    + intros [|[|l]] c Hc Hl1 Hl2; done.
  - rewrite (check_f_formations_Ok 0 1 _ _ _ _ (0, 0) (1, 0) 0 0) by done.
    f_equal. simpl. rewrite orb_false_r.
    apply not_true_is_false. intros [_ [_ Hs]]%radius_test_spec.
    assert (100 < 100); [|lra]. apply Hs. simpl. lia.
Qed.

(** ** Adding radii *)

(** C6: when [check_f_formations] returns true on the radii [R], it
    returns true on every sequence that contains every element of [R]. *)
Theorem check_f_formations_radii_superset (idx idx_t : nat)
    (centers : list point) (angles : list R) (social_distance : bool)
    (radii radii' : list R) :
  check_f_formations idx idx_t centers angles radii social_distance = Ok true →
  radii ⊆ radii' →
  check_f_formations idx idx_t centers angles radii' social_distance = Ok true.
Proof.
  unfold check_f_formations. intros Hc Hsub.
  destruct (getitem angles idx) as [theta0|]; [simpl in *|done].
  destruct (getitem angles idx_t) as [theta1|]; [simpl in *|done].
  destruct radii as [|r0 rest]; [done|].
  assert (∃ x_0 x_1, centers !! idx = Some x_0 ∧ centers !! idx_t = Some x_1)
    as (x_0 & x_1 & H0 & H1).
  { simpl in Hc. unfold getitem in Hc.
    destruct (centers !! idx); [simpl in Hc|done].
    destruct (centers !! idx_t); [eauto|done]. }
  rewrite (radii_loop_Ok _ _ _ _ _ _ _ _ _ _ H0 H1) in Hc.
  rewrite (radii_loop_Ok _ _ _ _ _ _ _ _ _ _ H0 H1).
  injection Hc as Hc.
  apply (existsb_exists _ (r0 :: rest)) in Hc as (r & Hin & Hr).
  f_equal. apply existsb_exists. exists r. split; [|done].
  apply list_elem_of_In, Hsub. by apply list_elem_of_In.
Qed.

Lemma check_f_formations_radii_superset_witness :
  check_f_formations 0 1 [(0, 0); (1, 0)] [0; 0] [7; 2; 9] false = Ok true.
Proof.
  apply (check_f_formations_radii_superset 0 1 [(0, 0); (1, 0)] [0; 0] false
           [2] [7; 2; 9]).
  - apply (no_third_party_below_sentinel 0 1 _ _ _ _ (0, 0) (1, 0) 0 0 2);
      [done..| simpl; lia | by left | lra |].
    apply orientation_side_by_side, Rabs_side. lra.
  - intros r ->%list_elem_of_singleton. right. left.
Defined.

(** ** The intrusion boundary *)



(** ** Two scenarios of the specification (8) *)

(** Two people 1 m apart who face each other, radius 0.5, nobody else. *)
Example facing_each_other :
  check_f_formations 0 1 [(0, 0); (1, 0)] [0; PI] [1 / 2] false = Ok true.
Proof.
  apply (no_third_party_below_sentinel 0 1 _ _ _ _ (0, 0) (1, 0) 0 PI (1 / 2));
    [done..| simpl; lia | by left | lra |].
  unfold orientation_condition.
  replace (norm (vsub (mu (0, 0) (1 / 2) 0) (mu (1, 0) (1 / 2) PI))) with 0
    by (symmetry; norm_is).
  apply Rmin_glb; apply norm_nonneg.
Qed.

(** The same two people with a third person at the midpoint. *)
Example third_person_at_midpoint :
  check_f_formations 0 1 [(0, 0); (1, 0); (1 / 2, 0)] [0; PI; 0] [1 / 2] false
  = Ok false.
Proof.
  rewrite (check_f_formations_Ok 0 1 _ _ _ _ (0, 0) (1, 0) 0 PI) by done.
  f_equal. simpl. rewrite orb_false_r.
  apply not_true_is_false. intros [_ [Hall _]]%radius_test_spec.
  specialize (Hall 2%nat (1 / 2, 0) eq_refl).
  replace (norm (vsub (1 / 2, 0) (o_space (0, 0) (1, 0) 0 PI (1 / 2)))) with 0
    in Hall by (symmetry; norm_is).
  assert (1 / 2 < 0); [by apply Hall|lra].
Qed.

(** ** The floats of line 34 *)

Lemma float_le_refl (a : pyfloat) : float_le a a.
Proof. destruct a; simpl; [lra|done]. Qed.

Lemma float_le_trans (a b c : pyfloat) :
  float_le a b → float_le b c → float_le a c.
Proof. destruct a, b, c; simpl; try done. lra. Qed.

Lemma float_le_total (a b : pyfloat) : float_le a b ∨ float_le b a.
Proof. destruct a, b; simpl; try tauto. lra. Qed.

Lemma float_overflow_lower : 15 * (2 ^ 510 * 2 ^ 510) <= float_overflow.
Proof.
  unfold float_overflow.
  change (2 ^ 1024) with (2 ^ (510 + 510 + 4)).
  change (2 ^ 970) with (2 ^ (510 + 460)).
  rewrite !pow_add.
  assert (0 < 2 ^ 510) as Hp by (apply pow_lt; lra).
  assert (0 < 2 ^ 460) as Hq by (apply pow_lt; lra).
  assert (2 ^ 460 <= 2 ^ 510) as Hqp by (apply Rle_pow; [lra|lia]).
  replace (2 ^ 4) with 16 by (cbn; lra).
  generalize dependent (2 ^ 510). generalize dependent (2 ^ 460).
  intros q Hq p Hp Hqp. nra.
Qed.

Lemma pow_510_large : 1024 <= 2 ^ 510.
Proof.
  replace 1024 with (2 ^ 10) by (cbn; lra). apply Rle_pow; [lra|lia].
Qed.

Lemma float_overflow_pos : 0 < float_overflow.
Proof.
  pose proof float_overflow_lower. pose proof pow_510_large.
  generalize dependent (2 ^ 510). intros p. nra.
Qed.

Lemma float_overflow_upper : float_overflow < 2 ^ 1024.
Proof.
  unfold float_overflow. assert (0 < 2 ^ 970) by (apply pow_lt; lra). lra.
Qed.

(** The float [1e200] is within the floats, its square is not. *)
Lemma square_of_1e200 :
  10 ^ 200 < float_overflow ∧ float_overflow <= 10 ^ 200 * 10 ^ 200.
Proof.
  pose proof float_overflow_lower as Hlow.
  pose proof float_overflow_upper as Hup.
  assert (0 < 2 ^ 510) as Hp by (apply pow_lt; lra).
  assert (1 <= 2 ^ 510) as Hp1 by (apply pow_R1_Rle; lra).
  split.
  - assert (10 ^ 200 <= 2 ^ 510 * 2 ^ 510); [|nra].
    rewrite <- pow_add.
    apply Rle_trans with (16 ^ 200); [apply pow_incr; lra|].
    replace 16 with (2 ^ 4) by (cbn; lra). rewrite <- pow_mult.
    apply Rle_pow; [lra|lia].
  - assert (2 ^ 1024 <= 10 ^ 200 * 10 ^ 200); [|lra].
    rewrite <- pow_add.
    apply Rle_trans with (8 ^ (200 + 200)); [|apply pow_incr; lra].
    replace 8 with (2 ^ 3) by (cbn; lra). rewrite <- pow_mult.
    apply Rle_pow; [lra|lia].
Qed.

#[global] Opaque float_overflow.

Lemma Rabs_le_inv (x y : R) : Rabs x <= y → - y <= x <= y.
Proof. unfold Rabs. destruct (Rcase_abs x); lra. Qed.

Lemma sq_diff_cases (a b : R) (s : pyfloat) :
  sq_diff a b = Ok s → s = Inf ∨ s = Finite ((a - b) ^ 2).
Proof.
  unfold sq_diff. repeat case_bool_decide; naive_solver.
Qed.

Lemma sq_diff_raised (a b : R) (e : exn) :
  sq_diff a b = Raise e → e = OverflowError.
Proof.
  unfold sq_diff. repeat case_bool_decide; naive_solver.
Qed.

Lemma sq_diff_self (a : R) : sq_diff a a = Ok (Finite 0).
Proof.
  pose proof float_overflow_pos. unfold sq_diff.
  replace (a - a) with 0 by lra. rewrite Rabs_R0.
  rewrite !bool_decide_eq_false_2 by lra. f_equal. f_equal. lra.
Qed.


(** Within the bound nothing overflows. *)
Lemma sq_diff_bounded (a b : R) :
  Rabs a <= 2 ^ 510 → Rabs b <= 2 ^ 510 →
  sq_diff a b = Ok (Finite ((a - b) ^ 2))
  ∧ (a - b) ^ 2 <= 4 * (2 ^ 510 * 2 ^ 510).
Proof.
  intros Ha%Rabs_le_inv Hb%Rabs_le_inv.
  pose proof float_overflow_lower. pose proof pow_510_large.
  generalize dependent (2 ^ 510). intros p Ha Hb HF Hp.
  assert ((a - b) ^ 2 <= 4 * (p * p)) as Hsq by nra.
  split; [|done]. unfold sq_diff.
  rewrite bool_decide_eq_false_2.
  - rewrite bool_decide_eq_false_2; [done|]. nra.
  - assert (Rabs (a - b) <= 2 * p) by (apply Rabs_le; lra). nra.
Qed.

Lemma sqrt_sum_bounded (s t p : R) :
  s <= 4 * (p * p) → t <= 4 * (p * p) → 15 * (p * p) <= float_overflow →
  0 < p →
  sqrt_sum (Finite s) (Finite t) = Finite (sqrt (s + t)).
Proof.
  intros Hs Ht HF Hp. simpl. rewrite bool_decide_eq_false_2; [done|]. nra.
Qed.

(** ** The planar distance *)

Lemma planar_distance_nonneg (a b : point) : 0 <= planar_distance a b.
Proof. apply sqrt_pos. Qed.

Lemma planar_distance_self (a : point) : planar_distance a a = 0.
Proof.
  unfold planar_distance.
  replace ((a.1 - a.1) ^ 2 + (a.2 - a.2) ^ 2) with 0 by lra.
  apply sqrt_0.
Qed.

Lemma planar_distance_sym (a b : point) :
  planar_distance a b = planar_distance b a.
Proof. unfold planar_distance. f_equal. lra. Qed.



(** ** The distances of line 34 *)

Lemma sqrt_sum_cases (xx zz : R) (c : point) (s t : pyfloat) :
  sq_diff xx c.1 = Ok s → sq_diff zz c.2 = Ok t →
  sqrt_sum s t = Inf ∨ sqrt_sum s t = Finite (planar_distance (xx, zz) c).
Proof.
  intros [->| ->]%sq_diff_cases [->| ->]%sq_diff_cases; simpl; auto.
  case_bool_decide; auto.
Qed.

(** Every distance is [inf] or the planar distance. *)
Lemma distances_Ok (xx zz : R) (centers : list point) :
  ∀ ds, distances xx zz centers = Ok ds →
  Forall2 (λ c d, d = Inf ∨ d = Finite (planar_distance (xx, zz) c)) centers ds.
Proof.
  induction centers as [|c centers IH]; intros ds; simpl.
  - intros [= <-]. constructor.
  - destruct (sq_diff xx c.1) as [s|] eqn:Es; [simpl|done].
    destruct (sq_diff zz c.2) as [t|] eqn:Et; [simpl|done].
    destruct (distances xx zz centers) as [ds'|]; [simpl|done].
    intros [= <-]. constructor; [|by apply IH].
    by apply sqrt_sum_cases.
Qed.

Lemma distances_raised (xx zz : R) (centers : list point) (e : exn) :
  distances xx zz centers = Raise e → e = OverflowError.
Proof.
  induction centers as [|c centers IH]; simpl; [done|].
  destruct (sq_diff xx c.1) as [s|] eqn:Es; simpl;
    [|intros [= <-]; by eapply sq_diff_raised].
  destruct (sq_diff zz c.2) as [t|] eqn:Et; simpl;
    [|intros [= <-]; by eapply sq_diff_raised].
  destruct (distances xx zz centers) as [ds'|]; simpl; [done|].
  intros [= <-]. by apply IH.
Qed.

(** A person [1e200] away: line 34 raises, whatever else is asked. *)
Example far_person_overflows (argsort : list pyfloat → list nat)
    (noise : nat → nat → R) (angles : list R) (dds stds : option (list R))
    (social_distance : bool) (n_samples : Z)
    (threshold_prob threshold_dist : R) (radii : list R) :
  social_interactions argsort noise 0 [(0, 0); (10 ^ 200, 0)] angles dds stds
    social_distance n_samples threshold_prob threshold_dist radii
  = Raise OverflowError.
Proof.
  destruct square_of_1e200 as [Hlt Hge].
  assert (0 < 10 ^ 200) as Hpos by (apply pow_lt; lra).
  unfold social_interactions, indices. cbn [getitem lookup list_lookup].
  cbn [mbind result_bind fst snd distances].
  rewrite !sq_diff_self. cbn [mbind result_bind].
  unfold sq_diff at 1.
  replace (Rabs (0 - 10 ^ 200)) with (10 ^ 200)
    by (rewrite Rabs_left; lra).
  replace ((0 - 10 ^ 200) ^ 2) with (10 ^ 200 * 10 ^ 200) by lra.
  rewrite (bool_decide_eq_false_2 (float_overflow <= 10 ^ 200)) by lra.
  by rewrite (bool_decide_eq_true_2 (float_overflow <= 10 ^ 200 * 10 ^ 200))
    by lra.
Qed.

Lemma length_distances (xx zz : R) (centers : list point) (ds : list pyfloat) :
  distances xx zz centers = Ok ds → length ds = length centers.
Proof. intros H%distances_Ok. symmetry. by eapply Forall2_length. Qed.

Lemma distances_lookup (xx zz : R) (centers : list point) (ds : list pyfloat)
    (i : nat) (c : point) :
  distances xx zz centers = Ok ds → centers !! i = Some c →
  ds !!! i = Inf ∨ ds !!! i = Finite (planar_distance (xx, zz) c).
Proof.
  intros H%distances_Ok Hc.
  destruct (Forall2_lookup_l _ _ _ _ _ H Hc) as (d & Hd & Hcase).
  by rewrite (list_lookup_total_correct _ _ _ Hd).
Qed.




(** In a bounded scene every distance is the planar distance. *)
Lemma distances_bounded (xx zz : R) (centers : list point) :
  Rabs xx <= 2 ^ 510 → Rabs zz <= 2 ^ 510 → bounded centers →
  distances xx zz centers
  = Ok ((λ c, Finite (planar_distance (xx, zz) c)) <$> centers).
Proof.
  intros Hx Hz. induction 1 as [|c centers [Hc1 Hc2] _ IH]; simpl; [done|].
  destruct (sq_diff_bounded xx c.1 Hx Hc1) as [-> Hs].
  destruct (sq_diff_bounded zz c.2 Hz Hc2) as [-> Ht].
  rewrite IH. cbn [mbind result_bind mret result_ret].
  rewrite (sqrt_sum_bounded _ _ (2 ^ 510) Hs Ht float_overflow_lower)
    by (apply pow_lt; lra).
  done.
Qed.

Lemma bounded_lookup (centers : list point) (i : nat) (c : point) :
  bounded centers → centers !! i = Some c →
  Rabs c.1 <= 2 ^ 510 ∧ Rabs c.2 <= 2 ^ 510.
Proof. intros Hb Hc. by apply (Forall_lookup_1 _ _ _ _ Hb Hc). Qed.

Lemma distances_bounded_focal (centers : list point) (idx : nat) (c : point) :
  bounded centers → centers !! idx = Some c →
  distances c.1 c.2 centers
  = Ok ((λ c', Finite (planar_distance c c')) <$> centers).
Proof.
  intros Hb Hc. destruct (bounded_lookup _ _ _ Hb Hc) as [H1 H2].
  rewrite (distances_bounded _ _ _ H1 H2 Hb). by destruct c.
Qed.

(** Scenes of everyday size are bounded. *)
Lemma bounded_small (centers : list point) :
  Forall (λ c, Rabs c.1 <= 1000 ∧ Rabs c.2 <= 1000) centers → bounded centers.
Proof.
  intros H. eapply Forall_impl; [exact H|].
  intros c [H1 H2]. pose proof pow_510_large. simpl. split; lra.
Qed.

(** [bounded_scene] proves that a scene of concrete centers is bounded. *)
Ltac bounded_scene :=
  apply bounded_small;
  repeat (apply List.Forall_cons;
          [cbn [fst snd]; split; apply Rabs_le; lra|]);
  apply List.Forall_nil.

(** ** argsort *)

Lemma insert_idx_perm (a : list pyfloat) (i : nat) (l : list nat) :
  insert_idx a i l ≡ₚ i :: l.
Proof.
  induction l as [|j l IH]; simpl; [done|].
  destruct (decide _); [done|]. rewrite IH. apply Permutation_swap.
Qed.

Lemma insert_idx_ascending (a : list pyfloat) (i : nat) (l : list nat) :
  ascending a l → ascending a (insert_idx a i l).
Proof.
  unfold ascending. induction 1 as [|j l Hl IH Hj]; simpl.
  - repeat constructor.
  - destruct (decide _) as [Hle|Hnle].
    + constructor; [by constructor|].
      constructor; [done|]. eapply Forall_impl; [exact Hj|].
      simpl. intros k Hk. by eapply float_le_trans.
    + constructor; [done|].
      rewrite insert_idx_perm. constructor; [|done].
      by destruct (float_le_total (a !!! i) (a !!! j)).
Qed.

Lemma foldr_insert_idx_perm (a : list pyfloat) (l : list nat) :
  foldr (insert_idx a) [] l ≡ₚ l.
Proof.
  induction l as [|i l IH]; simpl; [done|]. by rewrite insert_idx_perm, IH.
Qed.

(** The insertion sort is one of the functions that [np.argsort] may
    be. *)
Lemma insertion_argsort_sorts : sorts insertion_argsort.
Proof.
  intros a. split; [apply foldr_insert_idx_perm|].
  unfold insertion_argsort. induction (seq 0 (length a)) as [|i l IH]; simpl.
  - constructor.
  - by apply insert_idx_ascending.
Qed.

Section sorting.
Variable argsort : list pyfloat → list nat.
Hypothesis argsort_sorts : sorts argsort.

Lemma argsort_perm (a : list pyfloat) : argsort a ≡ₚ seq 0 (length a).
Proof. apply argsort_sorts. Qed.

Lemma elem_of_argsort (a : list pyfloat) (i : nat) :
  i ∈ argsort a ↔ (i < length a)%nat.
Proof. rewrite argsort_perm, elem_of_seq. lia. Qed.

Lemma argsort_NoDup (a : list pyfloat) : NoDup (argsort a).
Proof. rewrite argsort_perm. apply NoDup_seq. Qed.

(** The entry that [sorted_idxs[1:]] drops is a nearest one. *)
Lemma argsort_head_least (a : list pyfloat) (h : nat) (t : list nat) (j : nat) :
  argsort a = h :: t → (j < length a)%nat → float_le (a !!! h) (a !!! j).
Proof.
  intros E Hj. destruct (argsort_sorts a) as [_ Hs].
  apply elem_of_argsort in Hj. rewrite E in Hs, Hj.
  apply StronglySorted_inv in Hs as [_ Hall].
  apply elem_of_cons in Hj as [->|Hj]; [apply float_le_refl|].
  rewrite Forall_forall in Hall. by apply Hall.
Qed.


(** ** The candidate set *)

Lemma elem_of_tail {A} (x : A) (l : list A) : x ∈ tail l → x ∈ l.
Proof. destruct l; simpl; [done|]. by right. Qed.

Lemma indices_Ok (xx zz : R) (centers : list point) (threshold_dist : R)
    (ds : list pyfloat) :
  distances xx zz centers = Ok ds →
  indices argsort xx zz centers threshold_dist
  = Ok (filter (λ idx_t, float_le (ds !!! idx_t) (Finite threshold_dist))
               (tail (argsort ds))).
Proof. intros H. unfold indices. by rewrite H. Qed.

Lemma indices_raised (xx zz : R) (centers : list point) (threshold_dist : R) :
  raised (indices argsort xx zz centers threshold_dist)
  = raised (distances xx zz centers).
Proof. unfold indices. by destruct (distances xx zz centers). Qed.

Lemma indices_inv (xx zz : R) (centers : list point) (threshold_dist : R)
    (cand : list nat) :
  indices argsort xx zz centers threshold_dist = Ok cand →
  ∃ ds, distances xx zz centers = Ok ds
        ∧ cand = filter (λ idx_t, float_le (ds !!! idx_t) (Finite threshold_dist))
                        (tail (argsort ds)).
Proof.
  unfold indices. destruct (distances xx zz centers) as [ds|]; [simpl|done].
  intros [= <-]. eauto.
Qed.

(** The candidates are people of the scene. *)
Lemma indices_lt (xx zz : R) (centers : list point) (threshold_dist : R)
    (cand : list nat) :
  indices argsort xx zz centers threshold_dist = Ok cand →
  Forall (λ j, j < length centers)%nat cand.
Proof.
  intros (ds & Hds & ->)%indices_inv. apply Forall_forall.
  intros j [_ Hin%elem_of_tail]%list_elem_of_filter.
  apply elem_of_argsort in Hin. by rewrite (length_distances _ _ _ _ Hds) in Hin.
Qed.

(** A candidate is within [threshold_dist], in the planar distance. *)
Lemma indices_within (centers : list point) (threshold_dist : R)
    (cand : list nat) (c c' : point) (j : nat) :
  indices argsort c.1 c.2 centers threshold_dist = Ok cand →
  j ∈ cand → centers !! j = Some c' →
  planar_distance c c' <= threshold_dist.
Proof.
  intros (ds & Hds & ->)%indices_inv [Hle _]%list_elem_of_filter Hc'.
  destruct (distances_lookup _ _ _ _ _ _ Hds Hc') as [E|E];
    rewrite E in Hle; [done|].
  simpl in Hle. by destruct c.
Qed.

(** A person within [threshold_dist] who is farther than somebody else
    (so that it is not the dropped entry) is a candidate. *)
Lemma indices_intro (xx zz : R) (centers : list point) (threshold_dist : R)
    (ds : list pyfloat) (j k : nat) :
  distances xx zz centers = Ok ds →
  (j < length centers)%nat → (k < length centers)%nat →
  float_le (ds !!! j) (Finite threshold_dist) →
  ¬ float_le (ds !!! j) (ds !!! k) →
  ∃ cand, indices argsort xx zz centers threshold_dist = Ok cand ∧ j ∈ cand.
Proof.
  intros Hds Hj Hk Hle Hfar. rewrite (indices_Ok _ _ _ _ _ Hds).
  eexists. split; [done|]. apply list_elem_of_filter. split; [done|].
  rewrite <- (length_distances _ _ _ _ Hds) in Hj, Hk.
  assert (j ∈ argsort ds) as Hin by by apply elem_of_argsort.
  destruct (argsort ds) as [|h t] eqn:E; [by apply not_elem_of_nil in Hin|].
  simpl. apply elem_of_cons in Hin as [->|Hin]; [|done].
  destruct Hfar. by apply (argsort_head_least ds h t k).
Qed.


End sorting.

(** ** Two people at one place *)

Lemma distances_coincident :
  distances 0 0 [(0, 0); (0, 0)] = Ok [Finite 0; Finite 0].
Proof.
  rewrite distances_bounded; [|rewrite Rabs_R0; apply pow_le; lra..
                              |bounded_scene].
  cbn [fmap list_fmap]. by rewrite planar_distance_self.
Qed.

Lemma insertion_argsort_coincident :
  insertion_argsort [Finite 0; Finite 0] = [0; 1]%nat.
Proof.
  unfold insertion_argsort. simpl. by rewrite decide_True by (simpl; lra).
Qed.

Lemma indices_coincident :
  indices insertion_argsort 0 0 [(0, 0); (0, 0)] 2 = Ok [1%nat].
Proof.
  rewrite (indices_Ok _ _ _ _ _ _ distances_coincident).
  rewrite insertion_argsort_coincident. simpl.
  rewrite filter_cons_True by (simpl; lra). done.
Qed.

(** Whatever order [np.argsort] gives two equal distances, the
    candidate set of one of the two people is that person itself. *)
Lemma indices_coincident_any (argsort : list pyfloat → list nat) :
  sorts argsort →
  indices argsort 0 0 [(0, 0); (0, 0)] 2 = Ok [0%nat]
  ∨ indices argsort 0 0 [(0, 0); (0, 0)] 2 = Ok [1%nat].
Proof.
  intros Hsort. rewrite (indices_Ok _ _ _ _ _ _ distances_coincident).
  destruct (Hsort [Finite 0; Finite 0]) as [Hperm _]. simpl in Hperm.
  pose proof (Permutation_length Hperm) as Hlen.
  destruct (argsort [Finite 0; Finite 0]) as [|h [|k [|? ?]]]; try done.
  assert (k ∈ [0; 1]%nat) as Hk by (rewrite <- Hperm; right; left).
  simpl. apply elem_of_cons in Hk as [->|Hk%list_elem_of_singleton].
  - left. by rewrite filter_cons_True by (simpl; lra).
  - subst k. right. by rewrite filter_cons_True by (simpl; lra).
Qed.

(** C3: two people at the same place.  With the focal person second
    ([idx = 1]) and the order of the insertion sort, both distances are
    0, index 0 comes first, [sorted_idxs[1:]] drops it and the focal
    index 1 is the candidate set.  Whatever order [np.argsort] gives
    the two equal distances, one of the two people is its own
    candidate. *)
Theorem coincident_person_keeps_focal_index :
  let centers := [(0, 0); (0, 0)] in
  (let idx := 1%nat in
   getitem centers idx = Ok (0, 0)
   ∧ distances 0 0 centers = Ok [Finite 0; Finite 0]
   ∧ insertion_argsort [Finite 0; Finite 0] = [0; 1]%nat
   ∧ indices insertion_argsort 0 0 centers 2 = Ok [idx])
  ∧ ∀ argsort, sorts argsort →
      ∃ idx, getitem centers idx = Ok (0, 0)
             ∧ indices argsort 0 0 centers 2 = Ok [idx].
Proof.
  cbv zeta. split.
  - split_and!; [done|apply distances_coincident
                 |apply insertion_argsort_coincident|apply indices_coincident].
  - intros argsort [H|H]%indices_coincident_any.
    + by exists 0%nat.
    + by exists 1%nat.
Qed.

(** ** The deterministic path *)

Lemma deterministic_loop_true (idx : nat) (centers : list point)
    (angles radii : list R) (sd : bool) (cand : list nat) :
  deterministic_loop idx centers angles radii sd cand = Ok true →
  ∃ idx_t, idx_t ∈ cand
           ∧ check_f_formations idx idx_t centers angles radii sd = Ok true.
Proof.
  induction cand as [|j cand IH]; simpl; [done|].
  destruct (check_f_formations idx j centers angles radii sd) as [[]|] eqn:E;
    simpl; [|intros (k & ? & ?)%IH|done].
  - intros _. exists j. split; [left|done].
  - exists k. split; [by right|done].
Qed.

Lemma social_interactions_deterministic (argsort : list pyfloat → list nat)
    (noise : nat → nat → R) (idx : nat)
    (centers : list point) (angles : list R) (dds stds : option (list R))
    (sd : bool) (n_samples : Z) (threshold_prob threshold_dist : R)
    (radii : list R) (c : point) :
  centers !! idx = Some c → (n_samples < 2)%Z →
  social_interactions argsort noise idx centers angles dds stds sd n_samples
                      threshold_prob threshold_dist radii
  = (cand ← indices argsort c.1 c.2 centers threshold_dist;
     deterministic_loop idx centers angles radii sd cand).
Proof.
  intros Hc Hn. unfold social_interactions.
  rewrite (getitem_Some _ _ _ Hc). simpl.
  destruct (indices _ _ _ _ _); simpl; [|done].
  by rewrite bool_decide_eq_true_2.
Qed.

(** The pair of two people at the same place who face the same way
    passes the test of the radius 1. *)
Lemma coincident_pair_passes :
  check_f_formations 1 0 [(0, 0); (0, 0)] [0; 0] [1] false = Ok true
  ∧ check_f_formations 0 1 [(0, 0); (0, 0)] [0; 0] [1] false = Ok true.
Proof.
  assert (orientation_condition (0, 0) (0, 0) 0 0 false 1) as Hor.
  { unfold orientation_condition.
    replace (norm (vsub (mu (0, 0) 1 0) (mu (0, 0) 1 0))) with 0
      by (symmetry; norm_is).
    apply Rmin_glb; apply norm_nonneg. }
  split.
  - by rewrite (no_third_party_below_sentinel 1 0 _ _ _ _ (0, 0) (0, 0) 0 0 1);
      [done..| simpl; lia | by left | lra |].
  - by rewrite (no_third_party_below_sentinel 0 1 _ _ _ _ (0, 0) (0, 0) 0 0 1);
      [done..| simpl; lia | by left | lra |].
Qed.

(** Tested against itself, the second of them has the first as a third
    party at distance exactly 1. *)
Lemma coincident_self_fails :
  check_f_formations 1 1 [(0, 0); (0, 0)] [0; 0] [1] false = Ok false.
Proof.
  rewrite (check_f_formations_Ok 1 1 _ _ _ _ (0, 0) (0, 0) 0 0) by done.
  simpl. rewrite orb_false_r.
  replace (radius_test _ _ _ _ _ _ _) with false; [done|].
  symmetry. apply not_true_is_false. intros [_ [Hall _]]%radius_test_spec.
  specialize (Hall 0%nat (0, 0) eq_refl).
  replace (norm (vsub (0, 0) (o_space (0, 0) (0, 0) 0 0 1))) with 1
    in Hall by (symmetry; norm_is).
  assert (1 < 1); [by apply Hall|lra].
Qed.

(** What the kept focal index does to the verdict: two people at the
    same place who face the same way, in the order of the insertion
    sort.  Seen from person 0 the pair [(0, 1)] is tested and the result
    is true; seen from person 1 the pair [(1, 1)] is tested, person 0
    counts as a third party at distance exactly [r] and the result is
    false. *)
Example coincident_people_verdicts :
  social_interactions insertion_argsort (λ _ _, 0) 0 [(0, 0); (0, 0)] [0; 0]
    None None false 1 (1 / 4) 2 [1] = Ok true
  ∧ social_interactions insertion_argsort (λ _ _, 0) 1 [(0, 0); (0, 0)] [0; 0]
      None None false 1 (1 / 4) 2 [1] = Ok false.
Proof.
  rewrite !(social_interactions_deterministic _ _ _ _ _ _ _ _ _ _ _ _ (0, 0))
    by (done || lia).
  cbn [fst snd]. rewrite indices_coincident. simpl.
  destruct coincident_pair_passes as [_ ->]. by rewrite coincident_self_fails.
Qed.

(** ** The threshold *)

(** For a positive [threshold_dist]: a person farther from [idx] than
    [threshold_dist] is not in the candidate set, a true result always
    comes from a person within [threshold_dist], and in a bounded scene
    a person at distance exactly [threshold_dist] is in the candidate
    set. *)
Lemma threshold_boundary (argsort : list pyfloat → list nat)
    (noise : nat → nat → R) (idx : nat)
    (centers : list point) (angles : list R) (dds stds : option (list R))
    (social_distance : bool) (n_samples : Z)
    (threshold_prob threshold_dist : R) (radii : list R) (c : point) :
  sorts argsort → centers !! idx = Some c → (n_samples < 2)%Z →
  (∀ cand j c', indices argsort c.1 c.2 centers threshold_dist = Ok cand →
     centers !! j = Some c' → threshold_dist < planar_distance c c' →
     j ∉ cand)
  ∧ (social_interactions argsort noise idx centers angles dds stds
       social_distance n_samples threshold_prob threshold_dist radii = Ok true →
     ∃ idx_t c', centers !! idx_t = Some c'
       ∧ planar_distance c c' <= threshold_dist
       ∧ check_f_formations idx idx_t centers angles radii social_distance
         = Ok true)
  ∧ (0 < threshold_dist → bounded centers →
     ∀ j c', centers !! j = Some c' → planar_distance c c' = threshold_dist →
       ∃ cand, indices argsort c.1 c.2 centers threshold_dist = Ok cand
               ∧ j ∈ cand).
Proof.
  intros Hsort Hc Hn. split_and!.
  - intros cand j c' Hcand Hc' Hfar Hin.
    pose proof (indices_within _ _ _ _ _ _ _ Hcand Hin Hc'). lra.
  - rewrite (social_interactions_deterministic _ _ _ _ _ _ _ _ _ _ _ _ _ Hc Hn).
    destruct (indices _ _ _ _ _) as [cand|] eqn:Hcand; [simpl|done].
    intros (idx_t & Hin & Hck)%deterministic_loop_true.
    pose proof (indices_lt _ Hsort _ _ _ _ _ Hcand) as Hlt.
    rewrite Forall_forall in Hlt.
    destruct (lookup_lt_is_Some_2 centers idx_t (Hlt _ Hin)) as [c' Hc'].
    exists idx_t, c'. split_and!; [done| |done].
    by apply (indices_within _ _ _ _ _ _ _ Hcand Hin Hc').
  - intros Hpos Hb j c' Hc' Hd.
    pose proof (distances_bounded_focal _ _ _ Hb Hc) as Hds.
    set (ds := (λ c', Finite (planar_distance c c')) <$> centers) in *.
    assert (ds !!! j = Finite threshold_dist) as Ej.
    { apply list_lookup_total_correct. unfold ds.
      by rewrite list_lookup_fmap, Hc', <- Hd. }
    assert (ds !!! idx = Finite 0) as Ei.
    { apply list_lookup_total_correct. unfold ds.
      by rewrite list_lookup_fmap, Hc, <- (planar_distance_self c). }
    apply (indices_intro _ Hsort _ _ _ _ _ j idx Hds).
    + by eapply lookup_lt_Some.
    + by eapply lookup_lt_Some.
    + rewrite Ej. simpl. lra.
    + rewrite Ej, Ei. simpl. lra.
Qed.

(** The scenario of the specification (8, scenario 4), evaluated: the
    person 2 m away is the only candidate, the person 5 m away is not
    one. *)
Example indices_threshold_2 :
  indices insertion_argsort 0 0 [(0, 0); (2, 0); (5, 0)] 2 = Ok [1%nat].
Proof.
  assert (distances 0 0 [(0, 0); (2, 0); (5, 0)]
          = Ok [Finite 0; Finite 2; Finite 5]) as Hd.
  { rewrite distances_bounded; [|rewrite Rabs_R0; apply pow_le; lra..
                                |bounded_scene].
    unfold planar_distance. cbn [fmap list_fmap fst snd].
    rewrite (sqrt_sq_eq _ 0), (sqrt_sq_eq _ 2), (sqrt_sq_eq _ 5) by lra.
    done. }
  rewrite (indices_Ok _ _ _ _ _ _ Hd). unfold insertion_argsort. simpl.
  repeat (rewrite decide_True by (simpl; lra); simpl).
  rewrite filter_cons_True by (simpl; lra).
  rewrite filter_cons_False by (simpl; lra). done.
Qed.

Lemma indices_coincident_threshold_0 :
  indices insertion_argsort 0 0 [(0, 0); (0, 0)] 0 = Ok [1%nat].
Proof.
  rewrite (indices_Ok _ _ _ _ _ _ distances_coincident).
  rewrite insertion_argsort_coincident. simpl.
  rewrite filter_cons_True by (simpl; lra). done.
Qed.

(** C5: two people at the same place and [threshold_dist = 0].  The
    other person is at distance exactly [threshold_dist], and the pair
    passes the test of the radius 1.  In the order of the insertion
    sort the candidate set of person 1 is person 1 itself, person 0 is
    not in it and the result is false.  Whatever order [np.argsort]
    gives the two equal distances, one of the two people does not have
    the other in its candidate set. *)
Theorem threshold_zero_drops_coincident_person :
  let centers := [(0, 0); (0, 0)] in
  let angles := [0; 0] in
  planar_distance (0, 0) (0, 0) = 0
  ∧ indices insertion_argsort 0 0 centers 0 = Ok [1%nat]
  ∧ check_f_formations 1 0 centers angles [1] false = Ok true
  ∧ social_interactions insertion_argsort (λ _ _, 0) 1 centers angles
      None None false 1 (1 / 4) 0 [1] = Ok false
  ∧ ∀ argsort, sorts argsort →
      ∃ idx other cand, idx ≠ other
        ∧ centers !! idx = Some (0, 0) ∧ centers !! other = Some (0, 0)
        ∧ indices argsort 0 0 centers 0 = Ok cand
        ∧ other ∉ cand.
Proof.
  cbv zeta. split_and!.
  - apply planar_distance_self.
  - apply indices_coincident_threshold_0.
  - apply coincident_pair_passes.
  - rewrite (social_interactions_deterministic _ _ _ _ _ _ _ _ _ _ _ _ (0, 0))
      by (done || lia).
    cbn [fst snd]. rewrite indices_coincident_threshold_0. simpl.
    by rewrite coincident_self_fails.
  - intros argsort Hsort.
    rewrite (indices_Ok _ _ _ _ _ _ distances_coincident).
    destruct (Hsort [Finite 0; Finite 0]) as [Hperm _]. simpl in Hperm.
    pose proof (Permutation_length Hperm) as Hlen.
    destruct (argsort [Finite 0; Finite 0]) as [|h [|k [|? ?]]]; try done.
    assert (k ∈ [0; 1]%nat) as Hk by (rewrite <- Hperm; right; left).
    simpl. apply elem_of_cons in Hk as [->|Hk%list_elem_of_singleton].
    + rewrite filter_cons_True by (simpl; lra).
      exists 0%nat, 1%nat. eexists. split_and!; [done..|].
      by intros ?%list_elem_of_singleton.
    + subst k. rewrite filter_cons_True by (simpl; lra).
      exists 1%nat, 0%nat. eexists. split_and!; [done..|].
      by intros ?%list_elem_of_singleton.
Qed.

(** ** No exception on well-formed input *)

Lemma check_f_formations_total (idx idx_t : nat) (centers : list point)
    (angles radii : list R) (sd : bool) :
  (idx < length centers)%nat → (idx_t < length centers)%nat →
  length angles = length centers →
  ∃ b, check_f_formations idx idx_t centers angles radii sd = Ok b.
Proof.
  intros H0 H1 Hlen.
  destruct (lookup_lt_is_Some_2 centers idx H0) as [x_0 Hx0].
  destruct (lookup_lt_is_Some_2 centers idx_t H1) as [x_1 Hx1].
  rewrite <- Hlen in H0, H1.
  destruct (lookup_lt_is_Some_2 angles idx H0) as [theta0 Ht0].
  destruct (lookup_lt_is_Some_2 angles idx_t H1) as [theta1 Ht1].
  rewrite (check_f_formations_Ok _ _ _ _ _ _ _ _ _ _ Hx0 Hx1 Ht0 Ht1).
  by eexists.
Qed.

Lemma deterministic_loop_total (idx : nat) (centers : list point)
    (angles radii : list R) (sd : bool) (cand : list nat) :
  (idx < length centers)%nat → length angles = length centers →
  Forall (λ j, j < length centers)%nat cand →
  ∃ b, deterministic_loop idx centers angles radii sd cand = Ok b.
Proof.
  intros Hidx Hlen. induction 1 as [|j cand Hj _ IH]; simpl; [by eexists|].
  destruct (check_f_formations_total idx j centers angles radii sd)
    as [b ->]; [done..|].
  simpl. destruct b; [by eexists|done].
Qed.

(** The deterministic loop only indexes lists. *)
Lemma check_f_formations_raised (idx idx_t : nat) (centers : list point)
    (angles radii : list R) (sd : bool) (e : exn) :
  check_f_formations idx idx_t centers angles radii sd = Raise e →
  e = IndexError.
Proof.
  unfold check_f_formations, getitem.
  destruct (angles !! idx); simpl; [|by intros [= <-]].
  destruct (angles !! idx_t); simpl; [|by intros [= <-]].
  induction radii as [|radius radii IH]; simpl; [done|]. unfold getitem.
  destruct (centers !! idx); simpl; [|by intros [= <-]].
  destruct (centers !! idx_t); simpl; [|by intros [= <-]].
  by destruct (radius_test _ _ _ _ _ _ _).
Qed.

Lemma deterministic_loop_raised (idx : nat) (centers : list point)
    (angles radii : list R) (sd : bool) (cand : list nat) (e : exn) :
  deterministic_loop idx centers angles radii sd cand = Raise e →
  e = IndexError.
Proof.
  induction cand as [|j cand IH]; simpl; [done|].
  destruct (check_f_formations idx j centers angles radii sd) as [[]|] eqn:E;
    simpl; [done|done|].
  intros [= <-]. by eapply check_f_formations_raised.
Qed.

(** In a bounded scene the candidate set exists and holds people of the
    scene. *)
Lemma indices_total (argsort : list pyfloat → list nat) (centers : list point)
    (threshold_dist : R) (idx : nat) (c : point) :
  sorts argsort → bounded centers → centers !! idx = Some c →
  ∃ cand, indices argsort c.1 c.2 centers threshold_dist = Ok cand
          ∧ Forall (λ j, j < length centers)%nat cand.
Proof.
  intros Hsort Hb Hc.
  rewrite (indices_Ok _ _ _ _ _ _ (distances_bounded_focal _ _ _ Hb Hc)).
  eexists. split; [done|].
  apply (indices_lt _ Hsort c.1 c.2 _ threshold_dist).
  by rewrite (indices_Ok _ _ _ _ _ _ (distances_bounded_focal _ _ _ Hb Hc)).
Qed.

(** C10: with [n_samples < 2], two calls that differ only in [dds] and
    [stds] (and in the random draws) end in the same way, with the same
    boolean or the same exception, and that exception is never the
    [RuntimeError] of missing depths.  With an index in range, one
    angle per person and a bounded scene, both return the same
    boolean. *)
Theorem deterministic_ignores_depths (argsort : list pyfloat → list nat)
    (noise noise' : nat → nat → R)
    (idx : nat) (centers : list point) (angles : list R)
    (dds stds dds' stds' : option (list R)) (social_distance : bool)
    (n_samples : Z) (threshold_prob threshold_dist : R) (radii : list R) :
  (n_samples < 2)%Z →
  social_interactions argsort noise idx centers angles dds stds
    social_distance n_samples threshold_prob threshold_dist radii
  = social_interactions argsort noise' idx centers angles dds' stds'
      social_distance n_samples threshold_prob threshold_dist radii
  ∧ social_interactions argsort noise idx centers angles dds stds
      social_distance n_samples threshold_prob threshold_dist radii
    ≠ Raise RuntimeError
  ∧ (sorts argsort → (idx < length centers)%nat →
     length angles = length centers → bounded centers →
     ∃ b, social_interactions argsort noise idx centers angles dds stds
            social_distance n_samples threshold_prob threshold_dist radii
          = Ok b
        ∧ social_interactions argsort noise' idx centers angles dds' stds'
            social_distance n_samples threshold_prob threshold_dist radii
          = Ok b).
Proof.
  intros Hn.
  assert (∀ noise dds stds,
    social_interactions argsort noise idx centers angles dds stds
      social_distance n_samples threshold_prob threshold_dist radii
    = (c ← getitem centers idx;
       cand ← indices argsort c.1 c.2 centers threshold_dist;
       deterministic_loop idx centers angles radii social_distance cand))
    as Hdet.
  { intros ? ? ?. unfold social_interactions.
    destruct (getitem centers idx) as [c|]; [simpl|done].
    destruct (indices _ _ _ _ _); [simpl|done].
    by rewrite bool_decide_eq_true_2. }
  rewrite !Hdet. split_and!; [done| |].
  - unfold getitem. destruct (centers !! idx) as [c|]; [simpl|done].
    destruct (indices _ _ _ _ _) as [cand|e] eqn:Hcand; simpl.
    + intros ?%deterministic_loop_raised. done.
    + pose proof (indices_raised argsort c.1 c.2 centers threshold_dist) as Hr.
      rewrite Hcand in Hr. simpl in Hr.
      destruct (distances c.1 c.2 centers) as [|e'] eqn:Hds; [done|].
      injection Hr as ->. apply distances_raised in Hds. by subst.
  - intros Hsort Hidx Hlen Hb.
    destruct (lookup_lt_is_Some_2 centers idx Hidx) as [c Hc].
    rewrite (getitem_Some _ _ _ Hc). simpl.
    destruct (indices_total argsort centers threshold_dist idx c)
      as (cand & -> & Hcand); [done..|]. simpl.
    destruct (deterministic_loop_total idx centers angles radii social_distance
                cand) as [b Hb']; [done..|].
    exists b. by rewrite Hb'.
Qed.

Lemma deterministic_ignores_depths_witness :
  social_interactions insertion_argsort (λ _ _, 0) 0 [(0, 0); (1, 0)] [0; PI]
    None None false 1 (1 / 4) 2 [0.3; 0.5]
  = social_interactions insertion_argsort (λ _ _, 1) 0 [(0, 0); (1, 0)]
      [0; PI] (Some [1; 2]) (Some [7]) false 1 (1 / 4) 2 [0.3; 0.5]
  ∧ social_interactions insertion_argsort (λ _ _, 0) 0 [(0, 0); (1, 0)]
      [0; PI] None None false 1 (1 / 4) 2 [0.3; 0.5]
    ≠ Raise RuntimeError
  ∧ (sorts insertion_argsort → (0 < length [(0, 0); (1, 0)])%nat →
     length [0; PI] = length [(0, 0); (1, 0)] → bounded [(0, 0); (1, 0)] →
     ∃ b, social_interactions insertion_argsort (λ _ _, 0) 0
            [(0, 0); (1, 0)] [0; PI] None None false 1 (1 / 4) 2 [0.3; 0.5]
          = Ok b
        ∧ social_interactions insertion_argsort (λ _ _, 1) 0
            [(0, 0); (1, 0)] [0; PI] (Some [1; 2]) (Some [7]) false 1
            (1 / 4) 2 [0.3; 0.5]
          = Ok b).
Proof.
  apply (deterministic_ignores_depths insertion_argsort (λ _ _, 0) (λ _ _, 1)
           0 [(0, 0); (1, 0)] [0; PI] None None (Some [1; 2]) (Some [7]) false
           1 (1 / 4) 2 [0.3; 0.5]).
  lia.
Defined.

(** ** The probabilistic path *)

Lemma laplace_sampling_lookup (laplace_d : list (R * R)) (noise : nat → nat → R)
    (s_d el : nat) (m b : R) :
  laplace_d !! el = Some (m, b) →
  laplace_sampling laplace_d noise s_d el = Ok (m + b * noise s_d el).
Proof.
  intros H. unfold laplace_sampling. by rewrite (getitem_Some _ _ _ H).
Qed.

Lemma perturb_Ok (dds stds : list R) (noise : nat → nat → R) (s_d el : nat)
    (new_centers : list point) (d b : R) (c : point) :
  dds !! el = Some d → stds !! el = Some b → new_centers !! el = Some c →
  perturb dds (laplace_sampling (zip dds stds) noise) s_d new_centers el
  = Ok (<[el := shifted (d - (d + b * noise s_d el)) c]> new_centers).
Proof.
  intros Hd Hb Hc. unfold perturb.
  rewrite (getitem_Some _ _ _ Hd). simpl.
  rewrite (laplace_sampling_lookup _ _ _ _ d b).
  - simpl. by rewrite (getitem_Some _ _ _ Hc).
  - apply lookup_zip_with_Some. eauto.
Qed.

Lemma perturb_total (dds stds : list R) (noise : nat → nat → R) (s_d el : nat)
    (new_centers : list point) :
  (el < length dds)%nat → (el < length stds)%nat →
  (el < length new_centers)%nat →
  ∃ new_centers',
    perturb dds (laplace_sampling (zip dds stds) noise) s_d new_centers el
    = Ok new_centers'
    ∧ length new_centers' = length new_centers.
Proof.
  intros [d Hd]%lookup_lt_is_Some_2 [b Hb]%lookup_lt_is_Some_2
         [c Hc]%lookup_lt_is_Some_2.
  eexists. split; [by apply perturb_Ok|]. by rewrite length_insert.
Qed.

Lemma sample_formation_total (idx idx_t : nat) (centers : list point)
    (angles dds stds : list R) (noise : nat → nat → R) (radii : list R)
    (sd : bool) (s_d : nat) :
  (idx < length centers)%nat → (idx_t < length centers)%nat →
  length angles = length centers →
  length dds = length centers → length stds = length centers →
  ∃ b, sample_formation idx idx_t centers angles dds
         (laplace_sampling (zip dds stds) noise) radii sd s_d = Ok b.
Proof.
  intros Hidx Hidx_t Hang Hdds Hstds. unfold sample_formation.
  destruct (perturb_total dds stds noise s_d idx centers)
    as (nc1 & -> & Hl1); [lia..|]. simpl.
  destruct (perturb_total dds stds noise s_d idx_t nc1)
    as (nc2 & -> & Hl2); [lia..|]. simpl.
  apply check_f_formations_total; lia.
Qed.

Lemma samples_loop_total (sample : nat → result bool) (range : list nat) :
  (∀ s_d, ∃ b, sample s_d = Ok b) →
  ∃ f_forms, samples_loop sample range = Ok f_forms.
Proof.
  intros Hs. induction range as [|s_d range [f IH]]; simpl; [by eexists|].
  destruct (Hs s_d) as [b ->]. simpl. rewrite IH. simpl. by eexists.
Qed.

Lemma probabilistic_loop_total (sample : nat → nat → result bool)
    (n_samples : Z) (threshold_prob : R) (cand : list nat) (P : nat → Prop) :
  (∀ idx_t s_d, P idx_t → ∃ b, sample idx_t s_d = Ok b) →
  Forall P cand →
  ∃ b, probabilistic_loop sample n_samples threshold_prob cand = Ok b.
Proof.
  intros Hs. induction 1 as [|j cand Hj _ IH]; simpl; [by eexists|].
  destruct (samples_loop_total (sample j) (seq 0 (Z.to_nat n_samples)))
    as [f ->]; [intros s_d; by apply Hs|].
  simpl. case_bool_decide; [by eexists|done].
Qed.

Lemma social_interactions_probabilistic (argsort : list pyfloat → list nat)
    (noise : nat → nat → R) (idx : nat)
    (centers : list point) (angles dds stds : list R)
    (sd : bool) (n_samples : Z) (threshold_prob threshold_dist : R)
    (radii : list R) (c : point) :
  centers !! idx = Some c → (2 <= n_samples)%Z → length dds = length stds →
  social_interactions argsort noise idx centers angles (Some dds) (Some stds)
                      sd n_samples threshold_prob threshold_dist radii
  = (cand ← indices argsort c.1 c.2 centers threshold_dist;
     probabilistic_loop
       (λ idx_t, sample_formation idx idx_t centers angles dds
                   (laplace_sampling (zip dds stds) noise) radii sd)
       n_samples threshold_prob cand).
Proof.
  intros Hc Hn Hlen. unfold social_interactions.
  rewrite (getitem_Some _ _ _ Hc). simpl.
  destruct (indices _ _ _ _ _); simpl; [|done].
  rewrite bool_decide_eq_false_2 by lia. simpl.
  unfold torch_cat. by rewrite decide_True.
Qed.

(** ** Arguments that are not validated *)

(** Two people 1 m apart: whatever [np.argsort] is, the other person is
    the candidate set. *)
Lemma indices_two_people (argsort : list pyfloat → list nat) :
  sorts argsort →
  indices argsort 0 0 [(0, 0); (1, 0)] 2 = Ok [1%nat].
Proof.
  intros Hsort.
  assert (distances 0 0 [(0, 0); (1, 0)] = Ok [Finite 0; Finite 1]) as Hd.
  { rewrite distances_bounded; [|rewrite Rabs_R0; apply pow_le; lra..
                                |bounded_scene].
    unfold planar_distance. cbn [fmap list_fmap fst snd].
    rewrite (sqrt_sq_eq _ 0), (sqrt_sq_eq _ 1) by lra. done. }
  rewrite (indices_Ok _ _ _ _ _ _ Hd).
  destruct (Hsort [Finite 0; Finite 1]) as [Hperm _]. simpl in Hperm.
  pose proof (Permutation_length Hperm) as Hlen.
  pose proof (argsort_head_least _ Hsort [Finite 0; Finite 1]) as Hleast.
  pose proof (argsort_NoDup _ Hsort [Finite 0; Finite 1]) as Hnd.
  destruct (argsort [Finite 0; Finite 1]) as [|h [|k [|? ?]]]; try done.
  assert (h ∈ [0; 1]%nat) as Hh by (rewrite <- Hperm; left).
  assert (k ∈ [0; 1]%nat) as Hk by (rewrite <- Hperm; right; left).
  apply elem_of_cons in Hh as [->|Hh%list_elem_of_singleton].
  - apply elem_of_cons in Hk as [->|Hk%list_elem_of_singleton].
    + apply NoDup_cons in Hnd as [Hnd _]. destruct Hnd. left.
    + subst k. simpl. by rewrite filter_cons_True by (simpl; lra).
  - subst h. specialize (Hleast 1%nat [k] 0%nat eq_refl). simpl in Hleast.
    assert (1 <= 0); [apply Hleast; lia|lra].
Qed.

(** C4, as stated, fails: [threshold_prob = 2] is outside [0, 1] and the
    radius [-2] is negative, and the call returns [True], with the
    insertion sort as with every other [np.argsort]. *)
Lemma invalid_arguments_return_boolean :
  ¬ (0 <= 2 <= 1) ∧ -2 <= 0
  ∧ social_interactions insertion_argsort (λ _ _, 0) 0 [(0, 0); (1, 0)] [0; 0]
      None None false 1 2 2 [-2] = Ok true
  ∧ ∀ argsort, sorts argsort →
      social_interactions argsort (λ _ _, 0) 0 [(0, 0); (1, 0)] [0; 0]
        None None false 1 2 2 [-2] = Ok true.
Proof.
  assert (∀ argsort, sorts argsort →
    social_interactions argsort (λ _ _, 0) 0 [(0, 0); (1, 0)] [0; 0]
      None None false 1 2 2 [-2] = Ok true) as Hall.
  { intros argsort Hsort.
    rewrite (social_interactions_deterministic _ _ _ _ _ _ _ _ _ _ _ _ (0, 0))
      by (done || lia).
    cbn [fst snd]. rewrite indices_two_people by done. simpl.
    rewrite (no_third_party_below_sentinel 0 1 _ _ _ _ (0, 0) (1, 0) 0 0 (-2));
      [done..| simpl; lia | by left | lra |].
    apply orientation_side_by_side.
    unfold Rabs. destruct (Rcase_abs _); lra. }
  split_and!; [lra..| |done].
  apply Hall, insertion_argsort_sorts.
Qed.

(** With one angle, one depth and one scale per person, no loop raises. *)
Lemma loops_total (idx : nat) (centers : list point) (angles : list R)
    (dds stds : list R) (noise : nat → nat → R) (sd : bool) (n_samples : Z)
    (threshold_prob : R) (radii : list R) (cand : list nat) :
  (idx < length centers)%nat → length angles = length centers →
  Forall (λ j, j < length centers)%nat cand →
  (∃ b, deterministic_loop idx centers angles radii sd cand = Ok b)
  ∧ (length dds = length centers → length stds = length centers →
     ∃ b, probabilistic_loop
            (λ idx_t, sample_formation idx idx_t centers angles dds
                        (laplace_sampling (zip dds stds) noise) radii sd)
            n_samples threshold_prob cand = Ok b).
Proof.
  intros Hidx Hang Hcand. split; [by apply deterministic_loop_total|].
  intros Hdds Hstds.
  apply (probabilistic_loop_total _ _ _ _ (λ j, j < length centers)%nat);
    [|done].
  intros idx_t s_d Hj. by apply sample_formation_total.
Qed.

(** With one angle per person, and one depth and one scale per person
    where they are given, the call runs into an exception, or into
    none, whatever [threshold_prob] and the radii are. *)
Lemma social_interactions_raised (argsort : list pyfloat → list nat)
    (noise : nat → nat → R) (idx : nat)
    (centers : list point) (angles : list R) (dds stds : option (list R))
    (sd : bool) (n_samples : Z) (threshold_prob threshold_dist : R)
    (radii : list R) :
  sorts argsort → length angles = length centers →
  (∀ d, dds = Some d → length d = length centers) →
  (∀ s, stds = Some s → length s = length centers) →
  raised (social_interactions argsort noise idx centers angles dds stds sd
            n_samples threshold_prob threshold_dist radii)
  = raised (c ← getitem centers idx;
            _ ← distances c.1 c.2 centers;
            if bool_decide (n_samples < 2)%Z then Ok ()
            else
              dds ← torch_tensor_view dds;
              stds ← torch_tensor_view stds;
              _ ← torch_cat dds stds;
              Ok ()).
Proof.
  intros Hsort Hang Hdds Hstds. unfold social_interactions, getitem.
  destruct (centers !! idx) as [c|] eqn:Hc; [simpl|done].
  pose proof (lookup_lt_Some _ _ _ Hc) as Hidx.
  destruct (indices argsort c.1 c.2 centers threshold_dist) as [cand|e]
    eqn:Hcand.
  - pose proof (indices_lt _ Hsort _ _ _ _ _ Hcand) as Hlt.
    apply indices_inv in Hcand as (ds & -> & _). simpl.
    case_bool_decide.
    + by destruct (deterministic_loop_total idx centers angles radii sd cand)
        as [b ->].
    + destruct dds as [d|]; [simpl|done].
      destruct stds as [s|]; [simpl|done].
      unfold torch_cat. destruct (decide (length d = length s)); [simpl|done].
      destruct (loops_total idx centers angles d s noise sd n_samples
                  threshold_prob radii cand) as [_ [b ->]]; auto.
  - pose proof (indices_raised argsort c.1 c.2 centers threshold_dist) as Hr.
    rewrite Hcand in Hr. simpl in *.
    by destruct (distances c.1 c.2 centers).
Qed.

(** C4, amended: [threshold_prob] and the radii are not validated.  With
    one angle per person (and one depth and one scale per person where
    they are given), the call ends in the same exception, or in none,
    whatever [threshold_prob] and the radii are; and with an index in
    range, a bounded scene and, when [n_samples >= 2], depths and
    positive scales, it returns a boolean. *)
Theorem social_interactions_no_validation (argsort : list pyfloat → list nat)
    (noise : nat → nat → R) (idx : nat)
    (centers : list point) (angles : list R) (dds stds : option (list R))
    (social_distance : bool) (n_samples : Z)
    (threshold_prob threshold_prob' threshold_dist : R)
    (radii radii' : list R) :
  sorts argsort → length angles = length centers →
  (∀ d, dds = Some d → length d = length centers) →
  (∀ s, stds = Some s → length s = length centers) →
  raised (social_interactions argsort noise idx centers angles dds stds
            social_distance n_samples threshold_prob threshold_dist radii)
  = raised (social_interactions argsort noise idx centers angles dds stds
              social_distance n_samples threshold_prob' threshold_dist radii')
  ∧ ((idx < length centers)%nat → bounded centers →
     ((n_samples < 2)%Z
      ∨ ∃ d s, dds = Some d ∧ stds = Some s ∧ Forall (λ b, 0 < b) s) →
     ∃ b, social_interactions argsort noise idx centers angles dds stds
            social_distance n_samples threshold_prob threshold_dist radii
          = Ok b).
Proof.
  intros Hsort Hang Hdds Hstds. split.
  - by rewrite !social_interactions_raised.
  - intros Hidx Hb Hpath.
    destruct (lookup_lt_is_Some_2 centers idx Hidx) as [c Hc].
    destruct (indices_total argsort centers threshold_dist idx c)
      as (cand & Hcand & Hlt); [done..|].
    destruct (decide (n_samples < 2)%Z) as [Hn|Hn].
    + rewrite (social_interactions_deterministic _ _ _ _ _ _ _ _ _ _ _ _ _ Hc Hn),
        Hcand.
      by apply deterministic_loop_total.
    + destruct Hpath as [?|(d & s & -> & -> & _)]; [done|].
      specialize (Hdds d eq_refl). specialize (Hstds s eq_refl).
      rewrite (social_interactions_probabilistic _ _ _ _ _ _ _ _ _ _ _ _ _ Hc)
        by lia.
      rewrite Hcand. by apply loops_total.
Qed.

Lemma social_interactions_no_validation_witness :
  raised (social_interactions insertion_argsort (λ _ _, 1) 0 [(0, 0); (1, 0)]
            [0; 0] (Some [1; 2]) (Some [1; 1]) true 3 7 2 [-2; 0])
  = raised (social_interactions insertion_argsort (λ _ _, 1) 0
              [(0, 0); (1, 0)] [0; 0] (Some [1; 2]) (Some [1; 1]) true 3
              (1 / 4) 2 [0.3; 0.5])
  ∧ ((0 < length [(0, 0); (1, 0)])%nat → bounded [(0, 0); (1, 0)] →
     ((3 < 2)%Z
      ∨ ∃ d s, Some [1; 2] = Some d ∧ Some [1; 1] = Some s
               ∧ Forall (λ b, 0 < b) s) →
     ∃ b, social_interactions insertion_argsort (λ _ _, 1) 0 [(0, 0); (1, 0)]
            [0; 0] (Some [1; 2]) (Some [1; 1]) true 3 7 2 [-2; 0]
          = Ok b).
Proof.
  apply (social_interactions_no_validation insertion_argsort (λ _ _, 1) 0
           [(0, 0); (1, 0)] [0; 0] (Some [1; 2]) (Some [1; 1]) true 3 7
           (1 / 4) 2 [-2; 0] [0.3; 0.5]).
  - apply insertion_argsort_sorts.
  - reflexivity.
  - by intros d [= <-].
  - by intros s [= <-].
Defined.

(** ** The heap only grows, and the copies are new rows *)

Lemma lookup_total_subseteq (h0 h : gmap nat point) (l : nat) :
  h0 ⊆ h → l ∈ dom h0 → h !!! l = h0 !!! l.
Proof.
  intros Hsub [x Hx]%elem_of_dom.
  rewrite (lookup_total_correct h0 l x Hx).
  apply lookup_total_correct. by eapply lookup_weaken.
Qed.

Lemma snapshot_subseteq (h0 h : gmap nat point) (centers : list nat) :
  h0 ⊆ h → Forall (λ l, l ∈ dom h0) centers →
  Store.snapshot h centers = Store.snapshot h0 centers.
Proof.
  intros Hsub Hall. unfold Store.snapshot. apply Forall_fmap_ext.
  eapply Forall_impl; [exact Hall|]. simpl. intros l Hl.
  by apply lookup_total_subseteq.
Qed.

Lemma snapshot_insert (h : gmap nat point) (rows : list nat) (el l : nat)
    (v : point) :
  NoDup rows → rows !! el = Some l →
  Store.snapshot (<[l := v]> h) rows = <[el := v]> (Store.snapshot h rows).
Proof.
  intros Hnd Hel. unfold Store.snapshot. apply list_eq. intros i.
  rewrite list_lookup_fmap. destruct (decide (i = el)) as [->|Hne].
  - rewrite Hel. simpl. rewrite lookup_total_insert_eq.
    rewrite list_lookup_insert_eq; [done|].
    rewrite length_fmap. by eapply lookup_lt_Some.
  - rewrite list_lookup_insert_ne, list_lookup_fmap by done.
    destruct (rows !! i) as [l2|] eqn:Hi; simpl; [|done].
    rewrite lookup_total_insert_ne; [done|].
    intros ->. apply Hne. by eapply NoDup_lookup.
Qed.

Lemma deepcopy_rows_spec (h0 : gmap nat point) (rows : list nat) :
  ∀ (memo : gmap nat nat) (h : gmap nat point) rows' h',
  h0 ⊆ h → memo_ok h0 h memo → Forall (λ l, l ∈ dom h0) rows →
  Store.deepcopy_rows memo rows h = (rows', h') →
  h0 ⊆ h' ∧ h ⊆ h'
  ∧ Forall2 (λ l l', (l' ∉ dom h0) ∧ h' !! l' = Some (h0 !!! l)) rows rows'.
Proof.
  induction rows as [|l rest IH]; intros memo h rows' h' Hsub Hmemo Hall Hcp;
    simpl in Hcp.
  - injection Hcp as <- <-. split_and!; [done|done|constructor].
  - apply Forall_cons in Hall as [Hl Hall].
    destruct (memo !! l) as [l'|] eqn:Hm.
    + destruct (Store.deepcopy_rows memo rest h) as [rest' h1] eqn:E.
      injection Hcp as <- <-.
      destruct (IH _ _ _ _ Hsub Hmemo Hall E) as (H0 & H1 & H2).
      split_and!; [done..|]. constructor; [|done].
      destruct (Hmemo _ _ Hm) as [Hnew Hval]. split; [done|].
      by eapply lookup_weaken.
    + set (l' := fresh (dom h)) in *.
      assert (h !! l' = None) as Hfresh
        by (apply not_elem_of_dom, is_fresh).
      destruct (Store.deepcopy_rows _ rest _) as [rest' h1] eqn:E.
      injection Hcp as <- <-.
      assert (h ⊆ <[l' := h !!! l]> h) as Hgrow by by apply insert_subseteq.
      assert (l' ∉ dom h0) as Hnew.
      { intros Hin. apply (subseteq_dom _ _ Hsub) in Hin.
        by apply not_elem_of_dom in Hfresh. }
      apply IH in E as (H0 & H1 & H2); [|by etrans| |done].
      * split_and!; [done|by etrans|]. constructor; [|done].
        split; [done|]. eapply lookup_weaken; [|exact H1].
        rewrite lookup_insert_eq. f_equal. by apply lookup_total_subseteq.
      * intros k k' Hk. apply lookup_insert_Some in Hk as [[<- <-]|[Hne Hk]].
        -- split; [done|]. rewrite lookup_insert_eq. f_equal.
           by apply lookup_total_subseteq.
        -- destruct (Hmemo _ _ Hk) as [? Hval]. split; [done|].
           by eapply lookup_weaken.
Qed.

Lemma deepcopy_rows_NoDup (rows : list nat) :
  ∀ (memo : gmap nat nat) (h : gmap nat point) rows' h',
  NoDup rows → Forall (λ l, memo !! l = None) rows →
  Store.deepcopy_rows memo rows h = (rows', h') →
  NoDup rows' ∧ Forall (λ l', l' ∉ dom h) rows'.
Proof.
  induction rows as [|l rest IH]; intros memo h rows' h' Hnd Hmiss Hcp;
    simpl in Hcp.
  - injection Hcp as <- <-. split; constructor.
  - apply NoDup_cons in Hnd as [Hl Hnd].
    apply Forall_cons in Hmiss as [Hm Hmiss]. rewrite Hm in Hcp.
    set (l' := fresh (dom h)) in *.
    destruct (Store.deepcopy_rows _ rest _) as [rest' h1] eqn:E.
    injection Hcp as <- <-.
    apply IH in E as [Hnd' Hnew]; [|done|].
    + rewrite dom_insert_L in Hnew. split.
      * apply NoDup_cons. split; [|done].
        rewrite Forall_forall in Hnew. intros Hin%Hnew.
        apply Hin, elem_of_union_l. by apply elem_of_singleton.
      * constructor; [apply is_fresh|].
        eapply Forall_impl; [exact Hnew|]. simpl.
        intros k Hk Hd. apply Hk. by apply elem_of_union_r.
    + rewrite Forall_forall in Hmiss. apply Forall_forall. intros k Hk.
      rewrite lookup_insert_ne; [by apply Hmiss|]. by intros ->.
Qed.

Lemma getitem_snapshot (h : gmap nat point) (rows : list nat) (el : nat) :
  getitem (Store.snapshot h rows) el
  = l ← getitem rows el; Ok (h !!! l).
Proof.
  unfold getitem, Store.snapshot. rewrite list_lookup_fmap.
  by destruct (rows !! el).
Qed.

Lemma perturb_frame (h0 h : gmap nat point) (dds : list R)
    (samples_d : nat → nat → result R) (s_d : nat) (rows : list nat) (el : nat) :
  h0 ⊆ h → Forall (λ l, l ∉ dom h0) rows →
  h0 ⊆ (Store.perturb dds samples_d s_d rows el h).2.
Proof.
  intros Hsub Hnew. unfold Store.perturb, mbind, Store.M_bind, Store.lift,
    Store.read, Store.write.
  destruct (getitem dds el); [|done].
  destruct (samples_d s_d el); [|done].
  destruct (getitem rows el) as [l|] eqn:Hl; [|done]. simpl.
  apply insert_subseteq_r; [|done].
  apply not_elem_of_dom. rewrite Forall_forall in Hnew. apply Hnew.
  apply getitem_Ok in Hl. by eapply list_elem_of_lookup_2.
Qed.

Lemma perturb_refines (h : gmap nat point) (dds : list R)
    (samples_d : nat → nat → result R) (s_d : nat) (rows : list nat) (el : nat) :
  NoDup rows →
  match perturb dds samples_d s_d (Store.snapshot h rows) el with
  | Ok cs =>
      (Store.perturb dds samples_d s_d rows el h).1 = Ok ()
      ∧ Store.snapshot (Store.perturb dds samples_d s_d rows el h).2 rows = cs
  | Raise e => (Store.perturb dds samples_d s_d rows el h).1 = Raise e
  end.
Proof.
  intros Hnd. unfold perturb. rewrite getitem_snapshot.
  unfold Store.perturb, mbind, Store.M_bind, Store.lift, Store.read,
    Store.write.
  destruct (getitem dds el) as [d|]; [simpl|done].
  destruct (samples_d s_d el) as [smp|]; [simpl|done].
  destruct (getitem rows el) as [l|] eqn:Hl; [simpl|done].
  split; [done|]. apply snapshot_insert; [done|].
  by apply getitem_Ok.
Qed.

(** ** The heap computations against the computations on values *)

Lemma simulates_lift {A} (h0 : gmap nat point) (P : Prop) (r : result A) :
  simulates h0 P (Store.lift r) r.
Proof. intros h Hsub. done. Qed.

Lemma simulates_mret {A} (h0 : gmap nat point) (P : Prop) (a : A) :
  simulates h0 P (mret a) (Ok a).
Proof. intros h Hsub. done. Qed.

Lemma M_bind_run {A B} (m : Store.M A) (f : A → Store.M B)
    (h : gmap nat point) :
  (m ≫= f) h
  = match m h with
    | (Ok a, h') => f a h'
    | (Raise e, h') => (Raise e, h')
    end.
Proof. done. Qed.

Lemma simulates_bind {A B} (h0 : gmap nat point) (P : Prop) (m : Store.M A)
    (v : result A) (f : A → Store.M B) (g : A → result B) :
  simulates h0 P m v → (∀ a, simulates h0 P (f a) (g a)) →
  simulates h0 P (m ≫= f) (v ≫= g).
Proof.
  intros Hm Hf h Hsub. destruct (Hm h Hsub) as [Hfr Hres].
  rewrite M_bind_run.
  destruct (m h) as [[a|e] h1]; simpl in *.
  - destruct (Hf a h1 Hfr) as [Hfr' Hres']. split; [done|].
    intros HP. rewrite <- (Hres HP). simpl. by apply Hres'.
  - split; [done|]. intros HP. by rewrite <- (Hres HP).
Qed.

Lemma sample_formation_simulates (h0 : gmap nat point) (idx idx_t : nat)
    (centers : list nat) (angles dds : list R)
    (samples_d : nat → nat → result R) (radii : list R) (sd : bool) (s_d : nat) :
  Forall (λ l, l ∈ dom h0) centers →
  simulates h0 (NoDup centers)
    (Store.sample_formation idx idx_t centers angles dds samples_d radii sd s_d)
    (sample_formation idx idx_t (Store.snapshot h0 centers) angles dds
                      samples_d radii sd s_d).
Proof.
  intros Hall h Hsub.
  unfold Store.sample_formation. rewrite M_bind_run. unfold Store.deepcopy.
  destruct (Store.deepcopy_rows ∅ centers h) as [rows h1] eqn:E.
  rewrite M_bind_run.
  destruct (deepcopy_rows_spec h0 centers ∅ h rows h1) as (H01 & _ & Hcopy);
    [done|by intros l l' ?|done|done|].
  assert (Forall (λ l, l ∉ dom h0) rows) as Hnew.
  { apply Forall_forall. intros l' [i Hi]%list_elem_of_lookup.
    destruct (Forall2_lookup_r _ _ _ _ _ Hcopy Hi) as (l & _ & Hl & _). done. }
  assert (Store.snapshot h1 rows = Store.snapshot h0 centers) as Hsnap.
  { unfold Store.snapshot. apply list_eq. intros i.
    rewrite !list_lookup_fmap.
    destruct (rows !! i) as [l'|] eqn:Hi; simpl.
    - destruct (Forall2_lookup_r _ _ _ _ _ Hcopy Hi) as (l & -> & _ & Hv).
      simpl. f_equal. by apply lookup_total_correct.
    - apply Forall2_length in Hcopy. apply lookup_ge_None in Hi.
      rewrite (proj2 (lookup_ge_None centers i)); [done|lia]. }
  assert (NoDup centers → NoDup rows) as Hnd'.
  { intros Hnd. eapply (deepcopy_rows_NoDup centers ∅ h); [done| |done].
    apply Forall_forall. intros l _. apply lookup_empty. }
  pose proof (perturb_frame h0 h1 dds samples_d s_d rows idx H01 Hnew) as Hf1.
  pose proof (perturb_refines h1 dds samples_d s_d rows idx) as Hr1.
  destruct (Store.perturb dds samples_d s_d rows idx h1) as [r1 h2].
  simpl in Hf1, Hr1. rewrite Hsnap in Hr1. unfold sample_formation.
  destruct r1 as [[]|e1].
  - rewrite M_bind_run.
    pose proof (perturb_frame h0 h2 dds samples_d s_d rows idx_t Hf1 Hnew)
      as Hf2.
    pose proof (perturb_refines h2 dds samples_d s_d rows idx_t) as Hr2.
    destruct (Store.perturb dds samples_d s_d rows idx_t h2) as [r2 h3].
    simpl in Hf2, Hr2. split; [by destruct r2|].
    intros Hnd. specialize (Hr1 (Hnd' Hnd)). specialize (Hr2 (Hnd' Hnd)).
    destruct (perturb dds samples_d s_d (Store.snapshot h0 centers) idx)
      as [cs1|e1]; [|done].
    destruct Hr1 as [_ Hcs1]. rewrite Hcs1 in Hr2. simpl.
    destruct (perturb dds samples_d s_d cs1 idx_t) as [cs2|e2]; simpl;
      [|by rewrite Hr2].
    destruct Hr2 as [-> Hcs2].
    unfold Store.check_f_formations. rewrite M_bind_run.
    unfold Store.get_snapshot, Store.lift. simpl. by rewrite Hcs2.
  - split; [done|]. intros Hnd. specialize (Hr1 (Hnd' Hnd)).
    destruct (perturb dds samples_d s_d (Store.snapshot h0 centers) idx)
      as [cs1|e1']; [by destruct Hr1|]. simpl. by injection Hr1 as ->.
Qed.

Lemma samples_loop_simulates (h0 : gmap nat point) (P : Prop)
    (sample : nat → Store.M bool) (sample_v : nat → result bool)
    (range : list nat) :
  (∀ s_d, simulates h0 P (sample s_d) (sample_v s_d)) →
  simulates h0 P (Store.samples_loop sample range) (samples_loop sample_v range).
Proof.
  intros Hs. induction range as [|s_d range IH]; simpl.
  - apply simulates_mret.
  - apply simulates_bind; [apply Hs|]. intros b.
    apply simulates_bind; [apply IH|]. intros f_forms. apply simulates_mret.
Qed.

Lemma probabilistic_loop_simulates (h0 : gmap nat point) (P : Prop)
    (sample : nat → nat → Store.M bool) (sample_v : nat → nat → result bool)
    (n_samples : Z) (threshold_prob : R) (cand : list nat) :
  (∀ idx_t s_d, simulates h0 P (sample idx_t s_d) (sample_v idx_t s_d)) →
  simulates h0 P
    (Store.probabilistic_loop sample n_samples threshold_prob cand)
    (probabilistic_loop sample_v n_samples threshold_prob cand).
Proof.
  intros Hs. induction cand as [|idx_t cand IH]; simpl.
  - apply simulates_mret.
  - apply simulates_bind; [by apply samples_loop_simulates|]. intros f_forms.
    case_bool_decide; [apply simulates_mret|apply IH].
Qed.

Lemma simulates_lift_Ok {A B} (h0 : gmap nat point) (P : Prop) (a : A)
    (f : A → Store.M B) (v : result B) :
  simulates h0 P (f a) v → simulates h0 P (Store.lift (Ok a) ≫= f) v.
Proof. intros Hf h Hsub. rewrite M_bind_run. by apply Hf. Qed.

Lemma simulates_lift_Raise {A B} (h0 : gmap nat point) (P : Prop) (e : exn)
    (f : A → Store.M B) :
  simulates h0 P (Store.lift (Raise e) ≫= f) (Raise e).
Proof. intros h Hsub. by rewrite M_bind_run. Qed.

Lemma simulates_read {B} (h0 : gmap nat point) (P : Prop) (l : nat)
    (f : point → Store.M B) (v : result B) :
  l ∈ dom h0 → simulates h0 P (f (h0 !!! l)) v →
  simulates h0 P (Store.read l ≫= f) v.
Proof.
  intros Hl Hf h Hsub. rewrite M_bind_run. unfold Store.read.
  rewrite (lookup_total_subseteq h0 h) by done. by apply Hf.
Qed.

Lemma simulates_get_snapshot {B} (h0 : gmap nat point) (P : Prop)
    (centers : list nat) (f : list point → Store.M B) (v : result B) :
  Forall (λ l, l ∈ dom h0) centers →
  simulates h0 P (f (Store.snapshot h0 centers)) v →
  simulates h0 P (Store.get_snapshot centers ≫= f) v.
Proof.
  intros Hall Hf h Hsub. rewrite M_bind_run. unfold Store.get_snapshot.
  rewrite (snapshot_subseteq h0 h) by done. by apply Hf.
Qed.

Lemma social_interactions_simulates (h0 : gmap nat point)
    (argsort : list pyfloat → list nat)
    (noise : nat → nat → R) (idx : nat) (centers : list nat) (angles : list R)
    (dds stds : option (list R)) (sd : bool) (n_samples : Z)
    (threshold_prob threshold_dist : R) (radii : list R) :
  Forall (λ l, l ∈ dom h0) centers →
  simulates h0 (NoDup centers)
    (Store.social_interactions argsort noise idx centers angles dds stds sd
       n_samples threshold_prob threshold_dist radii)
    (social_interactions argsort noise idx (Store.snapshot h0 centers) angles
       dds stds sd n_samples threshold_prob threshold_dist radii).
Proof.
  intros Hall.
  unfold Store.social_interactions, social_interactions.
  rewrite getitem_snapshot.
  destruct (getitem centers idx) as [l|e] eqn:Hl; simpl;
    [|apply simulates_lift_Raise].
  apply simulates_lift_Ok, simulates_read.
  { rewrite Forall_forall in Hall. apply Hall.
    apply getitem_Ok in Hl. by eapply list_elem_of_lookup_2. }
  apply simulates_get_snapshot; [done|].
  destruct (indices argsort _ _ _ _) as [cand|e]; simpl;
    [|apply simulates_lift_Raise].
  apply simulates_lift_Ok.
  case_bool_decide; [apply simulates_lift|].
  apply simulates_bind; [apply simulates_lift|]. intros d.
  apply simulates_bind; [apply simulates_lift|]. intros s.
  apply simulates_bind; [apply simulates_lift|]. intros laplace_d.
  apply probabilistic_loop_simulates. intros idx_t s_d.
  by apply sample_formation_simulates.
Qed.

(** C8: [centers] holds the addresses of rows of the heap [h].  When
    the call returns or raises, every row of [h] has the content it had
    ([h ⊆ h']: the call only adds rows), so [centers] denotes the same
    positions.  When no two entries of [centers] are the same row, the
    result is that of [social_interactions] on the positions, where
    every sample starts from the positions of the caller.  [angles] is
    only read. *)
Theorem social_interactions_frame (argsort : list pyfloat → list nat)
    (noise : nat → nat → R) (idx : nat)
    (centers : list nat) (angles : list R) (dds stds : option (list R))
    (social_distance : bool) (n_samples : Z)
    (threshold_prob threshold_dist : R) (radii : list R)
    (h : gmap nat point) :
  Forall (λ l, l ∈ dom h) centers →
  let run := Store.social_interactions argsort noise idx centers angles dds
               stds social_distance n_samples threshold_prob threshold_dist
               radii h in
  h ⊆ run.2
  ∧ Store.snapshot run.2 centers = Store.snapshot h centers
  ∧ (NoDup centers →
     run.1 = social_interactions argsort noise idx (Store.snapshot h centers)
               angles dds stds social_distance n_samples threshold_prob
               threshold_dist radii).
Proof.
  intros Hall run.
  destruct (social_interactions_simulates h argsort noise idx centers angles
              dds stds
              social_distance n_samples threshold_prob threshold_dist radii
              Hall h) as [Hfr Hres]; [done|].
  split_and!; [done| |done]. by apply snapshot_subseteq.
Qed.

Lemma social_interactions_frame_witness :
  let h : gmap nat point := <[0%nat := (0, 0)]> (<[1%nat := (1, 0)]> ∅) in
  let run := Store.social_interactions insertion_argsort
               (λ s_d el, INR s_d + 1) 0 [0; 1]%nat
               [0; PI] (Some [3; 4]) (Some [1; 2]) false 5 (1 / 4) 2
               [0.3; 0.5] h in
  h ⊆ run.2
  ∧ Store.snapshot run.2 [0; 1]%nat = Store.snapshot h [0; 1]%nat
  ∧ (NoDup [0; 1]%nat →
     run.1 = social_interactions insertion_argsort (λ s_d el, INR s_d + 1) 0
               (Store.snapshot h [0; 1]%nat) [0; PI] (Some [3; 4])
               (Some [1; 2]) false 5 (1 / 4) 2 [0.3; 0.5]).
Proof.
  apply (social_interactions_frame insertion_argsort
           (λ s_d el, INR s_d + 1) 0 [0; 1]%nat
           [0; PI] (Some [3; 4]) (Some [1; 2]) false 5 (1 / 4) 2 [0.3; 0.5]
           (<[0%nat := (0, 0)]> (<[1%nat := (1, 0)]> ∅))).
  repeat constructor; apply elem_of_dom; eexists; reflexivity.
Defined.

(** * Further properties of the code *)

(** ** check_f_formations: the two people play the same role *)

Lemma norm_vsub_sym (a b : point) : norm (vsub a b) = norm (vsub b a).
Proof. unfold norm, vsub. simpl. f_equal. lra. Qed.

Lemma vadd_comm (a b : point) : vadd a b = vadd b a.
Proof. unfold vadd. f_equal; lra. Qed.

Lemma py_min_comm (a b : R) : py_min a b = py_min b a.
Proof. rewrite !py_min_Rmin. apply Rmin_comm. Qed.

Lemma radius_test_sym (x_0 x_1 : point) (theta0 theta1 : R)
    (others : list point) (sd : bool) (r : R) :
  radius_test x_0 x_1 theta0 theta1 others sd r
  = radius_test x_1 x_0 theta1 theta0 others sd r.
Proof.
  unfold radius_test. cbv zeta.
  rewrite (vadd_comm (x_0.1 + _, _)), (norm_vsub_sym (x_0.1 + _, _)).
  by rewrite py_min_comm.
Qed.

Lemma other_centers_sym (idx idx_t : nat) (centers : list point) :
  other_centers idx idx_t centers = other_centers idx_t idx centers.
Proof.
  unfold other_centers. f_equal. apply list_filter_iff. intros [l c]. simpl.
  rewrite !not_elem_of_cons. tauto.
Qed.

Lemma getitem_Raise {A} (l : list A) (i : nat) (e : exn) :
  getitem l i = Raise e → e = IndexError ∧ (length l <= i)%nat.
Proof.
  unfold getitem. destruct (l !! i) eqn:E; [done|].
  intros [= <-]. split; [done|]. by apply lookup_ge_None.
Qed.

Lemma radii_loop_sym (idx idx_t : nat) (centers : list point)
    (theta0 theta1 : R) (others : list point) (sd : bool) (radii : list R) :
  radii_loop idx idx_t centers theta0 theta1 others sd radii
  = radii_loop idx_t idx centers theta1 theta0 others sd radii.
Proof.
  induction radii as [|r rest IH]; simpl; [done|].
  destruct (getitem centers idx) as [x_0|e0] eqn:E0;
    destruct (getitem centers idx_t) as [x_1|e1] eqn:E1; simpl.
  - rewrite radius_test_sym, IH. done.
  - done.
  - done.
  - apply getitem_Raise in E0 as [-> _]. by apply getitem_Raise in E1 as [-> _].
Qed.

Lemma check_f_formations_swap (idx idx_t : nat) (centers : list point)
    (angles radii : list R) (sd : bool) :
  check_f_formations idx idx_t centers angles radii sd
  = check_f_formations idx_t idx centers angles radii sd.
Proof.
  unfold check_f_formations. rewrite (other_centers_sym idx idx_t).
  destruct (getitem angles idx) as [theta0|e0] eqn:E0;
    destruct (getitem angles idx_t) as [theta1|e1] eqn:E1; simpl.
  - apply radii_loop_sym.
  - done.
  - done.
  - apply getitem_Raise in E0 as [-> _]. by apply getitem_Raise in E1 as [-> _].
Qed.

(** X1: [check_f_formations] gives the same result, or raises the same
    exception, when the two indices are exchanged. *)
Theorem check_f_formations_sym (idx idx_t : nat) (centers : list point)
    (angles radii : list R) (social_distance : bool) :
  check_f_formations idx idx_t centers angles radii social_distance
  = check_f_formations idx_t idx centers angles radii social_distance.
Proof. apply check_f_formations_swap. Qed.

(** ** check_f_formations: what [social_distance] changes *)

Lemma radius_test_social_distance (x_0 x_1 : point) (theta0 theta1 : R)
    (others : list point) (r : R) :
  radius_test x_0 x_1 theta0 theta1 others false r = true →
  radius_test x_0 x_1 theta0 theta1 others true r = true.
Proof.
  unfold radius_test. cbv zeta.
  rewrite !andb_true_iff, !bool_decide_eq_true. intros [Hor Hin].
  split; [|done].
  pose proof (norm_nonneg
    (vsub (x_0.1 + r * cos theta0, x_0.2 - r * sin theta0)
          (x_1.1 + r * cos theta1, x_1.2 - r * sin theta1))) as Hn.
  lra.
Qed.

Lemma check_f_formations_true_inv (idx idx_t : nat) (centers : list point)
    (angles radii : list R) (sd : bool) :
  check_f_formations idx idx_t centers angles radii sd = Ok true →
  ∃ x_0 x_1 theta0 theta1,
    centers !! idx = Some x_0 ∧ centers !! idx_t = Some x_1
    ∧ angles !! idx = Some theta0 ∧ angles !! idx_t = Some theta1
    ∧ ∃ r, r ∈ radii
           ∧ radius_test x_0 x_1 theta0 theta1
               (other_centers idx idx_t centers) sd r = true.
Proof.
  unfold check_f_formations. intros Hc.
  destruct (getitem angles idx) as [theta0|] eqn:Ea0; [simpl in Hc|done].
  destruct (getitem angles idx_t) as [theta1|] eqn:Ea1; [simpl in Hc|done].
  destruct radii as [|r0 rest]; [done|].
  assert (∃ x_0 x_1, centers !! idx = Some x_0 ∧ centers !! idx_t = Some x_1)
    as (x_0 & x_1 & H0 & H1).
  { simpl in Hc. unfold getitem in Hc.
    destruct (centers !! idx); [simpl in Hc|done].
    destruct (centers !! idx_t); [eauto|done]. }
  rewrite (radii_loop_Ok _ _ _ _ _ _ _ _ _ _ H0 H1) in Hc.
  injection Hc as Hc.
  apply (existsb_exists _ (r0 :: rest)) in Hc as (r & Hin & Hr).
  exists x_0, x_1, theta0, theta1.
  split_and!; [done|done|by apply getitem_Ok|by apply getitem_Ok|].
  exists r. split; [by apply list_elem_of_In|done].
Qed.

Lemma check_f_formations_true_intro (idx idx_t : nat) (centers : list point)
    (angles radii : list R) (sd : bool) (x_0 x_1 : point)
    (theta0 theta1 r : R) :
  centers !! idx = Some x_0 → centers !! idx_t = Some x_1 →
  angles !! idx = Some theta0 → angles !! idx_t = Some theta1 →
  r ∈ radii →
  radius_test x_0 x_1 theta0 theta1 (other_centers idx idx_t centers) sd r
  = true →
  check_f_formations idx idx_t centers angles radii sd = Ok true.
Proof.
  intros H0 H1 Ha0 Ha1 Hin Hr.
  rewrite (check_f_formations_Ok _ _ _ _ _ _ _ _ _ _ H0 H1 Ha0 Ha1).
  f_equal. apply existsb_exists. exists r. split; [|done].
  by apply list_elem_of_In.
Qed.

(** X2: a pair that passes the test without [social_distance] passes it
    with [social_distance]: halving [d_new] only makes the orientation
    condition easier. *)
Theorem social_distance_accepts_more (idx idx_t : nat) (centers : list point)
    (angles radii : list R) :
  check_f_formations idx idx_t centers angles radii false = Ok true →
  check_f_formations idx idx_t centers angles radii true = Ok true.
Proof.
  intros (x_0 & x_1 & theta0 & theta1 & H0 & H1 & Ha0 & Ha1 & r & Hin & Hr)
    %check_f_formations_true_inv.
  eapply check_f_formations_true_intro; [done..|].
  by apply radius_test_social_distance.
Qed.

Lemma side_by_side_radius_2 :
  check_f_formations 0 1 [(0, 0); (1, 0)] [0; 0] [2] false = Ok true.
Proof.
  apply (no_third_party_below_sentinel 0 1 _ _ _ _ (0, 0) (1, 0) 0 0 2);
    [done..| simpl; lia | by left | lra |].
  apply orientation_side_by_side, Rabs_side. lra.
Qed.

Lemma social_distance_accepts_more_witness :
  check_f_formations 0 1 [(0, 0); (1, 0)] [0; 0] [2] true = Ok true.
Proof.
  apply (social_distance_accepts_more 0 1 [(0, 0); (1, 0)] [0; 0] [2]).
  apply side_by_side_radius_2.
Defined.

(** ** check_f_formations: more people can only block *)

Lemma no_intrusion_fewer (idx idx_t : nat) (centers extra : list point)
    (o_c : point) (r : R) :
  r < 100 →
  no_intrusion idx idx_t (centers ++ extra) o_c r →
  no_intrusion idx idx_t centers o_c r.
Proof.
  intros Hr [Hall _]. split; [|done].
  intros l c Hc. apply Hall. by apply lookup_app_l_Some.
Qed.

(** X3: when [check_f_formations] returns true in a scene, it returns
    true in the scene without the people listed after the two tested
    ones, as long as every radius is below the sentinel distance 100:
    a third party never helps a pair. *)
Theorem fewer_people_still_true (idx idx_t : nat) (centers extra : list point)
    (angles radii : list R) (social_distance : bool) :
  (idx < length centers)%nat → (idx_t < length centers)%nat →
  Forall (λ r, r < 100) radii →
  check_f_formations idx idx_t (centers ++ extra) angles radii social_distance
  = Ok true →
  check_f_formations idx idx_t centers angles radii social_distance = Ok true.
Proof.
  intros Hidx Hidx_t Hsmall
    (x_0 & x_1 & theta0 & theta1 & H0 & H1 & Ha0 & Ha1 & r & Hin & Hr)
    %check_f_formations_true_inv.
  rewrite lookup_app_l in H0, H1 by done.
  eapply check_f_formations_true_intro; [done..|].
  apply radius_test_spec. apply radius_test_spec in Hr as [Hor Hintr].
  split; [done|]. eapply no_intrusion_fewer; [|done].
  rewrite Forall_forall in Hsmall. by apply Hsmall.
Qed.

Lemma fewer_people_still_true_witness :
  check_f_formations 0 1 [(0, 0); (1, 0)] [0; 0] [2] false = Ok true.
Proof.
  apply (fewer_people_still_true 0 1 [(0, 0); (1, 0)] [(21 / 2, 0)] [0; 0] [2]
           false); [simpl; lia | simpl; lia | repeat constructor; lra |].
  apply (check_f_formations_true_intro 0 1 _ _ _ _ (0, 0) (1, 0) 0 0 2);
    [done..| by left |].
  apply radius_test_spec. split.
  - apply orientation_side_by_side, Rabs_side. lra.
  - split; [|intros Hno; destruct (Hno 2%nat); [simpl; lia|done..]].
    intros [|[|[|l]]] c Hc Hl0 Hl1; try done.
    injection Hc as <-.
    replace (norm (vsub (21 / 2, 0) (o_space (0, 0) (1, 0) 0 0 2))) with 8
      by (symmetry; norm_is).
    lra.
Defined.

(** ** social_interactions: errors of the probabilistic path *)

(** X4: with [n_samples >= 2], a call without [dds], without [stds] (its
    default) or with [dds] and [stds] of different lengths raises,
    whoever stands around [idx]; the exception is the [RuntimeError] of
    torch whenever [idx] is in range and line 34 does not overflow. *)
Theorem probabilistic_needs_depths (argsort : list pyfloat → list nat)
    (noise : nat → nat → R) (idx : nat)
    (centers : list point) (angles : list R) (dds stds : option (list R))
    (social_distance : bool) (n_samples : Z)
    (threshold_prob threshold_dist : R) (radii : list R) :
  (2 <= n_samples)%Z →
  dds = None ∨ stds = None
  ∨ (∃ d s, dds = Some d ∧ stds = Some s ∧ length d ≠ length s) →
  (∃ e, social_interactions argsort noise idx centers angles dds stds
          social_distance n_samples threshold_prob threshold_dist radii
        = Raise e)
  ∧ (∀ c ds, centers !! idx = Some c → distances c.1 c.2 centers = Ok ds →
       social_interactions argsort noise idx centers angles dds stds
         social_distance n_samples threshold_prob threshold_dist radii
       = Raise RuntimeError).
Proof.
  intros Hn Hbad.
  assert (∀ cand : list nat,
    (if bool_decide (n_samples < 2)%Z
     then deterministic_loop idx centers angles radii social_distance cand
     else
       dds ← torch_tensor_view dds;
       stds ← torch_tensor_view stds;
       laplace_d ← torch_cat dds stds;
       probabilistic_loop
         (λ idx_t, sample_formation idx idx_t centers angles dds
                     (laplace_sampling laplace_d noise) radii social_distance)
         n_samples threshold_prob cand) = Raise RuntimeError) as Hraise.
  { intros cand. rewrite bool_decide_eq_false_2 by lia.
    destruct Hbad as [->|[->|(d & s & -> & -> & Hlen)]]; simpl.
    - done.
    - by destruct dds.
    - unfold torch_cat. by rewrite decide_False. }
  unfold social_interactions. split.
  - destruct (getitem centers idx) as [c|]; [simpl|by eexists].
    destruct (indices _ _ _ _ _); [simpl|by eexists].
    rewrite Hraise. by eexists.
  - intros c ds Hc Hds. rewrite (getitem_Some _ _ _ Hc). simpl.
    rewrite (indices_Ok _ _ _ _ _ _ Hds). simpl. apply Hraise.
Qed.

Lemma probabilistic_needs_depths_witness :
  (∃ e, social_interactions insertion_argsort (λ _ _, 0) 0 [(0, 0); (1, 0)]
          [0; 0] (Some [1; 1]) None false 100 (1 / 4) 2 [0.3; 0.5]
        = Raise e)
  ∧ (∀ c ds, [(0, 0); (1, 0)] !! 0%nat = Some c →
       distances c.1 c.2 [(0, 0); (1, 0)] = Ok ds →
       social_interactions insertion_argsort (λ _ _, 0) 0 [(0, 0); (1, 0)]
         [0; 0] (Some [1; 1]) None false 100 (1 / 4) 2 [0.3; 0.5]
       = Raise RuntimeError).
Proof.
  apply (probabilistic_needs_depths insertion_argsort (λ _ _, 0) 0
           [(0, 0); (1, 0)] [0; 0] (Some [1; 1]) None false 100 (1 / 4) 2
           [0.3; 0.5]); [lia | by right; left].
Defined.

(** ** social_interactions: a person with nobody around *)




(** ** social_interactions: [threshold_prob] outside (0, 1] *)

Lemma samples_loop_length (sample : nat → result bool) (range : list nat)
    (f_forms : list bool) :
  samples_loop sample range = Ok f_forms → length f_forms = length range.
Proof.
  revert f_forms. induction range as [|s_d range IH]; intros f_forms; simpl.
  - by intros [= <-].
  - destruct (sample s_d) as [b|]; [simpl|done].
    destruct (samples_loop sample range) as [f|]; [simpl|done].
    intros [= <-]. simpl. f_equal. by apply IH.
Qed.

Lemma py_sum_le_length (f_forms : list bool) :
  (py_sum f_forms <= length f_forms)%nat.
Proof.
  unfold py_sum. induction f_forms as [|b f IH]; [done|].
  rewrite fmap_cons. cbn [sum_list length]. destruct b; simpl in *; lia.
Qed.

(** The fraction of line 71 lies between 0 and 1. *)
Lemma vote_fraction_bounds (sample : nat → result bool) (n_samples : Z)
    (f_forms : list bool) :
  (2 <= n_samples)%Z →
  samples_loop sample (seq 0 (Z.to_nat n_samples)) = Ok f_forms →
  0 <= INR (py_sum f_forms) / IZR n_samples <= 1.
Proof.
  intros Hn Hf. apply samples_loop_length in Hf. rewrite length_seq in Hf.
  assert (0 < IZR n_samples) as Hpos by (apply IZR_lt; lia).
  pose proof (py_sum_le_length f_forms) as Hle. rewrite Hf in Hle.
  apply le_INR in Hle. rewrite (INR_IZR_INZ (Z.to_nat _)), Z2Nat.id in Hle
    by lia.
  pose proof (pos_INR (py_sum f_forms)) as H0.
  split.
  - apply Rmult_le_pos; [done|]. left. by apply Rinv_0_lt_compat.
  - apply (Rmult_le_reg_r (IZR n_samples)); [done|].
    unfold Rdiv. rewrite Rmult_assoc, Rinv_l by lra. lra.
Qed.

Lemma probabilistic_loop_above_one (sample : nat → nat → result bool)
    (n_samples : Z) (threshold_prob : R) (cand : list nat) :
  (2 <= n_samples)%Z → 1 < threshold_prob →
  probabilistic_loop sample n_samples threshold_prob cand ≠ Ok true.
Proof.
  intros Hn Hp. induction cand as [|j cand IH]; simpl; [done|].
  destruct (samples_loop (sample j) (seq 0 (Z.to_nat n_samples)))
    as [f|] eqn:Hf; [simpl|done].
  pose proof (vote_fraction_bounds _ _ _ Hn Hf) as [_ Hle].
  rewrite bool_decide_eq_false_2 by lra. done.
Qed.

(** X6: with [n_samples >= 2] and [threshold_prob] above 1 the call never
    returns true, whatever the scene is: no vote reaches the threshold. *)
Theorem threshold_prob_above_one_never_true (argsort : list pyfloat → list nat)
    (noise : nat → nat → R)
    (idx : nat) (centers : list point) (angles : list R)
    (dds stds : option (list R)) (social_distance : bool) (n_samples : Z)
    (threshold_prob threshold_dist : R) (radii : list R) :
  (2 <= n_samples)%Z → 1 < threshold_prob →
  social_interactions argsort noise idx centers angles dds stds
    social_distance n_samples threshold_prob threshold_dist radii ≠ Ok true.
Proof.
  intros Hn Hp. unfold social_interactions.
  destruct (getitem centers idx) as [c|]; [simpl|done].
  destruct (indices _ _ _ _ _) as [cand|]; [simpl|done].
  rewrite bool_decide_eq_false_2 by lia.
  destruct (torch_tensor_view dds) as [d|]; [simpl|done].
  destruct (torch_tensor_view stds) as [s|]; [simpl|done].
  destruct (torch_cat d s) as [laplace_d|]; [simpl|done].
  by apply probabilistic_loop_above_one.
Qed.

Lemma threshold_prob_above_one_never_true_witness :
  social_interactions insertion_argsort (λ _ _, 0) 0 [(0, 0); (1, 0)] [0; 0]
    (Some [1; 1]) (Some [0; 0]) false 100 2 2 [2] ≠ Ok true.
Proof.
  apply (threshold_prob_above_one_never_true insertion_argsort (λ _ _, 0) 0
           [(0, 0); (1, 0)] [0; 0] (Some [1; 1]) (Some [0; 0]) false 100 2 2
           [2]); [lia|lra].
Defined.

(** X7: with [n_samples >= 2], a well-formed scene and
    [threshold_prob <= 0], the call returns true as soon as the
    candidate set is not empty, whatever the samples say. *)
Theorem threshold_prob_nonpositive_flags (argsort : list pyfloat → list nat)
    (noise : nat → nat → R) (idx : nat)
    (centers : list point) (angles dds stds : list R)
    (social_distance : bool) (n_samples : Z)
    (threshold_prob threshold_dist : R) (radii : list R) (c : point)
    (cand : list nat) :
  sorts argsort →
  centers !! idx = Some c → length angles = length centers →
  length dds = length centers → length stds = length centers →
  (2 <= n_samples)%Z → threshold_prob <= 0 →
  indices argsort c.1 c.2 centers threshold_dist = Ok cand → cand ≠ [] →
  social_interactions argsort noise idx centers angles (Some dds) (Some stds)
    social_distance n_samples threshold_prob threshold_dist radii = Ok true.
Proof.
  intros Hsort Hc Hang Hdds Hstds Hn Hp Hcand Hne.
  rewrite (social_interactions_probabilistic _ _ _ _ _ _ _ _ _ _ _ _ _ Hc)
    by lia.
  rewrite Hcand. simpl.
  pose proof (indices_lt _ Hsort _ _ _ _ _ Hcand) as Hall.
  destruct cand as [|j cand]; [done|].
  apply Forall_cons in Hall as [Hj _]. simpl.
  destruct (samples_loop_total
              (sample_formation idx j centers angles dds
                 (laplace_sampling (zip dds stds) noise) radii social_distance)
              (seq 0 (Z.to_nat n_samples))) as [f Hf].
  { intros s_d. apply sample_formation_total; [|done..].
    by eapply lookup_lt_Some. }
  rewrite Hf. simpl.
  pose proof (vote_fraction_bounds _ _ _ Hn Hf) as [H0 _].
  by rewrite bool_decide_eq_true_2 by lra.
Qed.

Lemma threshold_prob_nonpositive_flags_witness :
  social_interactions insertion_argsort (λ _ _, 3) 0 [(0, 0); (1, 0)] [0; PI]
    (Some [1; 1]) (Some [1; 1]) false 100 0 2 [0.3; 0.5] = Ok true.
Proof.
  apply (threshold_prob_nonpositive_flags insertion_argsort (λ _ _, 3) 0
           [(0, 0); (1, 0)] [0; PI] [1; 1] [1; 1] false 100 0 2 [0.3; 0.5]
           (0, 0) [1%nat]);
    [apply insertion_argsort_sorts | reflexivity.. | lia | lra
    | apply indices_two_people, insertion_argsort_sorts | discriminate].
Defined.

(** ** The deterministic path: which people are flagged *)







(** ** The perturbation moves a person along the camera ray *)

Lemma norm_pos (x z : R) : (x, z) ≠ (0, 0) → 0 < norm (x, z).
Proof.
  intros Hne. unfold norm. simpl. apply sqrt_lt_R0.
  destruct (Req_dec x 0) as [->|Hx].
  - destruct (Req_dec z 0) as [->|Hz]; [done|]. nra.
  - nra.
Qed.

Lemma sqrt_one_plus_sqr (x z : R) :
  x ≠ 0 → sqrt (1 + (z / x)²) = norm (x, z) / Rabs x.
Proof.
  intros Hx. unfold norm. simpl.
  replace (1 + (z / x)²) with ((x * x + z * z) / (x * x))
    by (unfold Rsqr; field; done).
  rewrite sqrt_div by nra. f_equal.
  change (x * x) with (Rsqr x). apply sqrt_Rsqr_abs.
Qed.

(** [math.atan2(z, x)] is the angle of the point [(x, z)]. *)
Lemma atan2_cos_sin (x z : R) :
  (x, z) ≠ (0, 0) →
  cos (atan2 z x) = x / norm (x, z) ∧ sin (atan2 z x) = z / norm (x, z).
Proof.
  intros Hne. pose proof (norm_pos x z Hne) as Hn. unfold atan2.
  destruct (decide (0 < x)) as [Hx|Hx].
  - rewrite cos_atan, sin_atan, sqrt_one_plus_sqr by lra.
    rewrite Rabs_pos_eq by lra. split; field; lra.
  - destruct (decide (x < 0)) as [Hx'|Hx'].
    + assert (cos (atan (z / x)) = - (x / norm (x, z))
              ∧ sin (atan (z / x)) = - (z / norm (x, z))) as [Hc Hs].
      { rewrite cos_atan, sin_atan, sqrt_one_plus_sqr by lra.
        rewrite Rabs_left by lra. split; field; lra. }
      destruct (decide (0 <= z)).
      * rewrite neg_cos, neg_sin, Hc, Hs. split; lra.
      * rewrite cos_minus, sin_minus, cos_PI, sin_PI, Hc, Hs. split; lra.
    + assert (x = 0) as -> by lra.
      assert (∀ a, norm (0, a) = Rabs a) as Hax.
      { intros a. unfold norm. simpl.
        replace (0 * 0 + a * a) with (Rsqr a) by (unfold Rsqr; lra).
        apply sqrt_Rsqr_abs. }
      rewrite Hax.
      destruct (decide (0 < z)) as [Hz|Hz].
      * rewrite cos_PI2, sin_PI2, Rabs_pos_eq by lra. split; field; lra.
      * destruct (decide (z < 0)) as [Hz'|Hz'].
        -- rewrite cos_neg, sin_neg, cos_PI2, sin_PI2, Rabs_left by lra.
           split; field; lra.
        -- exfalso. apply Hne. f_equal. lra.
Qed.

Lemma shifted_scale (delta_d : R) (c : point) :
  c ≠ (0, 0) →
  shifted delta_d c
  = ((1 + delta_d / norm c) * c.1, (1 + delta_d / norm c) * c.2).
Proof.
  destruct c as [x z]. intros Hne. unfold shifted. cbn [fst snd].
  destruct (atan2_cos_sin x z Hne) as [-> ->].
  pose proof (norm_pos x z Hne). f_equal; field; lra.
Qed.

(** X10: lines 62-67 move the person [el], who is not at the origin,
    along the ray from the origin (the camera) through the person: the
    position is scaled by [1 + (dds[el] - sample) / |c|], so the
    distance to the origin becomes [| |c| + dds[el] - sample |]. *)
Theorem perturb_along_camera_ray (dds : list R)
    (samples_d : nat → nat → result R) (s_d el : nat)
    (new_centers : list point) (d smp : R) (c : point) :
  dds !! el = Some d → samples_d s_d el = Ok smp →
  new_centers !! el = Some c → c ≠ (0, 0) →
  let k := 1 + (d - smp) / norm c in
  perturb dds samples_d s_d new_centers el
  = Ok (<[el := (k * c.1, k * c.2)]> new_centers)
  ∧ norm (k * c.1, k * c.2) = Rabs (norm c + (d - smp)).
Proof.
  intros Hd Hs Hc Hne k. split.
  - unfold perturb. rewrite (getitem_Some _ _ _ Hd). simpl. rewrite Hs. simpl.
    rewrite (getitem_Some _ _ _ Hc). simpl. f_equal. f_equal.
    exact (shifted_scale (d - smp) c Hne).
  - destruct c as [x z]. pose proof (norm_pos x z Hne) as Hn.
    unfold norm at 1. cbn [fst snd].
    replace (k * x * (k * x) + k * z * (k * z))
      with (Rsqr (k * norm (x, z))).
    + rewrite sqrt_Rsqr_abs. f_equal. unfold k. field. lra.
    + unfold Rsqr, norm. cbn [fst snd].
      assert (0 <= x * x + z * z) as Hsq by nra.
      pose proof (sqrt_sqrt _ Hsq) as Hss.
      set (n := sqrt (x * x + z * z)) in *. nra.
Qed.

Lemma perturb_along_camera_ray_witness :
  let k := 1 + (5 - 7) / norm (3, 4) in
  perturb [5] (λ _ _, Ok 7) 0 [(3, 4)] 0 = Ok (<[0%nat := (k * 3, k * 4)]> [(3, 4)])
  ∧ norm (k * (3, 4).1, k * (3, 4).2) = Rabs (norm (3, 4) + (5 - 7)).
Proof.
  apply (perturb_along_camera_ray [5] (λ _ _, Ok 7) 0 0 [(3, 4)] 5 7 (3, 4));
    [reflexivity..|].
  intros [= H _]. lra.
Defined.

(** ** draw_orientation *)

(** The length of [radiuses] in [draw_orientation]. *)
Lemma length_radiuses (mode : string) (centers : list point) (sizes : list R) :
  length (if bool_decide (mode = "front")
          then (λ s, s / 1.2) <$> sizes
          else replicate (length centers) 0.2)
  = if bool_decide (mode = "front") then length sizes else length centers.
Proof.
  case_bool_decide; [by rewrite length_fmap|by rewrite length_replicate].
Qed.

Lemma orientation_patches_lt (mode : string) (centers : list point)
    (radiuses : list R) (colors : list string) (idx : nat) (theta : R) :
  (idx < length colors)%nat → (idx < length radiuses)%nat →
  (idx < length centers)%nat →
  ∃ p, orientation_patches mode centers radiuses colors idx theta = Ok p.
Proof.
  intros [color Hcol]%lookup_lt_is_Some_2 [radius Hr]%lookup_lt_is_Some_2
         [c Hc]%lookup_lt_is_Some_2.
  unfold orientation_patches.
  rewrite (getitem_Some _ _ _ Hcol). simpl.
  rewrite (getitem_Some _ _ _ Hr). simpl.
  rewrite (getitem_Some _ _ _ Hc). simpl. by eexists.
Qed.

Lemma orientation_patches_ge (mode : string) (centers : list point)
    (radiuses : list R) (colors : list string) (idx : nat) (theta : R) :
  (length colors <= idx ∨ length radiuses <= idx ∨ length centers <= idx)%nat →
  orientation_patches mode centers radiuses colors idx theta = Raise IndexError.
Proof.
  intros Hge. unfold orientation_patches, getitem.
  destruct (colors !! idx) eqn:Hcol; [simpl|done].
  destruct (radiuses !! idx) eqn:Hr; [simpl|done].
  destruct (centers !! idx) eqn:Hc; [simpl|done].
  apply lookup_lt_Some in Hcol, Hr, Hc. lia.
Qed.

Lemma draw_orientation_loop_count (mode : string) (centers : list point)
    (radiuses : list R) (colors : list string) (angles : list R) :
  let n := (length colors `min` (length radiuses `min` length centers))%nat in
  ∀ (idx : nat) (ax : list artist), (idx <= n)%nat →
  ((idx + length angles <= n)%nat →
   ∃ ax', draw_orientation_loop mode centers radiuses colors idx angles ax
          = (Ok (), ax')
          ∧ length ax' = (length ax + 2 * length angles)%nat)
  ∧ ((n < idx + length angles)%nat →
     ∃ ax', draw_orientation_loop mode centers radiuses colors idx angles ax
            = (Raise IndexError, ax')
            ∧ length ax' = (length ax + 2 * (n - idx))%nat).
Proof.
  intros n. induction angles as [|theta rest IH]; intros idx ax Hidx; simpl.
  - split; [|lia]. intros _. exists ax. split; [done|lia].
  - destruct (decide (idx < n)%nat) as [Hlt|Hge].
    + destruct (orientation_patches_lt mode centers radiuses colors idx theta)
        as [[circle arrow] ->]; [unfold n in Hlt; lia..|].
      destruct (IH (S idx) (ax ++ [PatchCircle circle; PatchArrow arrow]))
        as [Hok Hraise]; [lia|].
      split; intros Hn.
      * destruct Hok as (ax' & -> & Hlen); [lia|]. exists ax'.
        split; [done|]. rewrite Hlen, length_app. simpl. lia.
      * destruct Hraise as (ax' & -> & Hlen); [lia|]. exists ax'.
        split; [done|]. rewrite Hlen, length_app. simpl. lia.
    + rewrite orientation_patches_ge by (unfold n in *; lia).
      split; [lia|]. intros _. exists ax. split; [done|lia].
Qed.

(** X11: [draw_orientation] needs a colour, a radius and a center for
    every angle.  With [n] the least of the lengths of [colors],
    [centers] and (in front mode only) [sizes], it adds two patches per
    angle when there are at most [n] angles; otherwise it raises
    [IndexError] after adding the patches of the first [n] people.  In
    the other modes [sizes] is not looked at. *)
Theorem draw_orientation_patch_count (ax : list artist) (centers : list point)
    (sizes angles : list R) (colors : list string) (mode : string) :
  let n := (length colors
            `min` ((if bool_decide (mode = "front")
                    then length sizes else length centers)
                   `min` length centers))%nat in
  ((length angles <= n)%nat →
   ∃ ax', draw_orientation ax centers sizes angles colors mode = (Ok (), ax')
          ∧ length ax' = (length ax + 2 * length angles)%nat)
  ∧ ((n < length angles)%nat →
     ∃ ax', draw_orientation ax centers sizes angles colors mode
            = (Raise IndexError, ax')
            ∧ length ax' = (length ax + 2 * n)%nat).
Proof.
  intros n. unfold draw_orientation.
  pose proof (draw_orientation_loop_count mode centers
                (if bool_decide (mode = "front")
                 then (λ s, s / 1.2) <$> sizes
                 else replicate (length centers) 0.2) colors angles) as H.
  cbv zeta in H. rewrite length_radiuses in H. fold n in H.
  destruct (H 0%nat ax) as [Hok Hraise]; [lia|].
  split; intros Hn.
  - by apply Hok.
  - destruct Hraise as (ax' & Heq & Hlen); [done|].
    exists ax'. split; [done|]. rewrite Hlen. lia.
Qed.

Lemma draw_orientation_loop_lookup (mode : string) (centers : list point)
    (radiuses : list R) (colors : list string) (angles : list R) :
  ∀ (idx : nat) (ax ax' : list artist),
  draw_orientation_loop mode centers radiuses colors idx angles ax
  = (Ok (), ax') →
  (∀ i, (i < length ax)%nat → ax' !! i = ax !! i)
  ∧ ∀ i theta, angles !! i = Some theta →
      ∃ circle arrow,
        orientation_patches mode centers radiuses colors (idx + i) theta
        = Ok (circle, arrow)
        ∧ ax' !! (length ax + 2 * i)%nat = Some (PatchCircle circle)
        ∧ ax' !! (length ax + 2 * i + 1)%nat = Some (PatchArrow arrow).
Proof.
  induction angles as [|theta0 rest IH]; intros idx ax ax'; simpl.
  - intros [= <-]. split; [done|]. intros i theta Hi. done.
  - destruct (orientation_patches mode centers radiuses colors idx theta0)
      as [[circle0 arrow0]|] eqn:E0; [|done].
    intros Hloop. apply IH in Hloop as [Hpre Hat]. split.
    + intros i Hi. rewrite Hpre by (rewrite length_app; lia).
      by rewrite lookup_app_l.
    + intros [|i] theta Hi; simpl in Hi.
      * injection Hi as <-. exists circle0, arrow0.
        rewrite Nat.add_0_r. split; [done|].
        assert (∀ k, (k < 2)%nat →
                  ax' !! (length ax + k)%nat
                  = [PatchCircle circle0; PatchArrow arrow0] !! k) as Hk.
        { intros k Hk. rewrite Hpre by (rewrite length_app; simpl; lia).
          rewrite lookup_app_r by lia. f_equal. lia. }
        split.
        -- trans (ax' !! (length ax + 0)%nat); [f_equal; lia|].
           by rewrite Hk by lia.
        -- trans (ax' !! (length ax + 1)%nat); [f_equal; lia|].
           by rewrite Hk by lia.
      * destruct (Hat i theta Hi) as (circle & arrow & Hp & Hc & Ha).
        exists circle, arrow. rewrite length_app in Hc, Ha. simpl in Hc, Ha.
        replace (idx + S i)%nat with (S idx + i)%nat by lia.
        split; [done|]. split.
        -- rewrite <- Hc. f_equal. lia.
        -- rewrite <- Ha. f_equal. lia.
Qed.

(** X12: in the bird view ([mode] other than ["front"]) the arrow of
    person [idx] starts at the center, has length 1.3 and points along
    [(cos theta, - sin theta)], the direction in which
    [check_f_formations] projects the person: the projection of radius
    [r] is the point [r / 1.3] of the way along the arrow.  The circle
    has the center and the radius 0.2. *)
Theorem bird_arrow_is_projection_direction (ax ax' : list artist)
    (centers : list point) (sizes angles : list R) (colors : list string)
    (mode : string) (idx : nat) (theta : R) (c : point) :
  mode ≠ "front" →
  draw_orientation ax centers sizes angles colors mode = (Ok (), ax') →
  angles !! idx = Some theta → centers !! idx = Some c →
  ∃ circle arrow,
    ax' !! (length ax + 2 * idx)%nat = Some (PatchCircle circle)
    ∧ ax' !! (length ax + 2 * idx + 1)%nat = Some (PatchArrow arrow)
    ∧ circle_xy circle = c ∧ circle_radius circle = 0.2
    ∧ (arrow_x arrow, arrow_y arrow) = c
    ∧ norm (arrow_dx arrow, arrow_dy arrow) = 1.3
    ∧ ∀ r, mu c r theta
           = (arrow_x arrow + r / 1.3 * arrow_dx arrow,
              arrow_y arrow + r / 1.3 * arrow_dy arrow).
Proof.
  intros Hmode Hdraw Hth Hc. unfold draw_orientation in Hdraw.
  rewrite bool_decide_eq_false_2 in Hdraw by done.
  apply draw_orientation_loop_lookup in Hdraw as [_ Hat].
  destruct (Hat idx theta Hth) as (circle & arrow & Hp & Hci & Har).
  exists circle, arrow. split; [done|]. split; [done|].
  unfold orientation_patches in Hp.
  rewrite bool_decide_eq_false_2 in Hp by done.
  change (0 + idx)%nat with idx in Hp.
  destruct (getitem colors idx) as [color|]; [simpl in Hp|done].
  assert (getitem (replicate (length centers) 0.2) idx = Ok 0.2) as Hr.
  { apply getitem_Some, lookup_replicate_2. by eapply lookup_lt_Some. }
  simpl in Hr. rewrite Hr in Hp. simpl in Hp.
  rewrite (getitem_Some _ _ _ Hc) in Hp. simpl in Hp.
  injection Hp as <- <-. simpl. destruct c as [x z]. simpl.
  split_and!; [done..| |].
  - apply norm_eq; [lra|]. simpl.
    pose proof (sin2_cos2 theta) as Hsc. unfold Rsqr in Hsc. nra.
  - intros r. unfold mu, vadd. simpl. f_equal; field; lra.
Qed.

Lemma bird_arrow_is_projection_direction_witness :
  ∃ circle arrow,
    snd (draw_orientation [] [(3, 4)] [] [0] ["r"] "bird")
      !! (length ([] : list artist) + 2 * 0)%nat = Some (PatchCircle circle)
    ∧ snd (draw_orientation [] [(3, 4)] [] [0] ["r"] "bird")
        !! (length ([] : list artist) + 2 * 0 + 1)%nat
      = Some (PatchArrow arrow)
    ∧ circle_xy circle = (3, 4) ∧ circle_radius circle = 0.2
    ∧ (arrow_x arrow, arrow_y arrow) = (3, 4)
    ∧ norm (arrow_dx arrow, arrow_dy arrow) = 1.3
    ∧ ∀ r, mu (3, 4) r 0
           = (arrow_x arrow + r / 1.3 * arrow_dx arrow,
              arrow_y arrow + r / 1.3 * arrow_dy arrow).
Proof.
  apply (bird_arrow_is_projection_direction [] _ [(3, 4)] [] [0] ["r"] "bird"
           0 0 (3, 4)); [done|reflexivity..].
Defined.

Lemma py_max_ge (a b : R) : a <= py_max a b ∧ b <= py_max a b.
Proof. unfold py_max. destruct (decide (a < b)); lra. Qed.

(** X13: in the front view the arrow of person [idx] is the unit vector
    [(cos theta, sin theta)] (the vertical sense opposite to the one of
    the bird view), it starts [5 + radius] away from the point 5 above
    the center, its head is at least 10 wide, and the circle has the
    radius [sizes[idx] / 1.2]. *)
Theorem front_arrow_is_unit_vector (ax ax' : list artist)
    (centers : list point) (sizes angles : list R) (colors : list string)
    (idx : nat) (theta s : R) (c : point) :
  draw_orientation ax centers sizes angles colors "front" = (Ok (), ax') →
  angles !! idx = Some theta → centers !! idx = Some c →
  sizes !! idx = Some s →
  ∃ circle arrow,
    ax' !! (length ax + 2 * idx)%nat = Some (PatchCircle circle)
    ∧ ax' !! (length ax + 2 * idx + 1)%nat = Some (PatchArrow arrow)
    ∧ circle_xy circle = c ∧ circle_radius circle = s / 1.2
    ∧ (arrow_dx arrow, arrow_dy arrow) = (cos theta, sin theta)
    ∧ norm (arrow_dx arrow, arrow_dy arrow) = 1
    ∧ (arrow_x arrow, arrow_y arrow)
      = (c.1 + (5 + s / 1.2) * cos theta, 5 + c.2 + (5 + s / 1.2) * sin theta)
    ∧ 10 <= arrow_head_width arrow
    ∧ arrow_edgecolor arrow = "k".
Proof.
  intros Hdraw Hth Hc Hs. unfold draw_orientation in Hdraw.
  rewrite bool_decide_eq_true_2 in Hdraw by done.
  apply draw_orientation_loop_lookup in Hdraw as [_ Hat].
  destruct (Hat idx theta Hth) as (circle & arrow & Hp & Hci & Har).
  exists circle, arrow. split; [done|]. split; [done|].
  unfold orientation_patches in Hp.
  rewrite bool_decide_eq_true_2 in Hp by done.
  change (0 + idx)%nat with idx in Hp.
  destruct (getitem colors idx) as [color|]; [simpl in Hp|done].
  assert (getitem ((λ s, s / 1.2) <$> sizes) idx = Ok (s / 1.2)) as Hr.
  { apply getitem_Some. by rewrite list_lookup_fmap, Hs. }
  rewrite Hr in Hp. simpl in Hp.
  rewrite (getitem_Some _ _ _ Hc) in Hp. simpl in Hp.
  injection Hp as <- <-. simpl. split_and!; [done..| |done| |done].
  - apply norm_eq; [lra|]. simpl.
    pose proof (sin2_cos2 theta) as Hsc. unfold Rsqr in Hsc. lra.
  - apply py_max_ge.
Qed.

Lemma front_arrow_is_unit_vector_witness :
  ∃ circle arrow,
    snd (draw_orientation [] [(3, 4)] [6] [0] ["r"] "front")
      !! (length ([] : list artist) + 2 * 0)%nat = Some (PatchCircle circle)
    ∧ snd (draw_orientation [] [(3, 4)] [6] [0] ["r"] "front")
        !! (length ([] : list artist) + 2 * 0 + 1)%nat
      = Some (PatchArrow arrow)
    ∧ circle_xy circle = (3, 4) ∧ circle_radius circle = 6 / 1.2
    ∧ (arrow_dx arrow, arrow_dy arrow) = (cos 0, sin 0)
    ∧ norm (arrow_dx arrow, arrow_dy arrow) = 1
    ∧ (arrow_x arrow, arrow_y arrow)
      = ((3, 4).1 + (5 + 6 / 1.2) * cos 0,
         5 + (3, 4).2 + (5 + 6 / 1.2) * sin 0)
    ∧ 10 <= arrow_head_width arrow
    ∧ arrow_edgecolor arrow = "k".
Proof.
  apply (front_arrow_is_unit_vector [] _ [(3, 4)] [6] [0] ["r"] 0 0 6 (3, 4));
    reflexivity.
Defined.

(** ** draw_uncertainty *)

Lemma uncertainty_line_Ok (centers : list point) (stds : list R) (idx : nat)
    (std : R) (c : point) :
  stds !! idx = Some std → centers !! idx = Some c →
  uncertainty_line centers stds idx
  = Ok (mkLine2D ((shifted (- std) c).1, (shifted std c).1)
                 ((shifted (- std) c).2, (shifted std c).2) "g" (Some 2.5)).
Proof.
  intros Hs Hc. unfold uncertainty_line.
  rewrite (getitem_Some _ _ _ Hs). simpl.
  rewrite (getitem_Some _ _ _ Hc). simpl.
  unfold shifted. simpl. do 2 f_equal; f_equal; lra.
Qed.

Lemma uncertainty_line_ge (centers : list point) (stds : list R) (idx : nat) :
  (idx < length stds)%nat → (length centers <= idx)%nat →
  uncertainty_line centers stds idx = Raise IndexError.
Proof.
  intros [std Hs]%lookup_lt_is_Some_2 Hge%lookup_ge_None.
  unfold uncertainty_line. rewrite (getitem_Some _ _ _ Hs). simpl.
  unfold getitem. by rewrite Hge.
Qed.

Lemma draw_uncertainty_loop_spec (centers : list point) (stds : list R)
    (n : nat) :
  ∀ (idx : nat) (ax : list artist),
  (idx + n <= length stds)%nat →
  ((idx + n <= length centers)%nat →
   ∃ ax', draw_uncertainty_loop centers stds (seq idx n) ax = (Ok (), ax')
          ∧ length ax' = (length ax + n)%nat
          ∧ (∀ i, (i < length ax)%nat → ax' !! i = ax !! i)
          ∧ ∀ i, (i < n)%nat →
              ∃ l, uncertainty_line centers stds (idx + i) = Ok l
                   ∧ ax' !! (length ax + i)%nat = Some (Line l))
  ∧ ((idx <= length centers < idx + n)%nat →
     ∃ ax', draw_uncertainty_loop centers stds (seq idx n) ax
            = (Raise IndexError, ax')
            ∧ length ax' = (length ax + (length centers - idx))%nat).
Proof.
  induction n as [|n IH]; intros idx ax Hstds; simpl.
  - split; [|lia]. intros _. exists ax. split_and!; [done|lia|done|lia].
  - destruct (decide (idx < length centers)%nat) as [Hlt|Hge].
    + destruct (lookup_lt_is_Some_2 stds idx) as [std Hs]; [lia|].
      destruct (lookup_lt_is_Some_2 centers idx Hlt) as [c Hc].
      rewrite (uncertainty_line_Ok _ _ _ _ _ Hs Hc).
      set (l := mkLine2D _ _ _ _).
      destruct (IH (S idx) (ax ++ [Line l])) as [Hok Hraise]; [lia|].
      split; intros Hn.
      * destruct Hok as (ax' & -> & Hlen & Hpre & Hat); [lia|]. exists ax'.
        rewrite length_app in Hlen, Hat. simpl in Hlen, Hat.
        split_and!; [done|lia| |].
        -- intros i Hi. rewrite Hpre by (rewrite length_app; lia).
           by rewrite lookup_app_l.
        -- intros [|i] Hi.
           ++ exists l. rewrite Nat.add_0_r.
              split; [by apply uncertainty_line_Ok|].
              rewrite Nat.add_0_r, Hpre by (rewrite length_app; simpl; lia).
              rewrite lookup_app_r by lia. by rewrite Nat.sub_diag.
           ++ destruct (Hat i) as (l' & Hl' & Hat'); [lia|]. exists l'.
              replace (idx + S i)%nat with (S idx + i)%nat by lia.
              split; [done|]. rewrite <- Hat'. f_equal. lia.
      * destruct Hraise as (ax' & -> & Hlen); [lia|]. exists ax'.
        split; [done|]. rewrite Hlen, length_app. simpl. lia.
    + rewrite uncertainty_line_ge by lia.
      split; [lia|]. intros _. exists ax. split; [done|lia].
Qed.

(** X14: [draw_uncertainty] draws one segment per entry of [stds] when
    there is a center for each of them, and otherwise raises
    [IndexError] after the segments of the people who have a center.
    The segment of a person who is not at the origin lies on the ray
    from the origin through the person, between the distances
    [|c| - std] and [|c| + std]: its ends are the center scaled by
    [1 - std / |c|] and by [1 + std / |c|]. *)
Theorem draw_uncertainty_segments (ax : list artist) (centers : list point)
    (stds : list R) :
  ((length stds <= length centers)%nat →
   ∃ ax', draw_uncertainty ax centers stds = (Ok (), ax')
     ∧ length ax' = (length ax + length stds)%nat
     ∧ ∀ idx std c, stds !! idx = Some std → centers !! idx = Some c →
         c ≠ (0, 0) →
         ax' !! (length ax + idx)%nat
         = Some (Line (mkLine2D
                   ((1 - std / norm c) * c.1, (1 + std / norm c) * c.1)
                   ((1 - std / norm c) * c.2, (1 + std / norm c) * c.2)
                   "g" (Some 2.5))))
  ∧ ((length centers < length stds)%nat →
     ∃ ax', draw_uncertainty ax centers stds = (Raise IndexError, ax')
       ∧ length ax' = (length ax + length centers)%nat).
Proof.
  unfold draw_uncertainty.
  destruct (draw_uncertainty_loop_spec centers stds (length stds) 0 ax)
    as [Hok Hraise]; [lia|].
  split; intros Hlen.
  - destruct Hok as (ax' & Heq & Hl & _ & Hat); [lia|]. exists ax'.
    split_and!; [done..|]. intros idx std c Hs Hc Hne.
    destruct (Hat idx) as (l & Hline & Hlook); [by eapply lookup_lt_Some|].
    rewrite Hlook. do 2 f_equal. change (0 + idx)%nat with idx in Hline.
    rewrite (uncertainty_line_Ok _ _ _ _ _ Hs Hc) in Hline.
    rewrite !shifted_scale in Hline by done. simpl in Hline.
    injection Hline as <-. f_equal; f_equal; lra.
  - destruct Hraise as (ax' & Heq & Hl); [lia|]. exists ax'.
    split; [done|]. rewrite Hl. lia.
Qed.

(** ** get_pifpaf_outputs *)

#[local] Instance Rle_transitive : Transitive Rle.
Proof. intros x y z. apply Rle_trans. Qed.

#[local] Instance Rle_total : Total Rle.
Proof. intros x y. destruct (Rle_dec x y); [by left|right; lra]. Qed.

#[local] Instance Rle_antisymm : AntiSymm eq Rle.
Proof. intros x y. apply Rle_antisym. Qed.

Lemma triples_app (n : nat) :
  ∀ a b, length a = (3 * n)%nat → triples (a ++ b) = triples a ++ triples b.
Proof.
  induction n as [|n IH]; intros a b Hlen.
  - by destruct a.
  - destruct a as [|x [|y [|c a]]]; simpl in Hlen; try lia.
    simpl. f_equal. apply IH. lia.
Qed.

Lemma length_triples (n : nat) :
  ∀ a, length a = (3 * n)%nat → length (triples a) = n.
Proof.
  induction n as [|n IH]; intros a Hlen.
  - by destruct a.
  - destruct a as [|x [|y [|c a]]]; simpl in Hlen; try lia.
    simpl. f_equal. apply IH. lia.
Qed.

Lemma length_concat_51 (rows : list (list R)) :
  Forall (λ a, length a = 51%nat) rows →
  length (concat rows) = (51 * length rows)%nat.
Proof.
  induction 1 as [|a rows Ha _ IH]; simpl; [done|].
  rewrite length_app, IH, Ha. lia.
Qed.

Lemma reshape_triples_concat (rows : list (list R)) :
  Forall (λ a, length a = 51%nat) rows →
  reshape (replicate (length rows) 17%nat) (triples (concat rows))
  = triples <$> rows.
Proof.
  induction 1 as [|a rows Ha _ IH]; simpl; [done|].
  rewrite (triples_app 17) by done.
  rewrite take_app_length', drop_app_length'
    by (symmetry; by apply length_triples).
  by rewrite IH.
Qed.

(** What [get_pifpaf_outputs] returns when every annotation has its 17
    keypoints. *)
Lemma get_pifpaf_outputs_51 (annotations : list (list R)) :
  annotations ≠ [] → Forall (λ a, length a = 51%nat) annotations →
  get_pifpaf_outputs annotations
  = Return (triples <$> annotations,
            (λ a, keypoint_score score_weights_row
                    ((λ kp, kp.2) <$> triples a)) <$> annotations).
Proof.
  intros Hne Hall. unfold get_pifpaf_outputs.
  rewrite bool_decide_eq_false_2 by done.
  assert (np_array annotations = Return (concat annotations)) as ->.
  { unfold np_array. destruct annotations as [|row rows]; [done|].
    rewrite bool_decide_eq_true_2; [done|].
    pose proof Hall as Hall'. apply Forall_cons in Hall' as [Hrow _].
    eapply Forall_impl; [exact Hall|]. simpl. intros r Hr. by rewrite Hr, Hrow. }
  simpl. unfold reshape_17_3.
  rewrite length_concat_51 by done.
  rewrite (Nat.mul_comm 51).
  rewrite decide_True by apply Nat.Div0.mod_mul.
  rewrite Nat.div_mul by done.
  rewrite reshape_triples_concat by done. simpl.
  destruct annotations as [|a rows]; [done|]. simpl.
  do 3 f_equal. by rewrite <- !list_fmap_compose.
Qed.

(** X15: [get_pifpaf_outputs] returns two empty lists for no annotation
    and, when every annotation has its 51 numbers, one keypoint set and
    one score per annotation. *)
Theorem get_pifpaf_outputs_one_score_each (annotations : list (list R)) :
  Forall (λ a, length a = 51%nat) annotations →
  ∃ keypoints_sets scores,
    get_pifpaf_outputs annotations = Return (keypoints_sets, scores)
    ∧ length keypoints_sets = length annotations
    ∧ length scores = length annotations
    ∧ Forall (λ set, length set = 17%nat) keypoints_sets.
Proof.
  intros Hall. destruct (decide (annotations = [])) as [->|Hne].
  - exists [], []. by split_and!.
  - eexists _, _. split; [by apply get_pifpaf_outputs_51|].
    rewrite !length_fmap. split_and!; [done..|].
    apply Forall_fmap. eapply Forall_impl; [exact Hall|].
    simpl. intros a Ha. by apply (length_triples 17).
Qed.

Lemma get_pifpaf_outputs_one_score_each_witness :
  ∃ keypoints_sets scores,
    get_pifpaf_outputs [replicate 51 (1 / 2)] = Return (keypoints_sets, scores)
    ∧ length keypoints_sets = length [replicate 51 (1 / 2)]
    ∧ length scores = length [replicate 51 (1 / 2)]
    ∧ Forall (λ set, length set = 17%nat) keypoints_sets.
Proof.
  apply (get_pifpaf_outputs_one_score_each [replicate 51 (1 / 2)]).
  repeat constructor.
Defined.

Lemma np_sum_score_weights_row : np_sum score_weights_row = 19.
Proof. unfold score_weights_row, np_sum. simpl. lra. Qed.

Lemma np_sum_fmap_div (d : R) (row : list R) :
  np_sum ((λ w, w / d) <$> row) = np_sum row / d.
Proof.
  unfold np_sum. induction row as [|w row IH]; [simpl; lra|].
  rewrite fmap_cons. cbn [foldr]. rewrite IH. lra.
Qed.

Lemma weighted_sum_bounds (lo hi : R) (ws : list R) :
  ∀ vs, length ws = length vs →
  Forall (λ w, 0 <= w) ws → Forall (λ v, lo <= v <= hi) vs →
  lo * np_sum ws <= np_sum (zip_with Rmult ws vs) <= hi * np_sum ws.
Proof.
  unfold np_sum. induction ws as [|w ws IH]; intros [|v vs] Hlen Hw Hv;
    simpl in *; try lia; [lra|].
  apply Forall_cons in Hw as [Hw0 Hw]. apply Forall_cons in Hv as [Hv0 Hv].
  destruct (IH vs) as [IHlo IHhi]; [lia|done..|]. nra.
Qed.

Lemma ordered_kps_scores_perm (kps_scores : list R) :
  reverse (merge_sort Rle kps_scores) ≡ₚ kps_scores.
Proof. by rewrite reverse_Permutation, merge_sort_Permutation. Qed.

Lemma keypoint_score_bounds (lo hi : R) (kps_scores : list R) :
  length kps_scores = 17%nat → Forall (λ v, lo <= v <= hi) kps_scores →
  lo <= keypoint_score score_weights_row kps_scores <= hi.
Proof.
  intros Hlen Hall. unfold keypoint_score. cbv zeta.
  rewrite np_sum_score_weights_row.
  pose proof (weighted_sum_bounds lo hi ((λ w, w / 19) <$> score_weights_row)
                (reverse (merge_sort Rle kps_scores))) as H.
  rewrite np_sum_fmap_div, np_sum_score_weights_row in H.
  replace (lo * (19 / 19)) with lo in H by lra.
  replace (hi * (19 / 19)) with hi in H by lra.
  apply H.
  - rewrite length_fmap, (Permutation_length (ordered_kps_scores_perm _)).
    by rewrite Hlen.
  - unfold score_weights_row. simpl. repeat constructor; lra.
  - by rewrite ordered_kps_scores_perm.
Qed.

Lemma keypoint_score_perm (row0 kps_scores kps_scores' : list R) :
  kps_scores ≡ₚ kps_scores' →
  keypoint_score row0 kps_scores = keypoint_score row0 kps_scores'.
Proof.
  intros Hperm. unfold keypoint_score. cbv zeta. do 3 f_equal.
  apply (StronglySorted_unique Rle).
  - apply StronglySorted_merge_sort; apply _.
  - apply StronglySorted_merge_sort; apply _.
  - by rewrite !merge_sort_Permutation.
Qed.

(** X16: the score of an annotation with its 51 numbers lies between
    every lower bound and every upper bound of its 17 confidences: the
    weights are not negative and add up to 1.  In particular it is [c]
    when every confidence is [c]. *)
Theorem score_between_confidences (annotations : list (list R)) (k : nat)
    (a : list R) (lo hi : R) :
  Forall (λ a, length a = 51%nat) annotations →
  annotations !! k = Some a →
  Forall (λ kp, lo <= kp.2 <= hi) (triples a) →
  ∃ keypoints_sets scores score,
    get_pifpaf_outputs annotations = Return (keypoints_sets, scores)
    ∧ scores !! k = Some score
    ∧ lo <= score <= hi.
Proof.
  intros Hall Hk Hconf.
  assert (annotations ≠ []) as Hne by (by intros ->).
  eexists _, _, _. split; [by apply get_pifpaf_outputs_51|].
  split; [by rewrite list_lookup_fmap, Hk|].
  apply keypoint_score_bounds.
  - rewrite length_fmap. apply (length_triples 17).
    rewrite Forall_forall in Hall. apply Hall.
    by eapply list_elem_of_lookup_2.
  - by apply Forall_fmap.
Qed.

Lemma score_between_confidences_witness :
  ∃ keypoints_sets scores score,
    get_pifpaf_outputs [replicate 51 (1 / 2)] = Return (keypoints_sets, scores)
    ∧ scores !! 0%nat = Some score
    ∧ 1 / 2 <= score <= 1 / 2.
Proof.
  apply (score_between_confidences [replicate 51 (1 / 2)] 0
           (replicate 51 (1 / 2)) (1 / 2) (1 / 2)).
  - repeat constructor.
  - reflexivity.
  - simpl. repeat (apply List.Forall_cons; [simpl; lra|]). apply List.Forall_nil.
Defined.

(** X17: the score does not depend on the order of the keypoints: two
    lists of annotations whose keypoint triples agree up to order, one
    annotation at a time, get the same scores. *)
Theorem scores_ignore_keypoint_order (annotations annotations' : list (list R)) :
  Forall (λ a, length a = 51%nat) annotations →
  Forall (λ a, length a = 51%nat) annotations' →
  Forall2 (λ a a', triples a ≡ₚ triples a') annotations annotations' →
  ∃ keypoints_sets keypoints_sets' scores,
    get_pifpaf_outputs annotations = Return (keypoints_sets, scores)
    ∧ get_pifpaf_outputs annotations' = Return (keypoints_sets', scores).
Proof.
  intros Hall Hall' Hperm.
  destruct (decide (annotations = [])) as [->|Hne].
  - apply Forall2_nil_inv_l in Hperm as ->. by exists [], [], [].
  - assert (annotations' ≠ []) as Hne'.
    { intros ->. by apply Forall2_nil_inv_r in Hperm. }
    eexists _, _, _. split; [by apply get_pifpaf_outputs_51|].
    rewrite get_pifpaf_outputs_51 by done. do 2 f_equal.
    clear Hall Hall' Hne Hne'.
    induction Hperm as [|a a' rows rows' Ha _ IH]; [done|].
    rewrite !fmap_cons, IH. f_equal. apply keypoint_score_perm. by rewrite Ha.
Qed.

Lemma scores_ignore_keypoint_order_witness :
  ∃ keypoints_sets keypoints_sets' scores,
    get_pifpaf_outputs [[0; 0; 1] ++ replicate 48 (1 / 2)]
    = Return (keypoints_sets, scores)
    ∧ get_pifpaf_outputs [replicate 48 (1 / 2) ++ [0; 0; 1]]
      = Return (keypoints_sets', scores).
Proof.
  apply (scores_ignore_keypoint_order [[0; 0; 1] ++ replicate 48 (1 / 2)]
           [replicate 48 (1 / 2) ++ [0; 0; 1]]).
  - repeat constructor.
  - repeat constructor.
  - constructor; [|constructor].
    rewrite (triples_app 16 (replicate 48 (1 / 2)) [0; 0; 1]) by reflexivity.
    change (triples ([0; 0; 1] ++ replicate 48 (1 / 2)))
      with ((0, 0, 1) :: triples (replicate 48 (1 / 2))).
    change (triples [0; 0; 1]) with [(0, 0, 1)].
    apply Permutation_cons_append.
Defined.

(** ** show_social *)

(** X18: without ['front'] in [output_types], [show_social] never
    produces an image: it fails the assertion when ['bird'] is missing
    too, and otherwise raises [UnboundLocalError] inside the bird canvas,
    because [colors] is only assigned in the front block; the bird view
    is not saved. *)
Theorem show_social_needs_front (ext : collaborators)
    (argsort : list pyfloat → list nat)
    (noise : nat → nat → nat → R) (a : args) (output_path : string)
    (annotations : list (list R)) (d : dic_out) :
  "front" ∉ args_output_types a →
  show_social ext argsort noise a output_path annotations d
  = mkShown (Throw (if bool_decide ("bird" ∈ args_output_types a)
                    then UnboundLocalError else AssertionError))
            None None.
Proof.
  intros Hfront. unfold show_social.
  rewrite (bool_decide_eq_false_2 ("front" ∈ _)) by done.
  destruct (decide ("bird" ∈ args_output_types a)) as [Hbird|Hbird].
  - rewrite bool_decide_eq_true_2 by (by right).
    by rewrite bool_decide_eq_true_2 by done.
  - rewrite bool_decide_eq_false_2 by (intros [?|?]; done).
    by rewrite bool_decide_eq_false_2 by done.
Qed.

Lemma show_social_needs_front_witness :
  show_social
    (mkCollaborators (λ _, Return ())
       (λ (_ : list (list (R * R * R))) (_ : list string), Return [])
       (λ _, Return ()))
    insertion_argsort (λ _ _ _ : nat, 0)
    (mkArgs ["bird"] 1 (1 / 4) 2 [0.3; 0.5] 10)
    "out" [replicate 51 1]
    (mkDicOut [0] [1] [1] [(0, 0, 1)] [(0, 0)] [(0, 1)])
  = mkShown (Throw (if bool_decide ("bird" ∈ ["bird"])
                    then UnboundLocalError else AssertionError))
            None None.
Proof.
  apply (show_social_needs_front
           (mkCollaborators (λ _, Return ())
              (λ (_ : list (list (R * R * R))) (_ : list string), Return [])
              (λ _, Return ()))
           insertion_argsort (λ _ _ _ : nat, 0)
           (mkArgs ["bird"] 1 (1 / 4) 2 [0.3; 0.5] 10) "out" [replicate 51 1]
           (mkDicOut [0] [1] [1] [(0, 0, 1)] [(0, 0)] [(0, 1)])).
  simpl. intros [=]%list_elem_of_singleton.
Defined.

Lemma social_interactions_probabilistic_total
    (argsort : list pyfloat → list nat) (noise : nat → nat → R)
    (idx : nat) (centers : list point) (angles dds stds : list R) (sd : bool)
    (n_samples : Z) (threshold_prob threshold_dist : R) (radii : list R) :
  sorts argsort → bounded centers →
  (idx < length centers)%nat → length angles = length centers →
  length dds = length centers → length stds = length centers →
  (2 <= n_samples)%Z →
  ∃ b, social_interactions argsort noise idx centers angles (Some dds)
         (Some stds) sd n_samples threshold_prob threshold_dist radii = Ok b.
Proof.
  intros Hsort Hb [c Hc]%lookup_lt_is_Some_2 Hang Hdds Hstds Hn.
  rewrite (social_interactions_probabilistic _ _ _ _ _ _ _ _ _ _ _ _ _ Hc)
    by lia.
  destruct (indices_total argsort centers threshold_dist idx c)
    as (cand & -> & Hlt); [done..|]. simpl.
  apply loops_total; [by eapply lookup_lt_Some|done..].
Qed.

Lemma colors_loop_total (argsort : list pyfloat → list nat)
    (noise : nat → nat → nat → R) (centers : list point)
    (angles dds stds : list R) (threshold_prob threshold_dist : R)
    (radii : list R) (idxs : list nat) :
  sorts argsort → bounded centers →
  length angles = length centers → length dds = length centers →
  length stds = length centers →
  Forall (λ idx, idx < length centers)%nat idxs →
  ∃ colors, colors_loop argsort noise centers angles dds stds threshold_prob
              threshold_dist radii idxs = Ok colors.
Proof.
  intros Hsort Hb Hang Hdds Hstds.
  induction 1 as [|idx idxs Hidx _ IH]; simpl.
  - by exists [].
  - destruct (social_interactions_probabilistic_total argsort (noise idx) idx
                centers angles dds stds false 100 threshold_prob
                threshold_dist radii)
      as [b ->]; [done..|lia|].
    destruct IH as (colors & ->). simpl. by eexists.
Qed.

Lemma colors_loop_length (argsort : list pyfloat → list nat)
    (noise : nat → nat → nat → R) (centers : list point)
    (angles dds stds : list R) (threshold_prob threshold_dist : R)
    (radii : list R) (idxs : list nat) :
  ∀ colors,
  colors_loop argsort noise centers angles dds stds threshold_prob
    threshold_dist radii idxs = Ok colors →
  length colors = length idxs.
Proof.
  induction idxs as [|idx idxs IH]; intros colors; simpl.
  - by intros [= <-].
  - destruct (social_interactions _ _ _ _ _ _ _ _ _ _ _ _); [simpl|done].
    destruct (colors_loop _ _ _ _ _ _ _ _ _ _) as [rest|]; [simpl|done].
    intros [= <-]. simpl. f_equal. by apply IH.
Qed.

Lemma colors_loop_lookup (argsort : list pyfloat → list nat)
    (noise : nat → nat → nat → R) (centers : list point)
    (angles dds stds : list R) (threshold_prob threshold_dist : R)
    (radii : list R) (idxs : list nat) :
  ∀ colors,
  colors_loop argsort noise centers angles dds stds threshold_prob
    threshold_dist radii idxs = Ok colors →
  ∀ k idx, idxs !! k = Some idx →
    ∃ b, social_interactions argsort (noise idx) idx centers angles (Some dds)
           (Some stds) false 100 threshold_prob threshold_dist radii = Ok b
         ∧ colors !! k = Some (if b : bool then "r" else "deepskyblue").
Proof.
  induction idxs as [|idx0 idxs IH]; intros colors Hloop k idx Hk;
    simpl in Hloop; [done|].
  destruct (social_interactions argsort (noise idx0) idx0 centers angles
              (Some dds) (Some stds) false 100 threshold_prob threshold_dist
              radii)
    as [b0|] eqn:E0; [simpl in Hloop|done].
  destruct (colors_loop argsort noise centers angles dds stds threshold_prob
              threshold_dist radii idxs) as [rest|] eqn:Erest;
    [simpl in Hloop|done].
  injection Hloop as <-. destruct k as [|k]; simpl in Hk.
  - injection Hk as <-. by exists b0.
  - by apply (IH rest).
Qed.

Lemma sizes_loop_total (uv_heads : list point) (uv_shoulders : list point) :
  ∀ idx, (idx + length uv_shoulders <= length uv_heads)%nat →
  ∃ sizes, sizes_loop uv_heads idx uv_shoulders = Ok sizes
           ∧ length sizes = length uv_shoulders.
Proof.
  induction uv_shoulders as [|uv_s rest IH]; intros idx Hlen; simpl in *.
  - by exists [].
  - destruct (getitem_lt uv_heads idx) as (uv_h & _ & ->); [lia|]. simpl.
    destruct (IH (S idx)) as (sizes & -> & Hl); [lia|]. simpl.
    eexists. split; [done|]. simpl. by rewrite Hl.
Qed.

Lemma get_pifpaf_outputs_total (annotations : list (list R)) :
  Forall (λ a, length a = 51%nat) annotations →
  ∃ keypoint_sets scores,
    get_pifpaf_outputs annotations = Return (keypoint_sets, scores).
Proof.
  intros Hall. destruct (decide (annotations = [])) as [->|Hne].
  - by exists [], [].
  - eexists _, _. by apply get_pifpaf_outputs_51.
Qed.

(** The run of [show_social] with both views on a well-formed input,
    with collaborators that do not raise. *)
Lemma show_social_run (ext : collaborators) (argsort : list pyfloat → list nat)
    (noise : nat → nat → nat → R) (a : args) (output_path : string)
    (annotations : list (list R)) (d : dic_out) :
  let n := length (dic_xyz_pred d) in
  sorts argsort →
  "front" ∈ args_output_types a → "bird" ∈ args_output_types a →
  (¬ (0.99 < args_scale a ∧ args_scale a < 1.01) →
   resize ext (args_scale a) = Return ()) →
  (∀ keypoint_sets colors, ∃ ax, keypoints ext keypoint_sets colors = Return ax) →
  (∀ ax, leave_canvas ext ax = Return ()) →
  bounded (xz_centers (dic_xyz_pred d)) →
  length (dic_angles d) = n → length (dic_dds_pred d) = n →
  length (dic_stds_ale d) = n → Forall (λ b, 0 < b) (dic_stds_ale d) →
  length (dic_uv_heads d) = n → length (dic_uv_shoulders d) = n →
  Forall (λ a, length a = 51%nat) annotations →
  ∃ keypoint_sets colors ax front_ax fig,
    keypoints ext keypoint_sets colors = Return ax
    ∧ show_social ext argsort noise a output_path annotations d
      = mkShown (Return ()) (Some front_ax) (Some fig)
    ∧ length front_ax = (length ax + 2 * n)%nat
    ∧ fig_path fig = (output_path +:+ ".bird.png")%string
    ∧ fig_ylim fig = (0, args_z_max a + 1)
    ∧ length (fig_artists fig) = (2 + 3 * n)%nat.
Proof.
  intros n Hsort Hfront Hbird Hresize Hkp Hleave Hb Hang Hdds Hstds _ Hheads
         Hshould Hann.
  set (xz := xz_centers (dic_xyz_pred d)) in *.
  assert (length xz = n) as Hxz
    by (unfold xz, xz_centers; by rewrite length_fmap).
  unfold show_social.
  rewrite bool_decide_eq_true_2 by (by left).
  rewrite bool_decide_eq_true_2 by done.
  unfold show_social_front. cbv zeta.
  assert ((if bool_decide (0.99 < args_scale a ∧ args_scale a < 1.01)
           then Return () else resize ext (args_scale a)) = Return ()) as ->
    by (case_bool_decide; [done|by apply Hresize]).
  destruct (colors_loop_total argsort noise xz (dic_angles d) (dic_dds_pred d)
              (dic_stds_ale d) (args_threshold_prob a) (args_threshold_dist a)
              (args_radii a) (seq 0 n)) as (colors & Hcolors);
    [done|done|lia..| |].
  { apply Forall_forall. intros idx Hidx%elem_of_seq. lia. }
  pose proof (colors_loop_length _ _ _ _ _ _ _ _ _ _ _ Hcolors) as Hclen.
  fold n xz. rewrite Hcolors. rewrite length_seq in Hclen.
  destruct (get_pifpaf_outputs_total annotations Hann)
    as (keypoint_sets & scores & ->).
  destruct (sizes_loop_total (dic_uv_heads d) (dic_uv_shoulders d) 0)
    as (sizes & -> & Hslen); [lia|].
  destruct (Hkp keypoint_sets colors) as [ax Hax]. rewrite Hax.
  exists keypoint_sets, colors, ax.
  (* the front view *)
  unfold draw_orientation at 1. rewrite bool_decide_eq_true_2 by done.
  destruct (draw_orientation_loop_count "front" (dic_uv_heads d)
              ((λ s, s / 1.2) <$> sizes) colors (dic_angles d) 0 ax)
    as [Hok _]; [rewrite length_fmap; lia|].
  destruct Hok as (front_ax & -> & Hflen); [rewrite length_fmap; lia|].
  rewrite Hleave.
  rewrite bool_decide_eq_true_2 by done.
  (* the bird view *)
  unfold show_social_bird, bird_canvas. cbv zeta. fold xz.
  unfold draw_orientation. rewrite bool_decide_eq_false_2 by done.
  set (ax1 := [Line _; Line _]).
  destruct (draw_orientation_loop_count "bird" xz
              (replicate (length xz) 0.2) colors (dic_angles d) 0 ax1)
    as [Hok _]; [rewrite length_replicate; lia|].
  destruct Hok as (ax2 & -> & Hlen2); [rewrite length_replicate; lia|].
  unfold draw_uncertainty.
  destruct (draw_uncertainty_loop_spec xz (dic_stds_ale d)
              (length (dic_stds_ale d)) 0 ax2) as [Hok _]; [lia|].
  destruct Hok as (ax3 & -> & Hlen3 & _); [lia|].
  exists front_ax. eexists. split_and!; [done|done|lia|done|done|].
  simpl. rewrite Hlen3, Hlen2. simpl. lia.
Qed.

(** X19: with both views asked for, collaborators that do not raise, a
    bounded scene, one entry per person in every list of [dic_out],
    positive scales and 51 numbers per annotation, [show_social] ends
    normally; the front axes get two patches per person on top of what
    the keypoint painter drew, and the bird view is saved under
    [output_path + '.bird.png'] with the two dashed lines of the field of
    view, two patches per person and one uncertainty segment per
    person. *)
Theorem show_social_both_views (ext : collaborators)
    (argsort : list pyfloat → list nat)
    (noise : nat → nat → nat → R) (a : args) (output_path : string)
    (annotations : list (list R)) (d : dic_out) :
  let n := length (dic_xyz_pred d) in
  sorts argsort →
  "front" ∈ args_output_types a → "bird" ∈ args_output_types a →
  (¬ (0.99 < args_scale a ∧ args_scale a < 1.01) →
   resize ext (args_scale a) = Return ()) →
  (∀ keypoint_sets colors, ∃ ax, keypoints ext keypoint_sets colors = Return ax) →
  (∀ ax, leave_canvas ext ax = Return ()) →
  bounded (xz_centers (dic_xyz_pred d)) →
  length (dic_angles d) = n → length (dic_dds_pred d) = n →
  length (dic_stds_ale d) = n → Forall (λ b, 0 < b) (dic_stds_ale d) →
  length (dic_uv_heads d) = n → length (dic_uv_shoulders d) = n →
  Forall (λ a, length a = 51%nat) annotations →
  ∃ keypoint_sets colors ax front_ax fig,
    keypoints ext keypoint_sets colors = Return ax
    ∧ show_social ext argsort noise a output_path annotations d
      = mkShown (Return ()) (Some front_ax) (Some fig)
    ∧ length front_ax = (length ax + 2 * n)%nat
    ∧ fig_path fig = (output_path +:+ ".bird.png")%string
    ∧ fig_ylim fig = (0, args_z_max a + 1)
    ∧ length (fig_artists fig) = (2 + 3 * n)%nat.
Proof. apply show_social_run. Qed.

Lemma show_social_both_views_witness :
  let ext := mkCollaborators (λ _, Return ())
               (λ (_ : list (list (R * R * R))) (_ : list string), Return [])
               (λ _, Return ()) in
  ∃ keypoint_sets colors ax front_ax fig,
    keypoints ext keypoint_sets colors = Return ax
    ∧ show_social ext insertion_argsort (λ _ _ _ : nat, 0)
        (mkArgs ["front"; "bird"] 1 (1 / 4) 2 [0.3; 0.5] 10) "out"
        [replicate 51 1] (mkDicOut [0] [1] [1] [(0, 0, 1)] [(0, 0)] [(0, 1)])
      = mkShown (Return ()) (Some front_ax) (Some fig)
    ∧ length front_ax = (length ax + 2 * 1)%nat
    ∧ fig_path fig = ("out" +:+ ".bird.png")%string
    ∧ fig_ylim fig = (0, 10 + 1)
    ∧ length (fig_artists fig) = (2 + 3 * 1)%nat.
Proof.
  apply (show_social_both_views
           (mkCollaborators (λ _, Return ())
              (λ (_ : list (list (R * R * R))) (_ : list string), Return [])
              (λ _, Return ()))
           insertion_argsort (λ _ _ _ : nat, 0)
           (mkArgs ["front"; "bird"] 1 (1 / 4) 2 [0.3; 0.5] 10) "out"
           [replicate 51 1]
           (mkDicOut [0] [1] [1] [(0, 0, 1)] [(0, 0)] [(0, 1)])).
  - apply insertion_argsort_sorts.
  - simpl. left.
  - simpl. right. left.
  - reflexivity.
  - intros ks cs. by exists [].
  - reflexivity.
  - simpl. bounded_scene.
  - reflexivity.
  - reflexivity.
  - reflexivity.
  - simpl. apply List.Forall_cons; [lra|apply List.Forall_nil].
  - reflexivity.
  - reflexivity.
  - repeat constructor.
Defined.

(** ** The colours of the bird view *)

Lemma orientation_patches_circle (mode : string) (centers : list point)
    (radiuses : list R) (colors : list string) (idx : nat) (theta : R)
    (circle : Circle) (arrow : FancyArrow) :
  orientation_patches mode centers radiuses colors idx theta
  = Ok (circle, arrow) →
  colors !! idx = Some (circle_color circle)
  ∧ centers !! idx = Some (circle_xy circle)
  ∧ arrow_facecolor arrow = circle_color circle.
Proof.
  unfold orientation_patches, getitem.
  destruct (colors !! idx) as [color|]; [simpl|done].
  destruct (radiuses !! idx) as [radius|]; [simpl|done].
  destruct (centers !! idx) as [c|]; [simpl|done].
  by intros [= <- <-].
Qed.

Lemma draw_uncertainty_loop_prefix (centers : list point) (stds : list R)
    (idxs : list nat) :
  ∀ (ax ax' : list artist) (r : result ()),
  draw_uncertainty_loop centers stds idxs ax = (r, ax') →
  ∀ i, (i < length ax)%nat → ax' !! i = ax !! i.
Proof.
  induction idxs as [|idx idxs IH]; intros ax ax' r; simpl.
  - by intros [= _ <-].
  - destruct (uncertainty_line centers stds idx) as [l|e].
    + intros Hloop i Hi. rewrite (IH _ _ _ Hloop) by (rewrite length_app; lia).
      by rewrite lookup_app_l.
    + by intros [= _ <-].
Qed.

(** The front block returns the colours that lines 230-236 computed. *)
Lemma show_social_front_colors (ext : collaborators)
    (argsort : list pyfloat → list nat) (noise : nat → nat → nat → R)
    (a : args) (annotations : list (list R)) (d : dic_out)
    (colors : list string) (front_axes : option (list artist)) :
  show_social_front ext argsort noise a annotations d
  = (Return colors, front_axes) →
  colors_loop argsort noise (xz_centers (dic_xyz_pred d)) (dic_angles d)
    (dic_dds_pred d) (dic_stds_ale d) (args_threshold_prob a)
    (args_threshold_dist a) (args_radii a) (seq 0 (length (dic_xyz_pred d)))
  = Ok colors.
Proof.
  unfold show_social_front. cbv zeta. intros H.
  repeat case_match; by simplify_eq.
Qed.

(** What a saved bird view is made of. *)
Lemma show_social_saved (ext : collaborators)
    (argsort : list pyfloat → list nat) (noise : nat → nat → nat → R)
    (a : args) (output_path : string) (annotations : list (list R))
    (d : dic_out) (fig : figure) :
  shown_bird_figure (show_social ext argsort noise a output_path annotations d)
  = Some fig →
  ∃ colors ax1 ax2,
    colors_loop argsort noise (xz_centers (dic_xyz_pred d)) (dic_angles d)
      (dic_dds_pred d) (dic_stds_ale d) (args_threshold_prob a)
      (args_threshold_dist a) (args_radii a)
      (seq 0 (length (dic_xyz_pred d))) = Ok colors
    ∧ length ax1 = 2%nat
    ∧ draw_orientation ax1 (xz_centers (dic_xyz_pred d)) [] (dic_angles d)
        colors "bird" = (Ok (), ax2)
    ∧ draw_uncertainty ax2 (xz_centers (dic_xyz_pred d)) (dic_stds_ale d)
      = (Ok (), fig_artists fig).
Proof.
  unfold show_social. intros H.
  set (xz := xz_centers (dic_xyz_pred d)).
  case_bool_decide; [|done].
  destruct (bool_decide ("front" ∈ args_output_types a)).
  - destruct (show_social_front ext argsort noise a annotations d)
      as [[colors|e] front_axes] eqn:Hfront; simpl in H; [|done].
    apply show_social_front_colors in Hfront.
    case_bool_decide; [|done].
    unfold show_social_bird, bird_canvas in H. cbv zeta in H. fold xz in H.
    set (ax1 := [Line _; Line _]) in H.
    destruct (draw_orientation ax1 xz [] (dic_angles d) colors "bird")
      as [[[]|e] ax2] eqn:Hdraw; simpl in H; [|done].
    destruct (draw_uncertainty ax2 xz (dic_stds_ale d))
      as [[[]|e] ax3] eqn:Hunc; simpl in H; [|done].
    injection H as <-. by exists colors, ax1, ax2.
  - simpl in H. by case_bool_decide.
Qed.

(** X20: in a bird view that [show_social] saved, the circle and the
    arrow of person [idx] are red (['r']) when [social_interactions]
    flags the person and ['deepskyblue'] otherwise, where the call takes
    the thresholds and the radii of [args] but always
    [social_distance = False] and [n_samples = 100]; the circle sits at
    [(x, z)] of [xyz_pred[idx]].  [show_social_both_views] says when the
    view is saved. *)
Theorem bird_view_colours (ext : collaborators)
    (argsort : list pyfloat → list nat)
    (noise : nat → nat → nat → R) (a : args) (output_path : string)
    (annotations : list (list R)) (d : dic_out) (fig : figure) (idx : nat) :
  let xz := xz_centers (dic_xyz_pred d) in
  shown_bird_figure (show_social ext argsort noise a output_path annotations d)
  = Some fig →
  (idx < length (dic_angles d))%nat →
  ∃ b circle arrow,
    social_interactions argsort (noise idx) idx xz (dic_angles d)
      (Some (dic_dds_pred d)) (Some (dic_stds_ale d)) false 100
      (args_threshold_prob a) (args_threshold_dist a) (args_radii a) = Ok b
    ∧ fig_artists fig !! (2 + 2 * idx)%nat = Some (PatchCircle circle)
    ∧ fig_artists fig !! (2 + 2 * idx + 1)%nat = Some (PatchArrow arrow)
    ∧ circle_color circle = (if b then "r" else "deepskyblue")
    ∧ arrow_facecolor arrow = circle_color circle
    ∧ xz !! idx = Some (circle_xy circle).
Proof.
  intros xz (colors & ax1 & ax2 & Hcolors & Hlen1 & Hdraw & Hunc)
    %show_social_saved Hidx.
  fold xz in Hcolors, Hdraw, Hunc.
  destruct (lookup_lt_is_Some_2 (dic_angles d) idx Hidx) as [theta Hth].
  unfold draw_orientation in Hdraw.
  rewrite bool_decide_eq_false_2 in Hdraw by done.
  apply draw_orientation_loop_lookup in Hdraw as [_ Hat].
  destruct (Hat idx theta Hth) as (circle & arrow & Hp & Hci & Har).
  change (0 + idx)%nat with idx in Hp.
  apply orientation_patches_circle in Hp as (Hcc & Hxy & Hface).
  rewrite Hlen1 in Hci, Har.
  pose proof (colors_loop_length _ _ _ _ _ _ _ _ _ _ _ Hcolors) as Hclen.
  rewrite length_seq in Hclen.
  destruct (colors_loop_lookup _ _ _ _ _ _ _ _ _ _ _ Hcolors idx idx)
    as (b & Hb & Hcol).
  { apply lookup_seq_lt. rewrite <- Hclen. by eapply lookup_lt_Some. }
  unfold draw_uncertainty in Hunc.
  pose proof (draw_uncertainty_loop_prefix _ _ _ _ _ _ Hunc) as Hpre.
  exists b, circle, arrow. split_and!; [done| | | |done|done].
  - rewrite Hpre; [done|]. by eapply lookup_lt_Some.
  - rewrite Hpre; [done|]. by eapply lookup_lt_Some.
  - rewrite Hcol in Hcc. by injection Hcc as <-.
Qed.

Lemma bird_view_colours_witness :
  let ext := mkCollaborators (λ _, Return ())
               (λ (_ : list (list (R * R * R))) (_ : list string), Return [])
               (λ _, Return ()) in
  let a := mkArgs ["front"; "bird"] 1 (1 / 4) 2 [0.3; 0.5] 10 in
  let d := mkDicOut [0] [1] [1] [(0, 0, 1)] [(0, 0)] [(0, 1)] in
  ∃ fig b circle arrow,
    shown_bird_figure
      (show_social ext insertion_argsort (λ _ _ _ : nat, 0) a "out"
         [replicate 51 1] d) = Some fig
    ∧ (0 < length (dic_angles d))%nat
    ∧ social_interactions insertion_argsort (λ _ _ : nat, 0) 0
        (xz_centers (dic_xyz_pred d)) (dic_angles d)
        (Some (dic_dds_pred d)) (Some (dic_stds_ale d)) false 100
        (args_threshold_prob a) (args_threshold_dist a) (args_radii a) = Ok b
    ∧ fig_artists fig !! (2 + 2 * 0)%nat = Some (PatchCircle circle)
    ∧ fig_artists fig !! (2 + 2 * 0 + 1)%nat = Some (PatchArrow arrow)
    ∧ circle_color circle = (if b then "r" else "deepskyblue")
    ∧ arrow_facecolor arrow = circle_color circle
    ∧ xz_centers (dic_xyz_pred d) !! 0%nat = Some (circle_xy circle).
Proof.
  intros ext a d.
  destruct (show_social_run ext insertion_argsort (λ _ _ _ : nat, 0) a "out"
              [replicate 51 1] d)
    as (ks & colors & ax & front_ax & fig & _ & Hrun & _).
  - apply insertion_argsort_sorts.
  - simpl. left.
  - simpl. right. left.
  - reflexivity.
  - intros ? ?. by exists [].
  - reflexivity.
  - simpl. bounded_scene.
  - reflexivity.
  - reflexivity.
  - reflexivity.
  - simpl. apply List.Forall_cons; [lra|apply List.Forall_nil].
  - reflexivity.
  - reflexivity.
  - repeat constructor.
  - assert (shown_bird_figure
              (show_social ext insertion_argsort (λ _ _ _ : nat, 0) a "out"
                 [replicate 51 1] d) = Some fig) as Hfig
      by (by rewrite Hrun).
    assert (0 < length (dic_angles d))%nat as Hidx by (simpl; lia).
    destruct (bird_view_colours ext insertion_argsort (λ _ _ _ : nat, 0) a
                "out" [replicate 51 1] d fig 0 Hfig Hidx)
      as (b & circle & arrow & H).
    by exists fig, b, circle, arrow.
Defined.
